(** * The Oran.js document store: storage engines, collections, queries, sessions

    A shallow embedding of the storage layer of Oran.js v2.0
    ([StorageEngine], [JSONStorageEngine], [MemoryStorageEngine]), of the
    layers on it ([Collection], [QueryBuilder]) and of two services beside
    it ([SessionManager], [Metrics]), with the properties of its
    specification that can be settled on it and further properties read
    off the code.

    Conventions of the embedding.
    - A JavaScript value is a [value]; numbers are the integer-valued
      doubles, carried as [Z].
    - A record is an object: an association list in property order.
    - Every stored record is a heap object: the engine state carries a
      [heap] and the array [data], the cache and the caller hold locations
      into it, so that the in-place writes of [delete] ([existing._deleted =
      true]) are seen through every alias, as in the source.
    - [nowISO()], [Date.now()] and [uid()] are inputs of the operations
      that call them.
    - A thrown exception is the [Thrown] outcome of an operation. *)

From Stdlib Require Import ZArith String List Bool Ascii DecimalString Lia.
From Stdlib Require Import Permutation Sorted.
Import ListNotations.
Set Warnings "-register-all".
Open Scope string_scope.
Open Scope Z_scope.

(** ** JavaScript values *)

Inductive value : Type :=
| VUndef : value
| VNull : value
| VBool (b : bool) : value
| VNum (n : Z) : value
| VStr (s : string) : value
| VArr (elems : list value) : value
| VObj (props : list (string * value)) : value.

(** An object is its property list, in property order. *)
Definition object := list (string * value).

(** [o[k]]: the value of property [k], [undefined] when absent. *)
Fixpoint prop (o : object) (k : string) : value :=
  match o with
  | [] => VUndef
  | (k', v) :: rest => if String.eqb k' k then v else prop rest k
  end.

Fixpoint has_prop (o : object) (k : string) : bool :=
  match o with
  | [] => false
  | (k', _) :: rest => if String.eqb k' k then true else has_prop rest k
  end.

(** [o[k] = v]: overwrite in place, or append a new property. *)
Fixpoint set_prop (o : object) (k : string) (v : value) : object :=
  match o with
  | [] => [(k, v)]
  | (k', v') :: rest =>
      if String.eqb k' k then (k', v) :: rest else (k', v') :: set_prop rest k v
  end.

(** [delete o[k]] / the rest pattern [{ k, ...rest } = o]. *)
Fixpoint remove_prop (o : object) (k : string) : object :=
  match o with
  | [] => []
  | (k', v') :: rest =>
      if String.eqb k' k then remove_prop rest k else (k', v') :: remove_prop rest k
  end.

(** Object spread [{ ...a, ...b }]. *)
Definition spread (a b : object) : object :=
  fold_left (fun acc kv => set_prop acc (fst kv) (snd kv)) b a.

(** JavaScript truthiness ([!x], [if (x)]). *)
Definition truthy (v : value) : bool :=
  match v with
  | VUndef | VNull => false
  | VBool b => b
  | VNum n => negb (n =? 0)
  | VStr s => negb (String.eqb s "")
  | VArr _ | VObj _ => true
  end.

(** [a === b], also the SameValueZero of [Array.prototype.includes], [Map]
    and [Set] (they differ on NaN and -0 only, which [Z] does not have).
    Arrays and objects are equal only to themselves; the embedding has no
    references inside values, and two array or object values that meet in a
    comparison come from different allocations (a filter literal against a
    stored field, a payload against a stored field), so they are unequal. *)
Definition strict_eq (a b : value) : bool :=
  match a, b with
  | VUndef, VUndef => true
  | VNull, VNull => true
  | VBool x, VBool y => Bool.eqb x y
  | VNum x, VNum y => x =? y
  | VStr x, VStr y => String.eqb x y
  | _, _ => false
  end.

Definition is_primitive (v : value) : bool :=
  match v with
  | VArr _ | VObj _ => false
  | _ => true
  end.

(** [arr.includes(x)]. *)
Definition includes (l : list value) (x : value) : bool :=
  existsb (fun y => strict_eq y x) l.

Definition Z_to_string (n : Z) : string := NilEmpty.string_of_int (Z.to_int n).

Fixpoint join (sep : string) (l : list string) : string :=
  match l with
  | [] => ""
  | [s] => s
  | s :: rest => s ++ sep ++ join sep rest
  end.

(** [String(v)] for JSON-shaped values. *)
Fixpoint ToString (v : value) : string :=
  match v with
  | VUndef => "undefined"
  | VNull => "null"
  | VBool true => "true"
  | VBool false => "false"
  | VNum n => Z_to_string n
  | VStr s => s
  | VArr l =>
      join "," ((fix elems (l : list value) : list string :=
                   match l with
                   | [] => []
                   | VUndef :: r => "" :: elems r
                   | VNull :: r => "" :: elems r
                   | x :: r => ToString x :: elems r
                   end) l)
  | VObj _ => "[object Object]"
  end.

Definition is_space (c : ascii) : bool :=
  match c with
  | " "%char | "009"%char | "010"%char | "011"%char | "012"%char | "013"%char => true
  | _ => false
  end.

Fixpoint trim_left (s : string) : string :=
  match s with
  | String c r => if is_space c then trim_left r else s
  | EmptyString => EmptyString
  end.

Fixpoint rev_string (acc s : string) : string :=
  match s with
  | EmptyString => acc
  | String c r => rev_string (String c acc) r
  end.

Definition trim (s : string) : string :=
  rev_string "" (trim_left (rev_string "" (trim_left s))).

Definition digit_of (c : ascii) : option Z :=
  let n := Z.of_nat (nat_of_ascii c) in
  if (48 <=? n) && (n <=? 57) then Some (n - 48) else None.

Fixpoint digits (acc : Z) (s : string) : option Z :=
  match s with
  | EmptyString => Some acc
  | String c r =>
      match digit_of c with
      | Some d => digits (10 * acc + d) r
      | None => None
      end
  end.

(** [Number(s)]: [None] is NaN. The numbers of the embedding are integers, so
    the decimal integer literals are the numeric strings; the other literal
    forms of JavaScript (fraction, exponent, radix prefix, Infinity) are
    NaN here. *)
Definition StringToNumber (s : string) : option Z :=
  match trim s with
  | EmptyString => Some 0
  | String "+" (String c r) => digits 0 (String c r)
  | String "-" (String c r) => option_map Z.opp (digits 0 (String c r))
  | t => digits 0 t
  end.

(** A primitive after [ToPrimitive]: a string or something numeric. *)
Definition ToNumber (v : value) : option Z :=
  match v with
  | VUndef => None
  | VNull => Some 0
  | VBool b => Some (if b then 1 else 0)
  | VNum n => Some n
  | VStr s => StringToNumber s
  | VArr _ | VObj _ => StringToNumber (ToString v)
  end.

Definition as_string (v : value) : option string :=
  match v with
  | VStr s => Some s
  | VArr _ | VObj _ => Some (ToString v)
  | _ => None
  end.

(** The abstract relational comparison [a < b]: [None] is [undefined]. *)
Definition less_than (a b : value) : option bool :=
  match as_string a, as_string b with
  | Some s, Some t => Some (String.ltb s t)
  | _, _ =>
      match ToNumber a, ToNumber b with
      | Some x, Some y => Some (x <? y)
      | _, _ => None
      end
  end.

Definition js_lt (a b : value) : bool :=
  match less_than a b with Some true => true | _ => false end.
Definition js_gt (a b : value) : bool :=
  match less_than b a with Some true => true | _ => false end.
Definition js_le (a b : value) : bool :=
  match less_than b a with Some false => true | _ => false end.
Definition js_ge (a b : value) : bool :=
  match less_than a b with Some false => true | _ => false end.

(** ** Outcomes: a returned value or a thrown exception *)

Inductive error : Type :=
| NotFound (id : value)          (* new Error(`Record with id ${id} not found`) *)
| SyntaxError (pattern : value)  (* new RegExp(pattern) on an invalid pattern *)
| IOError.                       (* a failing fs call *)

Inductive outcome (A : Type) : Type :=
| Returned (a : A)
| Thrown (e : error).
Arguments Returned {A} a.
Arguments Thrown {A} e.

Definition bind {A B : Type} (m : outcome A) (k : A -> outcome B) : outcome B :=
  match m with
  | Returned a => k a
  | Thrown e => Thrown e
  end.

Notation "x <- m ;; k" := (bind m (fun x => k))
  (at level 61, m at next level, right associativity).

(** [arr.filter(p)] with a callback that may throw. *)
Fixpoint filterM {A : Type} (p : A -> outcome bool) (l : list A) : outcome (list A) :=
  match l with
  | [] => Returned []
  | x :: r =>
      b <- p x ;;
      r' <- filterM p r ;;
      Returned (if b then x :: r' else r')
  end.

(** [new RegExp(pattern).test(subject)]; the regular-expression engine is a
    parameter of [find]. [None] is the SyntaxError of the constructor. *)
Definition regexp := value -> value -> option bool.

Definition regexp_test (rx : regexp) (pattern subject : value) : outcome bool :=
  match rx pattern subject with
  | Some b => Returned b
  | None => Thrown (SyntaxError pattern)
  end.

Definition startsWith_underscore (s : string) : bool :=
  match s with
  | String "_" _ => true
  | _ => false
  end.

(** [typeof v === 'object' && v !== null] *)
Definition is_object (v : value) : bool :=
  match v with
  | VArr _ | VObj _ => true
  | _ => false
  end.

Fixpoint index_entries (i : nat) (l : list value) : list (string * value) :=
  match l with
  | [] => []
  | x :: r => (NilEmpty.string_of_uint (Nat.to_uint i), x) :: index_entries (S i) r
  end.

(** [Object.entries(v)] of an object or an array. *)
Definition entries (v : value) : list (string * value) :=
  match v with
  | VObj o => o
  | VArr l => index_entries 0 l
  | _ => []
  end.

(** ** The query filter: the operator switch shared by the engines *)

(** One [case] of the operator [switch] of [find]: the value the case
    computes from the record's field [fv] and the operand [val], or [None]
    when no [case] matches the operator key. *)
Definition eval_operator (rx : regexp) (op : string) (fv val : value)
  : option (outcome bool) :=
  if String.eqb op "$eq" then Some (Returned (strict_eq fv val))
  else if String.eqb op "$ne" then Some (Returned (negb (strict_eq fv val)))
  else if String.eqb op "$gt" then Some (Returned (js_gt fv val))
  else if String.eqb op "$gte" then Some (Returned (js_ge fv val))
  else if String.eqb op "$lt" then Some (Returned (js_lt fv val))
  else if String.eqb op "$lte" then Some (Returned (js_le fv val))
  else if String.eqb op "$in" then
    Some (Returned (match val with VArr l => includes l fv | _ => false end))
  else if String.eqb op "$nin" then
    Some (Returned (match val with VArr l => negb (includes l fv) | _ => false end))
  else if String.eqb op "$regex" then Some (regexp_test rx val fv)
  else if String.eqb op "$exists" then
    Some (Returned (strict_eq (VBool (negb (strict_eq fv VUndef))) val))
  else None.

Definition recognized (op : string) : bool :=
  existsb (String.eqb op)
    ["$eq"; "$ne"; "$gt"; "$gte"; "$lt"; "$lte"; "$in"; "$nin"; "$regex"; "$exists"].

(** [JSONStorageEngine.find], the operator loop of the filter callback:
    every [case] returns from the callback, so the first recognized operator
    decides; when the loop ends the callback returns [true]. *)
Fixpoint json_operators (rx : regexp) (fv : value) (ops : list (string * value))
  : outcome bool :=
  match ops with
  | [] => Returned true
  | (op, val) :: rest =>
      match eval_operator rx op fv val with
      | Some r => r
      | None => json_operators rx fv rest
      end
  end.

(** The filter callback of [JSONStorageEngine.find] for one query entry. *)
Definition json_field_filter (rx : regexp) (field : string) (qv : value) (item : object)
  : outcome bool :=
  if is_object qv then json_operators rx (prop item field) (entries qv)
  else Returned (strict_eq (prop item field) qv).

(** [MemoryStorageEngine.find], the operator loop: [opMatch] is declared
    before the loop and keeps its value when no [case] matches; the loop
    breaks with [match = false] at the first operator leaving it false. The
    result is [false] when the loop broke. *)
Fixpoint memory_operators (rx : regexp) (fv : value) (ops : list (string * value))
    (opMatch : bool) : outcome bool :=
  match ops with
  | [] => Returned true
  | (op, val) :: rest =>
      om <- match eval_operator rx op fv val with
            | Some r => r
            | None => Returned opMatch
            end ;;
      if om then memory_operators rx fv rest om else Returned false
  end.

(** [MemoryStorageEngine.find], the loop over the query entries of one
    record: a failed operator object clears [match] and the loop goes on to
    the next entry; a failed literal clears it and leaves the loop. *)
Fixpoint memory_fields (rx : regexp) (record : object) (q : list (string * value))
    (match_ : bool) : outcome bool :=
  match q with
  | [] => Returned match_
  | (field, qv) :: rest =>
      if startsWith_underscore field then memory_fields rx record rest match_
      else if is_object qv then
        ok <- memory_operators rx (prop record field) (entries qv) false ;;
        memory_fields rx record rest (match_ && ok)
      else if negb (strict_eq (prop record field) qv) then Returned false
      else memory_fields rx record rest match_
  end.

(** ** The cache of [StorageEngine] *)

(** A location of the object heap. *)
Definition loc := nat.

(** A JavaScript [Map] in insertion order, oldest entry first. *)
Definition jsmap (A : Type) := list (value * A).

Fixpoint map_get {A : Type} (m : jsmap A) (k : value) : option A :=
  match m with
  | [] => None
  | (k', x) :: rest => if strict_eq k' k then Some x else map_get rest k
  end.

Fixpoint map_delete {A : Type} (m : jsmap A) (k : value) : jsmap A :=
  match m with
  | [] => []
  | (k', x) :: rest =>
      if strict_eq k' k then rest else (k', x) :: map_delete rest k
  end.

(** [m.set(k, x)]: an existing key keeps its place in the order. *)
Fixpoint map_set {A : Type} (m : jsmap A) (k : value) (x : A) : jsmap A :=
  match m with
  | [] => [(k, x)]
  | (k', x') :: rest =>
      if strict_eq k' k then (k', x) :: rest else (k', x') :: map_set rest k x
  end.

Definition map_keys {A : Type} (m : jsmap A) : list value := map fst m.

(** Pairwise different keys, as [===] tells. *)
Fixpoint distinct (ks : list value) : Prop :=
  match ks with
  | [] => True
  | k :: rest => (forall k', In k' rest -> strict_eq k' k = false) /\ distinct rest
  end.

(** A [Map] holds a key once. *)
Definition map_ok {A : Type} (m : jsmap A) : Prop := distinct (map_keys m).

Section Cache.
Context {A : Type}.

(** [getFromCache(id)]: the new cache and the item ([None] for [null]).
    The cached items are records, which are truthy. *)
Definition getFromCache (cache : jsmap A) (id : value) : jsmap A * option A :=
  match map_get cache id with
  | Some item => (map_set (map_delete cache id) id item, Some item)
  | None => (cache, None)
  end.

(** [setToCache(id, data)] with [this.cacheSize = cacheSize]. *)
Definition setToCache (cacheSize : Z) (cache : jsmap A) (id : value) (data : A)
  : jsmap A :=
  let cache' :=
    if Z.of_nat (length cache) >=? cacheSize then
      match cache with
      | [] => cache            (* oldestKey is undefined; delete is a no-op *)
      | _ :: rest => rest      (* the entry of keys().next().value is the first *)
      end
    else cache in
  map_set cache' id data.
End Cache.

(** [options.cacheSize || 1000] of the constructor. *)
Definition cacheSize_of (option_cacheSize : value) : Z :=
  match option_cacheSize with
  | VNum n => if n =? 0 then 1000 else n
  | _ => 1000
  end.

(** ** Files: what [toJSON] writes and [safeJSON] reads back *)

(** [JSON.parse(JSON.stringify(v))]: a property whose value is [undefined]
    is dropped, an [undefined] array element becomes [null]. *)
Fixpoint json_clone (v : value) : value :=
  match v with
  | VArr l =>
      VArr ((fix elems (l : list value) : list value :=
               match l with
               | [] => []
               | VUndef :: r => VNull :: elems r
               | x :: r => json_clone x :: elems r
               end) l)
  | VObj o =>
      VObj ((fix props (o : list (string * value)) : list (string * value) :=
               match o with
               | [] => []
               | (_, VUndef) :: r => props r
               | (k, x) :: r => (k, json_clone x) :: props r
               end) o)
  | _ => v
  end.

Definition clone_object (o : object) : object :=
  match json_clone (VObj o) with
  | VObj o' => o'
  | _ => []
  end.

Inductive op_type : Type := OpInsert | OpUpdate | OpDelete.

(** One line of the WAL file: [{ type, data }]. *)
Record operation : Type := { type : op_type; op_data : object }.

(** The files of one collection: [dataFile] (the snapshot) and [walFile];
    [None] is a file that does not exist. *)
Record disk : Type := {
  dataFile : option (list object);
  walFile : option (list operation)
}.

(** ** The object heap *)

Definition heap := list object.

Definition deref (h : heap) (l : loc) : object := nth l h [].

Fixpoint heap_set (h : heap) (l : loc) (o : object) : heap :=
  match h, l with
  | [], _ => []
  | _ :: r, O => o :: r
  | x :: r, S l' => x :: heap_set r l' o
  end.

(** Allocation of a new object: its location and the new heap. *)
Definition alloc (h : heap) (o : object) : loc * heap := (length h, (h ++ [o])%list).

Fixpoint alloc_all (h : heap) (os : list object) : list loc * heap :=
  match os with
  | [] => ([], h)
  | o :: r =>
      let (l, h1) := alloc h o in
      let (ls, h2) := alloc_all h1 r in
      (l :: ls, h2)
  end.

(** ** Indexes: [Map<field, Map<value, Set<id>>>] *)

(** A [Set] in insertion order. *)
Definition set_add (s : list value) (x : value) : list value :=
  if includes s x then s else (s ++ [x])%list.

Definition set_delete (s : list value) (x : value) : list value :=
  filter (fun y => negb (strict_eq y x)) s.

Definition index := jsmap (list value).

(** [if (!index.has(v)) index.set(v, new Set()); index.get(v).add(id)] *)
Definition index_add (ix : index) (v id : value) : index :=
  match map_get ix v with
  | Some s => map_set ix v (set_add s id)
  | None => map_set ix v (set_add [] id)
  end.

(** [if (v !== undefined && index.has(v)) { index.get(v).delete(id);
    if (index.get(v).size === 0) index.delete(v) }] *)
Definition index_remove (ix : index) (v id : value) : index :=
  if strict_eq v VUndef then ix
  else match map_get ix v with
       | Some s =>
           let s' := set_delete s id in
           match s' with
           | [] => map_delete ix v
           | _ => map_set ix v s'
           end
       | None => ix
       end.

(** The index loop of [insert]. *)
Definition index_insert (record : object) (fi : string * index) : string * index :=
  let (field, ix) := fi in
  if negb (strict_eq (prop record field) VUndef)
  then (field, index_add ix (prop record field) (prop record "id"))
  else (field, ix).

(** The index loop of [update]. A field that holds an array or an object
    and is left alone by the update is the same reference on both sides in
    the source and compares equal there; [strict_eq] has no references, so
    the indexes of the embedding are those on fields with primitive
    values. *)
Definition index_update (id : value) (existing updatedData : object)
    (fi : string * index) : string * index :=
  let (field, ix) := fi in
  if negb (strict_eq (prop existing field) (prop updatedData field)) then
    let ix1 := index_remove ix (prop existing field) id in
    if negb (strict_eq (prop updatedData field) VUndef)
    then (field, index_add ix1 (prop updatedData field) id)
    else (field, ix1)
  else (field, ix).

(** The index loop of [delete]. *)
Definition index_delete (id : value) (existing : object)
    (fi : string * index) : string * index :=
  let (field, ix) := fi in (field, index_remove ix (prop existing field) id).

Definition deleted (o : object) : bool := truthy (prop o "_deleted").

(** The scan of [rebuildIndex] over the records, from the cleared index. *)
Fixpoint rebuild_scan (field : string) (records : list object) (ix : index) : index :=
  match records with
  | [] => ix
  | record :: rest =>
      if deleted record then rebuild_scan field rest ix
      else if negb (strict_eq (prop record field) VUndef)
      then rebuild_scan field rest (index_add ix (prop record field) (prop record "id"))
      else rebuild_scan field rest ix
  end.

(** [indexes.delete(field)] on the [Map] of the indexes, a list in
    insertion order. *)
Fixpoint drop_field (field : string) (ixs : list (string * index))
  : list (string * index) :=
  match ixs with
  | [] => []
  | (f, ix) :: rest =>
      if String.eqb f field then rest else (f, ix) :: drop_field field rest
  end.

(** [arr.findIndex(p)]; [None] is -1. *)
Fixpoint findIndex {A : Type} (p : A -> bool) (l : list A) : option nat :=
  match l with
  | [] => None
  | x :: r => if p x then Some O else option_map S (findIndex p r)
  end.

(** [arr[i] = x] for an index inside the array. *)
Fixpoint array_set {A : Type} (l : list A) (i : nat) (x : A) : list A :=
  match l, i with
  | [], _ => []
  | _ :: r, O => x :: r
  | y :: r, S i' => y :: array_set r i' x
  end.

(** ** JSONStorageEngine *)

Module JSON.

(** The fields of an engine instance; the files are a [disk]. *)
Record engine : Type := {
  objects : heap;
  data : list loc;
  indexes : list (string * index);
  cache : jsmap loc;
  cacheSize : Z
}.

Definition state : Type := engine * disk.

(** [new JSONStorageEngine({ cacheSize })]. *)
Definition create (option_cacheSize : value) : engine :=
  {| objects := []; data := []; indexes := []; cache := [];
     cacheSize := cacheSize_of option_cacheSize |}.

Definition records (e : engine) : list object := map (deref (objects e)) (data e).

(** The non-deleted records, as [find({})] sees them. *)
Definition live (e : engine) : list object :=
  filter (fun o => negb (deleted o)) (records e).

Definition with_cache (e : engine) (c : jsmap loc) : engine :=
  {| objects := objects e; data := data e; indexes := indexes e;
     cache := c; cacheSize := cacheSize e |}.

Definition with_indexes (e : engine) (ixs : list (string * index)) : engine :=
  {| objects := objects e; data := data e; indexes := ixs;
     cache := cache e; cacheSize := cacheSize e |}.

Definition with_data (e : engine) (h : heap) (d : list loc) : engine :=
  {| objects := h; data := d; indexes := indexes e;
     cache := cache e; cacheSize := cacheSize e |}.

(** [rebuildIndex(field)] *)
Definition rebuildIndex (field : string) (e : engine) : engine :=
  with_indexes e
    (map (fun fi : string * index =>
            if String.eqb (fst fi) field
            then (fst fi, rebuild_scan field (records e) [])
            else fi)
         (indexes e)).

(** [for (const [field] of this.indexes) await this.rebuildIndex(field)] *)
Definition rebuild_all (e : engine) : engine :=
  fold_left (fun e' fi => rebuildIndex (fst fi) e') (indexes e) e.

(** [createIndex(field)] *)
Definition createIndex (field : string) (e : engine) : engine :=
  if existsb (fun fi : string * index => String.eqb (fst fi) field) (indexes e) then e
  else rebuildIndex field (with_indexes e (indexes e ++ [(field, [])])%list).

(** [dropIndex(field)]: [this.indexes.delete(field)] takes the entry of
    the field out of the [Map]. *)
Definition dropIndex (field : string) (e : engine) : engine :=
  if existsb (fun fi : string * index => String.eqb (fst fi) field) (indexes e)
  then with_indexes e (drop_field field (indexes e))
  else e.

(** [clearCache()] *)
Definition clearCache (e : engine) : engine := with_cache e [].

(** [writeToWAL(operation)]: one more line, the file created if absent. *)
Definition writeToWAL (op : operation) (d : disk) : disk :=
  {| dataFile := dataFile d;
     walFile := Some (match walFile d with
                      | Some lines => lines ++ [op]
                      | None => [op]
                      end)%list |}.

(** [saveData()] *)
Definition saveData (e : engine) (d : disk) : disk :=
  {| dataFile := Some (map clone_object (records e)); walFile := walFile d |}.

(** [applyOperation(operation)], with the reading of the clock. *)
Definition applyOperation (now : string) (op : operation) (e : engine) : engine :=
  match type op with
  | OpInsert =>
      let (l, h) := alloc (objects e) (op_data op) in
      with_data e h (data e ++ [l])%list
  | OpUpdate =>
      match findIndex (fun l => strict_eq (prop (deref (objects e) l) "id")
                                          (prop (op_data op) "id")) (data e) with
      | Some i =>
          let old := deref (objects e) (nth i (data e) O) in
          let (l, h) := alloc (objects e)
                          (set_prop (spread old (op_data op)) "_updated" (VStr now)) in
          with_data e h (array_set (data e) i l)
      | None => e
      end
  | OpDelete =>
      with_data e (objects e)
        (filter (fun l => negb (strict_eq (prop (deref (objects e) l) "id")
                                          (prop (op_data op) "id"))) (data e))
  end.

(** [init()]: load the snapshot, replay the WAL and unlink it, rebuild the
    indexes. *)
Definition init (now : string) (s : state) : state :=
  let (e, d) := s in
  let e1 := match dataFile d with
            | Some recs =>
                let (ls, h) := alloc_all (objects e) recs in with_data e h ls
            | None => e
            end in
  let (e2, d2) :=
    match walFile d with
    | Some lines =>
        (fold_left (fun e' op => applyOperation now op e') lines e1,
         {| dataFile := dataFile d; walFile := None |})
    | None => (e1, d)
    end in
  (rebuild_all e2, d2).

(** [get(id)]: the record found ([None] for [null]) and the engine with
    its cache touched. *)
Definition get (id : value) (e : engine) : engine * option loc :=
  match getFromCache (cache e) id with
  | (c, Some l) => (with_cache e c, Some l)
  | (_, None) =>
      match List.find (fun l => strict_eq (prop (deref (objects e) l) "id") id
                                && negb (deleted (deref (objects e) l))) (data e) with
      | Some l => (with_cache e (setToCache (cacheSize e) (cache e) id l), Some l)
      | None => (e, None)
      end
  end.

(** [find(query)] *)
Definition find (rx : regexp) (query : object) (e : engine) : outcome (list loc) :=
  fold_left
    (fun (results : outcome (list loc)) (fv : string * value) =>
       rs <- results ;;
       if startsWith_underscore (fst fv) then Returned rs
       else filterM (fun l => json_field_filter rx (fst fv) (snd fv)
                                (deref (objects e) l)) rs)
    query
    (Returned (filter (fun l => negb (deleted (deref (objects e) l))) (data e))).

(** The stamping of [insert]: [if (!data.id) data.id = uid();
    data._created = nowISO(); data._updated = data._created]. *)
Definition stamp (now fresh : string) (d : object) : object :=
  let d1 := if negb (truthy (prop d "id")) then set_prop d "id" (VStr fresh) else d in
  let d2 := set_prop d1 "_created" (VStr now) in
  set_prop d2 "_updated" (prop d2 "_created").

(** The WAL lines of the three operations, as [toJSON] writes them. *)
Definition insert_entry (record : object) : operation :=
  {| type := OpInsert; op_data := clone_object record |}.
Definition update_entry (updatedData : object) : operation :=
  {| type := OpUpdate; op_data := clone_object updatedData |}.
Definition delete_entry (id : value) : operation :=
  {| type := OpDelete; op_data := clone_object [("id", id)] |}.

(** [insert(data)]: the caller's object becomes the stored record. *)
Definition insert (now fresh : string) (d : object) (s : state) : state * loc :=
  let (e, dk) := s in
  let record := stamp now fresh d in
  let dk1 := writeToWAL (insert_entry record) dk in
  let (l, h) := alloc (objects e) record in
  let e1 := with_data e h (data e ++ [l])%list in
  let e2 := with_indexes e1 (map (index_insert record) (indexes e1)) in
  let dk2 := saveData e2 dk1 in
  ((with_cache e2 (setToCache (cacheSize e2) (cache e2) (prop record "id") l), dk2), l).

(** [{ ...existing, ...data, _updated: nowISO() }] *)
Definition merged (now : string) (existing d : object) : object :=
  set_prop (spread existing d) "_updated" (VStr now).

Definition has_id (h : heap) (id : value) (l : loc) : bool :=
  strict_eq (prop (deref h l) "id") id.

(** [update(id, data)] *)
Definition update (now : string) (id : value) (d : object) (s : state)
  : state * outcome loc :=
  let (e, dk) := s in
  match get id e with
  | (e0, None) => ((e0, dk), Thrown (NotFound id))
  | (e0, Some l0) =>
      let existing := deref (objects e0) l0 in
      let updatedData := merged now existing d in
      let dk1 := writeToWAL (update_entry updatedData) dk in
      let (l, h) := alloc (objects e0) updatedData in
      let e1 := match findIndex (has_id (objects e0) id) (data e0) with
                | Some i => with_data e0 h (array_set (data e0) i l)
                | None => with_data e0 h (data e0)
                end in
      let e2 := with_indexes e1 (map (index_update id existing updatedData) (indexes e1)) in
      let dk2 := saveData e2 dk1 in
      ((with_cache e2 (setToCache (cacheSize e2) (cache e2) id l), dk2), Returned l)
  end.

(** [existing._deleted = true; existing._deleted_at = nowISO()] *)
Definition tombstone (now : string) (o : object) : object :=
  set_prop (set_prop o "_deleted" (VBool true)) "_deleted_at" (VStr now).

(** [delete(id)]: the record is written in place, through the reference
    [get] returned. *)
Definition delete (now : string) (id : value) (s : state) : state * outcome bool :=
  let (e, dk) := s in
  match get id e with
  | (e0, None) => ((e0, dk), Thrown (NotFound id))
  | (e0, Some l0) =>
      let dk1 := writeToWAL (delete_entry id) dk in
      let h := heap_set (objects e0) l0 (tombstone now (deref (objects e0) l0)) in
      let existing := deref h l0 in
      let e1 := match findIndex (has_id h id) (data e0) with
                | Some i => with_data e0 h (array_set (data e0) i l0)
                | None => with_data e0 h (data e0)
                end in
      let e2 := with_indexes e1 (map (index_delete id existing) (indexes e1)) in
      let dk2 := saveData e2 dk1 in
      ((with_cache e2 (map_delete (cache e2) id), dk2), Returned true)
  end.

(** [const { _created, _updated, ...cleanItem } = item] *)
Definition clean (o : object) : object :=
  remove_prop (remove_prop o "_created") "_updated".

(** [compact()] *)
Definition compact (s : state) : state * bool :=
  let (e, dk) := s in
  let compactedData := map clean (live e) in
  let dk1 := {| dataFile := Some (map clone_object compactedData); walFile := None |} in
  let (ls, h) := alloc_all (objects e) compactedData in
  ((rebuild_all (with_cache (with_data e h ls) []), dk1), true).

(** The files [backup] writes. *)
Record backup_files : Type := {
  backup_json : list object;
  backup_wal : option (list operation)
}.

(** [backup(backupPath)]: [copyFileSync] throws when there is no snapshot
    file, and the method returns [null]. *)
Definition backup (s : state) : option backup_files :=
  match dataFile (snd s) with
  | Some recs => Some {| backup_json := recs; backup_wal := walFile (snd s) |}
  | None => None
  end.

(** [restore(backupPath)], the file at the path being [file]. *)
Definition restore (file : option (list object)) (s : state) : state * bool :=
  let (e, dk) := s in
  match file with
  | None => (s, false)
  | Some recs =>
      let (ls, h) := alloc_all (objects e) recs in
      let e1 := with_cache (with_data e h ls) [] in
      ((rebuild_all e1, saveData e1 dk), true)
  end.

(** *** Runs of mutating operations, and the process killed in one *)

Inductive mutation : Type :=
| Insert (now fresh : string) (d : object)
| Update (now : string) (id : value) (d : object)
| Delete (now : string) (id : value).

(** One operation run to its end (a rejected one leaves what [get] left). *)
Definition apply (m : mutation) (s : state) : state :=
  match m with
  | Insert now fresh d => fst (insert now fresh d s)
  | Update now id d => fst (update now id d s)
  | Delete now id => fst (delete now id s)
  end.

Definition run (ms : list mutation) (s : state) : state :=
  fold_left (fun s' m => apply m s') ms s.

(** The files left when the process is killed in operation [m] after its
    [writeToWAL] and before its [saveData]; an operation that rejects
    writes nothing. *)
Definition killed_after_wal (m : mutation) (s : state) : disk :=
  let (e, dk) := s in
  match m with
  | Insert now fresh d => writeToWAL (insert_entry (stamp now fresh d)) dk
  | Update now id d =>
      match get id e with
      | (e0, Some l0) => writeToWAL (update_entry (merged now (deref (objects e0) l0) d)) dk
      | (_, None) => dk
      end
  | Delete now id =>
      match get id e with
      | (_, Some _) => writeToWAL (delete_entry id) dk
      | (_, None) => dk
      end
  end.

(** A new process on the files: [new JSONStorageEngine()] and [init()]. *)
Definition recover (now : string) (dk : disk) : state :=
  init now (create VUndef, dk).

(** Every operation of the run is killed after its WAL append, and the
    collection re-initialized. *)
Definition run_killed (now : string) (ms : list mutation) (s : state) : state :=
  fold_left (fun s' m => recover now (killed_after_wal m s')) ms s.

(** *** The consistency of an engine state *)

(** [id] is the id of a stored, non-deleted record. *)
Definition identifies_live (e : engine) (id : value) : Prop :=
  exists l, In l (data e) /\ has_id (objects e) id l = true
            /\ deleted (deref (objects e) l) = false.

(** Every cache entry maps an id to the stored live record with that id. *)
Definition cache_coherent (e : engine) : Prop :=
  forall k l, map_get (cache e) k = Some l ->
              In l (data e) /\ has_id (objects e) k l = true
              /\ deleted (deref (objects e) l) = false.

(** At most one stored record has the id [id]. *)
Definition unique_id (e : engine) (id : value) : Prop :=
  forall i j, (i < length (data e))%nat -> (j < length (data e))%nat ->
              has_id (objects e) id (nth i (data e) O) = true ->
              has_id (objects e) id (nth j (data e) O) = true -> i = j.

(** The data model of the specification on an engine state: ids are unique
    within the collection, the cache is a [Map] of stored live records
    under their ids, the array holds allocated objects. *)
Definition consistent (e : engine) : Prop :=
  map_ok (cache e) /\ cache_coherent e /\ (forall id, unique_id e id)
  /\ (forall l, In l (data e) -> (l < length (objects e))%nat).

(** The snapshot file is the serialized array, as [saveData] leaves it. *)
Definition saved (s : state) : Prop :=
  dataFile (snd s) = Some (map clone_object (records (fst s))).


End JSON.

(** ** What the specification says of filters and of indexes *)

(** The filter contract, in the words of the specification: an operator of a
    field's operator object holds of the record's field; a field constraint
    is the conjunction of its operators, a bare literal being [$eq]; a filter
    is the conjunction of its field constraints, the fields with a leading
    underscore being ignored. *)
Definition operator_holds (rx : regexp) (record : object) (field : string)
    (opval : string * value) : Prop :=
  eval_operator rx (fst opval) (prop record field) (snd opval) = Some (Returned true).

Definition constraint_holds (rx : regexp) (record : object) (fq : string * value) : Prop :=
  if is_object (snd fq)
  then Forall (operator_holds rx record (fst fq)) (entries (snd fq))
  else strict_eq (prop record (fst fq)) (snd fq) = true.

Definition satisfies (rx : regexp) (record : object) (query : object) : Prop :=
  Forall (fun fq => startsWith_underscore (fst fq) = false -> constraint_holds rx record fq)
         query.

(** A well-formed filter uses recognized operator keys only. *)
Definition well_formed (query : object) : Prop :=
  forall field qv op val,
    In (field, qv) query -> startsWith_underscore field = false ->
    In (op, val) (entries qv) -> recognized op = true.

(** [RegExp] accepts the patterns of the filter. *)
Definition patterns_accepted (rx : regexp) (query : object) : Prop :=
  forall field qv val,
    In (field, qv) query -> In ("$regex", val) (entries qv) ->
    forall subject, rx val subject <> None.

(** Every operator object of the filter has one operator at most. *)
Definition single_operators (query : object) : Prop :=
  forall field qv, In (field, qv) query -> (length (entries qv) <= 1)%nat.

(** A JSON value: no [undefined] inside. *)
Fixpoint json_value (v : value) : bool :=
  match v with
  | VUndef => false
  | VArr l => forallb json_value l
  | VObj o => forallb (fun kv : string * value => json_value (snd kv)) o
  | _ => true
  end.

Definition json_object (o : object) : bool := json_value (VObj o).

(** The id of a row of a backup file. *)
Definition row_id (o : object) : value := prop o "id".

(** [MemoryStorageEngine.restore] on one row that has an id:
    [{ ...record, id, _created: now, _updated: now }]. *)
Definition restamped (now : string) (record : object) : object :=
  set_prop (set_prop (set_prop record "id" (prop record "id")) "_created" (VStr now))
    "_updated" (VStr now).

(** Two indexes hold the same mapping from values to sets of ids. *)
Definition maps_to (ix : index) (v id : value) : Prop :=
  exists s, map_get ix v = Some s /\ In id s.







(** The index of [field] among the indexes of an engine. *)
Fixpoint index_of (ixs : list (string * index)) (field : string) : index :=
  match ixs with
  | [] => []
  | (f, ix) :: rest => if String.eqb f field then ix else index_of rest field
  end.

(** A [regexp] to run the examples with, none of which has a [$regex]
    operator: it answers for the string patterns without metacharacters,
    which match the subjects that contain them, and answers any other
    pattern with the SyntaxError. The theorems hold for every [regexp]. *)
Fixpoint contains (p s : string) : bool :=
  prefix p s || match s with
                | EmptyString => false
                | String _ r => contains p r
                end.

Fixpoint plain (p : string) : bool :=
  match p with
  | EmptyString => true
  | String c r =>
      negb (existsb (Ascii.eqb c)
              ["\"; "^"; "$"; "."; "|"; "?"; "*"; "+"; "("; ")"; "["; "]"; "{"; "}"]%char)
      && plain r
  end.

Definition literal_regexp : regexp :=
  fun pattern subject =>
    match pattern with
    | VStr p => if plain p then Some (contains p (ToString subject)) else None
    | _ => None
    end.

(** A collection with no file yet. *)
Definition no_files : disk := {| dataFile := None; walFile := None |}.

(** ** MemoryStorageEngine *)

Module Memory.

(** [data] is a [Map] from id to record. *)
Record engine : Type := {
  objects : heap;
  data : jsmap loc;
  indexes : list (string * index);
  cache : jsmap loc;
  cacheSize : Z
}.

Definition create (option_cacheSize : value) : engine :=
  {| objects := []; data := []; indexes := []; cache := [];
     cacheSize := cacheSize_of option_cacheSize |}.

(** The entries [[id, record]] of [this.data]. *)
Definition records (e : engine) : list (value * object) :=
  map (fun kl : value * loc => (fst kl, deref (objects e) (snd kl))) (data e).

Definition live (e : engine) : list object :=
  filter (fun o => negb (deleted o)) (map snd (records e)).

Definition with_cache (e : engine) (c : jsmap loc) : engine :=
  {| objects := objects e; data := data e; indexes := indexes e;
     cache := c; cacheSize := cacheSize e |}.

Definition with_indexes (e : engine) (ixs : list (string * index)) : engine :=
  {| objects := objects e; data := data e; indexes := ixs;
     cache := cache e; cacheSize := cacheSize e |}.

Definition with_data (e : engine) (h : heap) (d : jsmap loc) : engine :=
  {| objects := h; data := d; indexes := indexes e;
     cache := cache e; cacheSize := cacheSize e |}.

(** The scan of [rebuildIndex]: the id added is the key of the entry. *)
Fixpoint rebuild_scan (field : string) (ents : list (value * object)) (ix : index)
  : index :=
  match ents with
  | [] => ix
  | (id, record) :: rest =>
      if deleted record then rebuild_scan field rest ix
      else if negb (strict_eq (prop record field) VUndef)
      then rebuild_scan field rest (index_add ix (prop record field) id)
      else rebuild_scan field rest ix
  end.

Definition rebuildIndex (field : string) (e : engine) : engine :=
  with_indexes e
    (map (fun fi : string * index =>
            if String.eqb (fst fi) field
            then (fst fi, rebuild_scan field (records e) [])
            else fi)
         (indexes e)).

Definition rebuild_all (e : engine) : engine :=
  fold_left (fun e' fi => rebuildIndex (fst fi) e') (indexes e) e.

Definition createIndex (field : string) (e : engine) : engine :=
  if existsb (fun fi : string * index => String.eqb (fst fi) field) (indexes e) then e
  else rebuildIndex field (with_indexes e (indexes e ++ [(field, [])])%list).

(** [dropIndex(field)] *)
Definition dropIndex (field : string) (e : engine) : engine :=
  if existsb (fun fi : string * index => String.eqb (fst fi) field) (indexes e)
  then with_indexes e (drop_field field (indexes e))
  else e.

(** [get(id)] *)
Definition get (id : value) (e : engine) : engine * option loc :=
  match getFromCache (cache e) id with
  | (c, Some l) => (with_cache e c, Some l)
  | (_, None) =>
      match map_get (data e) id with
      | Some l =>
          if negb (deleted (deref (objects e) l))
          then (with_cache e (setToCache (cacheSize e) (cache e) id l), Some l)
          else (e, None)
      | None => (e, None)
      end
  end.

(** [find(query)] *)
Definition find (rx : regexp) (query : object) (e : engine) : outcome (list loc) :=
  filterM
    (fun l => if deleted (deref (objects e) l) then Returned false
              else memory_fields rx (deref (objects e) l) query true)
    (map snd (data e)).

Definition stamp (now fresh : string) (d : object) : object :=
  let d1 := if negb (truthy (prop d "id")) then set_prop d "id" (VStr fresh) else d in
  set_prop (set_prop d1 "_created" (VStr now)) "_updated" (VStr now).

(** [insert(data)] *)
Definition insert (now fresh : string) (d : object) (e : engine) : engine * loc :=
  let record := stamp now fresh d in
  let (l, h) := alloc (objects e) record in
  let e1 := with_data e h (map_set (data e) (prop record "id") l) in
  let e2 := with_indexes e1 (map (index_insert record) (indexes e1)) in
  (with_cache e2 (setToCache (cacheSize e2) (cache e2) (prop record "id") l), l).

Definition merged (now : string) (existing d : object) : object :=
  set_prop (spread existing d) "_updated" (VStr now).

(** [update(id, data)] *)
Definition update (now : string) (id : value) (d : object) (e : engine)
  : engine * outcome loc :=
  match get id e with
  | (e0, None) => (e0, Thrown (NotFound id))
  | (e0, Some l0) =>
      let existing := deref (objects e0) l0 in
      let updatedData := merged now existing d in
      let (l, h) := alloc (objects e0) updatedData in
      let e1 := with_data e0 h (map_set (data e0) id l) in
      let e2 := with_indexes e1 (map (index_update id existing updatedData) (indexes e1)) in
      (with_cache e2 (setToCache (cacheSize e2) (cache e2) id l), Returned l)
  end.

Definition tombstone (now : string) (o : object) : object :=
  set_prop (set_prop o "_deleted" (VBool true)) "_deleted_at" (VStr now).

(** [delete(id)]: only the object [get] returned is written. *)
Definition delete (now : string) (id : value) (e : engine) : engine * outcome bool :=
  match get id e with
  | (e0, None) => (e0, Thrown (NotFound id))
  | (e0, Some l0) =>
      let h := heap_set (objects e0) l0 (tombstone now (deref (objects e0) l0)) in
      let existing := deref h l0 in
      let e1 := with_data e0 h (data e0) in
      let e2 := with_indexes e1 (map (index_delete id existing) (indexes e1)) in
      (with_cache e2 (map_delete (cache e2) id), Returned true)
  end.

(** [const { _created, _updated, _deleted, _deleted_at, ...cleanRecord } = record] *)
Definition clean (o : object) : object :=
  remove_prop (remove_prop (remove_prop (remove_prop o "_created") "_updated")
                 "_deleted") "_deleted_at".

(** The loop of [compact]: the live entries, cleaned, into a new [Map]. *)
Fixpoint compact_scan (ents : list (value * object)) (h : heap) (m : jsmap loc)
  : heap * jsmap loc :=
  match ents with
  | [] => (h, m)
  | (id, record) :: rest =>
      if negb (deleted record) then
        let (l, h1) := alloc h (clean record) in
        compact_scan rest h1 (map_set m id l)
      else compact_scan rest h m
  end.

(** [compact()] *)
Definition compact (e : engine) : engine * bool :=
  let (h, m) := compact_scan (records e) (objects e) [] in
  (rebuild_all (with_cache (with_data e h m) []), true).

(** [backup(backupPath)]: the content of the file written. *)
Definition backup (e : engine) : option (list object) :=
  Some (map clone_object (map clean (live e))).

(** The loop of [restore]; [fresh i] is the [uid()] drawn at row [i]. *)
Fixpoint restore_scan (now : string) (fresh : nat -> string) (i : nat)
    (recs : list object) (h : heap) (m : jsmap loc) : heap * jsmap loc :=
  match recs with
  | [] => (h, m)
  | record :: rest =>
      let id := if truthy (prop record "id") then prop record "id"
                else VStr (fresh i) in
      let fullRecord :=
        set_prop (set_prop (set_prop record "id" id) "_created" (VStr now))
          "_updated" (VStr now) in
      let (l, h1) := alloc h fullRecord in
      restore_scan now fresh (S i) rest h1 (map_set m id l)
  end.

(** [restore(backupPath)], the file at the path being [file]. *)
Definition restore (now : string) (fresh : nat -> string)
    (file : option (list object)) (e : engine) : engine * bool :=
  match file with
  | None => (e, false)
  | Some recs =>
      let (h, m) := restore_scan now fresh O recs (objects e) [] in
      (rebuild_all (with_cache (with_data e h m) []), true)
  end.

(** *** Runs of mutating operations *)

Definition apply (m : JSON.mutation) (e : engine) : engine :=
  match m with
  | JSON.Insert now fresh d => fst (insert now fresh d e)
  | JSON.Update now id d => fst (update now id d e)
  | JSON.Delete now id => fst (delete now id e)
  end.

Definition run (ms : list JSON.mutation) (e : engine) : engine :=
  fold_left (fun e' m => apply m e') ms e.

(** Every cache entry maps an id to the live record [data] has under that
    id. *)
Definition cache_coherent (e : engine) : Prop :=
  forall k l, map_get (cache e) k = Some l ->
              map_get (data e) k = Some l /\ deleted (deref (objects e) l) = false.

(** The cache is a coherent [Map]; the entries of [data] are different,
    allocated objects. *)
Definition consistent (e : engine) : Prop :=
  map_ok (cache e) /\ cache_coherent e /\ NoDup (map snd (data e))
  /\ (forall l, In l (map snd (data e)) -> (l < length (objects e))%nat).

End Memory.

(** ** Concrete collections for the examples *)

Module Scenario.
(** A collection that was never written, initialized. *)
Definition fresh : JSON.state := JSON.init "t0" (JSON.create VUndef, no_files).

Definition a1 : object := [("id", VStr "a"); ("x", VNum 1)].
Definition a2 : object := [("id", VStr "a"); ("x", VNum 2)].
Definition b1 : object := [("id", VStr "b"); ("x", VNum 1)].

Definition two_inserts : list JSON.mutation :=
  [JSON.Insert "t1" "u1" a1; JSON.Insert "t2" "u2" b1].

Definition stored (o : object) (t : string) : object :=
  (o ++ [("_created", VStr t); ("_updated", VStr t)])%list.

(** The collection with an index on [x]. *)
Definition indexed : JSON.state := (JSON.createIndex "x" (fst fresh), snd fresh).





(** The record and the filters of the filter scenario of the
    specification. *)
Definition person : object :=
  [("id", VStr "p"); ("age", VNum 30); ("tags", VArr [VStr "a"; VStr "b"])].

Definition adult : string * value := ("age", VObj [("$gte", VNum 18); ("$lt", VNum 65)]).
Definition tagged : string * value := ("tags", VObj [("$in", VArr [VStr "b"; VStr "c"])]).
Definition older : object := [("age", VObj [("$gt", VNum 30)])].

Definition people : JSON.engine := fst (fst (JSON.insert "t1" "u1" person fresh)).

(** A record outside the range of the filter [adult]. *)
Definition elder : object := [("id", VStr "e"); ("age", VNum 70)].
Definition elders : JSON.engine := fst (fst (JSON.insert "t1" "u1" elder fresh)).
Definition memory_elders : Memory.engine :=
  fst (Memory.insert "t1" "u1" elder (Memory.create VUndef)).
Definition memory_people : Memory.engine :=
  fst (Memory.insert "t1" "u1" person (Memory.create VUndef)).

(** One record inserted at [t1]. *)
Definition one_record : JSON.state := JSON.run [JSON.Insert "t1" "u1" a1] fresh.

(** One record inserted at [t1] and deleted at [t2]. *)
Definition deleted_a : JSON.state :=
  JSON.run [JSON.Insert "t1" "u1" a1; JSON.Delete "t2" (VStr "a")] fresh.

(** [insert(a1); insert(a2); compact()]: two records with the id ["a"]
    and an empty cache. *)
Definition two_of_a : JSON.state :=
  fst (JSON.compact (JSON.run [JSON.Insert "t1" "u1" a1; JSON.Insert "t2" "u2" a2] fresh)).

(** [insert(a1); update("a", { id: "b" })] without an index. *)
Definition renamed_plain : JSON.state :=
  JSON.run [JSON.Insert "t1" "u1" a1; JSON.Update "t2" (VStr "a") [("id", VStr "b")]] fresh.

(** The in-memory collection with one record, and emptied by [delete] and
    [compact]. *)
Definition memory_one : Memory.engine :=
  fst (Memory.insert "t1" "u1" a1 (Memory.create VUndef)).

Definition memory_emptied : Memory.engine :=
  fst (Memory.compact (fst (Memory.delete "t2" (VStr "a") memory_one))).
End Scenario.


(** ** Measures of runs and of files *)

(** The number of [insert] calls of a run. *)
Definition inserts (ms : list JSON.mutation) : nat :=
  length (filter (fun m => match m with JSON.Insert _ _ _ => true | _ => false end) ms).

(** The lines of the WAL file, none when the file does not exist. *)
Definition wal_lines (d : disk) : list operation :=
  match walFile d with
  | Some lines => lines
  | None => []
  end.

(** The fields that have an index, in the order of the [Map]. *)
Definition indexed_fields (ixs : list (string * index)) : list string := map fst ixs.

Definition is_indexed (field : string) (ixs : list (string * index)) : bool :=
  existsb (fun fi : string * index => String.eqb (fst fi) field) ixs.

(** What an index of the in-memory engine is to hold, from the entries of
    [data]: the key [id] is filed under [v] when its record is not deleted
    and has [v], not [undefined], as its [field]. *)
Definition memory_indexed_by (field : string) (ents : list (value * object))
    (v id : value) : Prop :=
  exists record, In (id, record) ents /\ deleted record = false
                 /\ strict_eq (prop record field) VUndef = false
                 /\ strict_eq (prop record field) v = true.

(** ** Collection: the guard in front of a storage engine

    The collection over the file-backed engine, the engine [Database]
    makes by default. *)

Module Collection.

(** What an operation of a collection throws: the error of its own guard,
    or what the engine threw. *)
Inductive failure : Type :=
| NotInitialized (name : string)  (* new Error(`Collection '${name}' is not initialized`) *)
| EngineFailure (e : error).

Inductive attempt (A : Type) : Type :=
| Done (a : A)
| Failed (f : failure).
Arguments Done {A} a.
Arguments Failed {A} f.

Record collection : Type := {
  name : string;
  storageEngine : JSON.state;
  initialized : bool
}.

(** [new Collection(name, storageEngine)] *)
Definition create (name : string) (engine : JSON.state) : collection :=
  {| name := name; storageEngine := engine; initialized := false |}.

Definition with_engine (c : collection) (s : JSON.state) : collection :=
  {| name := name c; storageEngine := s; initialized := initialized c |}.

(** [init()] *)
Definition init (now : string) (c : collection) : collection :=
  if initialized c then c
  else {| name := name c; storageEngine := JSON.init now (storageEngine c);
          initialized := true |}.

(** [ensureInitialized()] in front of the body of an operation. *)
Definition guarded {A : Type} (c : collection)
    (body : collection * attempt A) : collection * attempt A :=
  if initialized c then body else (c, Failed (NotInitialized (name c))).

Definition of_outcome {A : Type} (r : outcome A) : attempt A :=
  match r with
  | Returned a => Done a
  | Thrown e => Failed (EngineFailure e)
  end.

Definition get (id : value) (c : collection) : collection * attempt (option loc) :=
  guarded c
    (let (e, r) := JSON.get id (fst (storageEngine c)) in
     (with_engine c (e, snd (storageEngine c)), Done r)).

Definition find (rx : regexp) (query : object) (c : collection)
  : collection * attempt (list loc) :=
  guarded c (c, of_outcome (JSON.find rx query (fst (storageEngine c)))).

Definition insert (now fresh : string) (d : object) (c : collection)
  : collection * attempt loc :=
  guarded c
    (let (s, l) := JSON.insert now fresh d (storageEngine c) in
     (with_engine c s, Done l)).

Definition update (now : string) (id : value) (d : object) (c : collection)
  : collection * attempt loc :=
  guarded c
    (let (s, r) := JSON.update now id d (storageEngine c) in
     (with_engine c s, of_outcome r)).

Definition delete (now : string) (id : value) (c : collection)
  : collection * attempt bool :=
  guarded c
    (let (s, r) := JSON.delete now id (storageEngine c) in
     (with_engine c s, of_outcome r)).

(** [createIndex] and [dropIndex] return [undefined]. *)
Definition createIndex (field : string) (c : collection) : collection * attempt unit :=
  guarded c
    (with_engine c (JSON.createIndex field (fst (storageEngine c)), snd (storageEngine c)),
     Done tt).

Definition dropIndex (field : string) (c : collection) : collection * attempt unit :=
  guarded c
    (with_engine c (JSON.dropIndex field (fst (storageEngine c)), snd (storageEngine c)),
     Done tt).

Definition compact (c : collection) : collection * attempt bool :=
  guarded c
    (let (s, b) := JSON.compact (storageEngine c) in (with_engine c s, Done b)).

Definition backup (c : collection) : collection * attempt (option JSON.backup_files) :=
  guarded c (c, Done (JSON.backup (storageEngine c))).

Definition restore (file : option (list object)) (c : collection)
  : collection * attempt bool :=
  guarded c
    (let (s, b) := JSON.restore file (storageEngine c) in (with_engine c s, Done b)).


(** The records of the collection, as the engine holds them. *)
Definition records (c : collection) : list object :=
  JSON.records (fst (storageEngine c)).

End Collection.

(** ** QueryBuilder *)

(** [arr.slice(start, end)]; [None] is an [end] left out. *)
Definition slice {A : Type} (l : list A) (start : Z) (end_ : option Z) : list A :=
  let len := Z.of_nat (length l) in
  let clamp := fun i : Z => if i <? 0 then Z.max (len + i) 0 else Z.min i len in
  let k := clamp start in
  let final := match end_ with
               | None => len
               | Some e => clamp e
               end in
  firstn (Z.to_nat (final - k)) (skipn (Z.to_nat k) l).

(** The integer an argument of [slice] is read as: [NaN] is 0. *)
Definition to_integer (v : value) : Z :=
  match ToNumber v with
  | Some n => n
  | None => 0
  end.

(** [arr.sort(compare)]. The sort of an array is stable; this is insertion
    sort, and with a comparator that is consistent (a total preorder on the
    elements) it is the order every stable sort gives. [x] goes in front of
    the elements it does not compare greater than. *)
Fixpoint insert_sorted {A : Type} (compare : A -> A -> Z) (x : A) (l : list A) : list A :=
  match l with
  | [] => [x]
  | y :: rest =>
      if compare x y <=? 0 then x :: y :: rest else y :: insert_sorted compare x rest
  end.

Definition array_sort {A : Type} (compare : A -> A -> Z) (l : list A) : list A :=
  fold_right (insert_sorted compare) [] l.

Module QueryBuilder.

Record options : Type := {
  limit : value;
  skip : value;
  sort : option (string * value);     (* null, or { field, direction } *)
  fields : option (list value);       (* null, or the array of fields *)
  include : list value
}.

Record builder : Type := {
  query : object;
  opts : options
}.

(** [new QueryBuilder(collection)]; the collection is an argument of the
    methods that read it. *)
Definition create : builder :=
  {| query := [];
     opts := {| limit := VNull; skip := VNull; sort := None; fields := None;
                include := [] |} |}.

Definition with_opts (b : builder) (o : options) : builder :=
  {| query := query b; opts := o |}.

(** [where(query)] *)
Definition where_ (q : object) (b : builder) : builder :=
  {| query := spread (query b) q; opts := opts b |}.

(** [limit(value)] *)
Definition set_limit (v : value) (b : builder) : builder :=
  with_opts b {| limit := v; skip := skip (opts b); sort := sort (opts b);
                 fields := fields (opts b); include := include (opts b) |}.



(** [Array.isArray(x) ? x : [x]] *)
Definition as_array (v : value) : list value :=
  match v with
  | VArr l => l
  | _ => [v]
  end.


(** [include(relations)] *)
Definition set_include (v : value) (b : builder) : builder :=
  with_opts b {| limit := limit (opts b); skip := skip (opts b); sort := sort (opts b);
                 fields := fields (opts b); include := as_array v |}.

(** The comparator of [execute]. *)
Definition compare_by (field : string) (direction : value) (a b : object) : Z :=
  if js_lt (prop a field) (prop b field)
  then (if strict_eq direction (VStr "asc") then -1 else 1)
  else if js_gt (prop a field) (prop b field)
  then (if strict_eq direction (VStr "asc") then 1 else -1)
  else 0.

(** The projection of one record on the fields; a field is read as a
    property key. *)
Definition project (fs : list value) (record : object) : object :=
  fold_left
    (fun projected f =>
       let key := ToString f in
       if negb (strict_eq (prop record key) VUndef)
       then set_prop projected key (prop record key)
       else projected)
    fs [].

(** [execute()], from the array [find] returned on. *)
Definition arrange (o : options) (results : list object) : list object :=
  let r1 := match sort o with
            | Some (field, direction) => array_sort (compare_by field direction) results
            | None => results
            end in
  let r2 := if truthy (skip o) then slice r1 (to_integer (skip o)) None else r1 in
  let r3 := if truthy (limit o) then slice r2 0 (Some (to_integer (limit o))) else r2 in
  match fields o with
  | Some fs => map (project fs) r3
  | None => r3
  end.

(** What [collection.find(this.query)] returns, the records read. *)
Definition found (rx : regexp) (b : builder) (c : Collection.collection)
  : Collection.attempt (list object) :=
  match snd (Collection.find rx (query b) c) with
  | Collection.Done ls =>
      Collection.Done (map (deref (JSON.objects (fst (Collection.storageEngine c)))) ls)
  | Collection.Failed f => Collection.Failed f
  end.

(** [execute()] *)
Definition execute (rx : regexp) (b : builder) (c : Collection.collection)
  : Collection.attempt (list object) :=
  match found rx b c with
  | Collection.Done results => Collection.Done (arrange (opts b) results)
  | Collection.Failed f => Collection.Failed f
  end.

(** [first()]: the builder keeps the limit 1. [None] is [null]. *)
Definition first (rx : regexp) (b : builder) (c : Collection.collection)
  : builder * Collection.attempt (option object) :=
  let b1 := set_limit (VNum 1) b in
  (b1, match execute rx b1 c with
       | Collection.Done results => Collection.Done (hd_error results)
       | Collection.Failed f => Collection.Failed f
       end).


End QueryBuilder.





Definition projected (o : QueryBuilder.options) (results : list object) : list object :=
  match QueryBuilder.fields o with
  | Some fs => map (QueryBuilder.project fs) results
  | None => results
  end.



(** ** A collection for the examples of the upper layers *)

Module Library.
Definition book (id : string) (pages : Z) : object :=
  [("id", VStr id); ("pages", VNum pages)].


(** The books as stored. *)
Definition a : object := Scenario.stored (book "a" 300) "t1".
Definition b : object := Scenario.stored (book "b" 100) "t2".
Definition c : object := Scenario.stored (book "c" 200) "t3".
End Library.

(** ** SessionManager

    The sessions are the values of the [Map] and are written in place
    there, as the source writes the session object it holds in the [Map].
    Every reading of the clock ([Date.now()]) and the [uid(32)] of
    [createSession] are inputs, in the order of the readings. The cookie
    name, the secret and the timer of the constructor are not read by the
    operations on the sessions and are left out of [manager]. *)

Module SessionManager.

Record session : Type := {
  id : string;
  data : object;
  createdAt : Z;
  lastAccessed : Z;
  expiresAt : Z
}.

Record manager : Type := {
  sessions : jsmap session;
  maxAge : Z
}.

(** [options.maxAge || 86400000] of the constructor, the option being a
    number or absent. *)
Definition maxAge_of (option_maxAge : value) : Z :=
  match option_maxAge with
  | VNum n => if n =? 0 then 86400000 else n
  | _ => 86400000
  end.

(** [new SessionManager({ maxAge })] *)
Definition create (option_maxAge : value) : manager :=
  {| sessions := []; maxAge := maxAge_of option_maxAge |}.

Definition with_sessions (m : manager) (ss : jsmap session) : manager :=
  {| sessions := ss; maxAge := maxAge m |}.

(** [createSession(data)] *)
Definition createSession (t1 t2 t3 : Z) (fresh : string) (d : object) (m : manager)
  : manager * string :=
  let session := {| id := fresh; data := d; createdAt := t1; lastAccessed := t2;
                    expiresAt := t3 + maxAge m |} in
  (with_sessions m (map_set (sessions m) (VStr fresh) session), fresh).

Definition touch (t : Z) (s : session) : session :=
  {| id := id s; data := data s; createdAt := createdAt s; lastAccessed := t;
     expiresAt := expiresAt s |}.

(** [getSession(sessionId)]; [None] is [null]. *)
Definition getSession (t1 t2 : Z) (sessionId : value) (m : manager)
  : manager * option session :=
  match map_get (sessions m) sessionId with
  | None => (m, None)
  | Some session =>
      if expiresAt session <? t1
      then (with_sessions m (map_delete (sessions m) sessionId), None)
      else (with_sessions m (map_set (sessions m) sessionId (touch t2 session)),
            Some (touch t2 session))
  end.

Definition with_data (s : session) (d : object) : session :=
  {| id := id s; data := d; createdAt := createdAt s; lastAccessed := lastAccessed s;
     expiresAt := expiresAt s |}.

(** [updateSession(sessionId, data)] *)
Definition updateSession (t1 t2 : Z) (sessionId : value) (d : object) (m : manager)
  : manager * bool :=
  match getSession t1 t2 sessionId m with
  | (m1, None) => (m1, false)
  | (m1, Some session) =>
      (with_sessions m1
         (map_set (sessions m1) sessionId (with_data session (spread (data session) d))),
       true)
  end.

(** [destroySession(sessionId)]: what [Map.delete] returns. *)
Definition destroySession (sessionId : value) (m : manager) : manager * bool :=
  (with_sessions m (map_delete (sessions m) sessionId),
   match map_get (sessions m) sessionId with
   | Some _ => true
   | None => false
   end).

(** [cleanup()]: the loop over the entries of the [Map], which deletes the
    entry it is at. *)
Definition cleanup (now : Z) (m : manager) : manager :=
  with_sessions m
    (fold_left
       (fun (ss : jsmap session) (entry : value * session) =>
          if expiresAt (snd entry) <? now then map_delete ss (fst entry) else ss)
       (sessions m) (sessions m)).

(** The operations on the sessions there are, [createSession] apart. *)
Inductive action : Type :=
| Get (t1 t2 : Z) (sessionId : value)
| Update (t1 t2 : Z) (sessionId : value) (d : object)
| Destroy (sessionId : value)
| Cleanup (now : Z).

Definition step (a : action) (m : manager) : manager :=
  match a with
  | Get t1 t2 sid => fst (getSession t1 t2 sid m)
  | Update t1 t2 sid d => fst (updateSession t1 t2 sid d m)
  | Destroy sid => fst (destroySession sid m)
  | Cleanup now => cleanup now m
  end.

Definition run (acts : list action) (m : manager) : manager :=
  fold_left (fun m' a => step a m') acts m.

(** The [Map] holds every session once, under its id. *)
Definition well_formed (m : manager) : Prop :=
  map_ok (sessions m)
  /\ forall k s, In (k, s) (sessions m) -> k = VStr (id s).

End SessionManager.

(** ** Metrics *)

Module Metrics.

(** [data.responseTimes]: the array of the durations, or the number that
    [increment('responseTimes')] puts in its place ([None] is [NaN]). *)
Inductive times : Type :=
| Durations (l : list value)
| Number (n : option Z).

Record data : Type := {
  requests : Z;
  errors : Z;
  responseTimes : times;
  dbOperations : Z;
  activeConnections : Z;
  start : Z
}.

(** The object at the load of the module; [start] is [Date.now()]. *)
Definition initial (now : Z) : data :=
  {| requests := 0; errors := 0; responseTimes := Durations []; dbOperations := 0;
     activeConnections := 0; start := now |}.

Definition with_times (d : data) (t : times) : data :=
  {| requests := requests d; errors := errors d; responseTimes := t;
     dbOperations := dbOperations d; activeConnections := activeConnections d;
     start := start d |}.



(** What [timing] comes to: the new data, or the TypeError of calling
    [push] on a number. *)
Inductive timed : Type :=
| Timed (d : data)
| TypeError.

(** [timing(metric, duration)] *)
Definition timing (enabled : bool) (metric : string) (duration : value) (d : data)
  : timed :=
  if enabled && String.eqb metric "responseTime" then
    match responseTimes d with
    | Durations l =>
        let l1 := (l ++ [duration])%list in
        Timed (with_times d (Durations (if (100 <? Z.of_nat (length l1)) then tl l1 else l1)))
    | Number _ => TypeError
    end
  else Timed d.


(** The calls [timing('responseTime', x)] for the durations of a list, one
    after the other. *)
Definition timings (enabled : bool) (ds : list value) (d : data) : timed :=
  fold_left
    (fun (r : timed) (x : value) =>
       match r with
       | Timed d' => timing enabled "responseTime" x d'
       | TypeError => TypeError
       end)
    ds (Timed d).

End Metrics.

Open Scope list_scope.

(** ** Facts on [===] and on [Map]s *)

Lemma strict_eq_true (a b : value) : strict_eq a b = true -> a = b.
Proof.
  destruct a, b; simpl; try discriminate; intros H; try reflexivity.
  - apply Bool.eqb_prop in H. now subst.
  - apply Z.eqb_eq in H. now subst.
  - apply String.eqb_eq in H. now subst.
Qed.

Lemma strict_eq_sym (a b : value) : strict_eq a b = strict_eq b a.
Proof.
  destruct a, b; simpl; try reflexivity.
  - destruct b0, b; reflexivity.
  - apply Z.eqb_sym.
  - apply String.eqb_sym.
Qed.

Lemma strict_eq_refl (a : value) : is_primitive a = true -> strict_eq a a = true.
Proof.
  destruct a; simpl; try discriminate; intros _; try reflexivity.
  - apply Bool.eqb_reflx.
  - apply Z.eqb_refl.
  - apply String.eqb_refl.
Qed.

Section MapFacts.
Context {A : Type}.
Implicit Types (m : jsmap A) (k : value).

Lemma map_get_absent m k :
  (forall k', In k' (map_keys m) -> strict_eq k' k = false) -> map_get m k = None.
Proof.
  induction m as [|[k0 x0] m IH]; simpl; intros H; [reflexivity|].
  rewrite (H k0) by now left. apply IH. intros k' Hk'. apply H. now right.
Qed.

Lemma map_get_none_keys m k :
  map_get m k = None -> forall k', In k' (map_keys m) -> strict_eq k' k = false.
Proof.
  induction m as [|[k0 x0] m IH]; simpl; intros H k' Hin; [contradiction|].
  destruct (strict_eq k0 k) eqn:E; [discriminate|].
  destruct Hin as [<-|Hin]; [assumption|]. now apply IH.
Qed.

Lemma map_set_absent m k x : map_get m k = None -> map_set m k x = (m ++ [(k, x)])%list.
Proof.
  induction m as [|[k0 x0] m IH]; simpl; intros H; [reflexivity|].
  destruct (strict_eq k0 k); [discriminate|]. now rewrite IH.
Qed.

Lemma map_delete_keys m k k' : In k' (map_keys (map_delete m k)) -> In k' (map_keys m).
Proof.
  induction m as [|[k0 x0] m IH]; simpl; [tauto|].
  destruct (strict_eq k0 k); simpl; [now right|]. intros [H|H]; [now left|right; now apply IH].
Qed.

Lemma map_delete_ok m k : map_ok m -> map_ok (map_delete m k).
Proof.
  unfold map_ok. induction m as [|[k0 x0] m IH]; simpl; [tauto|].
  intros [H1 H2]. destruct (strict_eq k0 k); simpl; [assumption|].
  split; [|now apply IH]. intros k' Hk'. apply H1. eapply map_delete_keys; eassumption.
Qed.

Lemma map_get_delete_same m k : map_ok m -> map_get (map_delete m k) k = None.
Proof.
  unfold map_ok. induction m as [|[k0 x0] m IH]; simpl; [reflexivity|].
  intros [H1 H2]. destruct (strict_eq k0 k) eqn:E; simpl.
  - apply strict_eq_true in E. subst k0. now apply map_get_absent.
  - rewrite E. now apply IH.
Qed.

Lemma map_delete_length m k x :
  map_get m k = Some x -> S (length (map_delete m k)) = length m.
Proof.
  induction m as [|[k0 x0] m IH]; simpl; [discriminate|].
  destruct (strict_eq k0 k); simpl; [reflexivity|]. intros H. now rewrite IH.
Qed.

Lemma map_set_length m k x : (length (map_set m k x) <= S (length m))%nat.
Proof.
  induction m as [|[k0 x0] m IH]; simpl; [lia|].
  destruct (strict_eq k0 k); simpl; lia.
Qed.

Lemma map_set_keys m k x k' :
  In k' (map_keys (map_set m k x)) -> k' = k \/ In k' (map_keys m).
Proof.
  induction m as [|[k0 x0] m IH]; simpl.
  - intros [H|[]]; now left.
  - destruct (strict_eq k0 k); simpl; intros [H|H]; auto.
    destruct (IH H); auto.
Qed.

Lemma map_set_ok m k x : map_ok m -> map_ok (map_set m k x).
Proof.
  unfold map_ok. induction m as [|[k0 x0] m IH]; simpl.
  - intros _. split; [intros k' []|exact I].
  - intros [H1 H2]. destruct (strict_eq k0 k) eqn:E; simpl.
    + split; assumption.
    + split; [|now apply IH]. intros k' Hk'.
      destruct (map_set_keys _ _ _ _ Hk') as [->|Hin]; [|now apply H1].
      now rewrite strict_eq_sym.
Qed.

Lemma map_get_set_same m k x : is_primitive k = true -> map_get (map_set m k x) k = Some x.
Proof.
  intros Hk. induction m as [|[k0 x0] m IH]; simpl.
  - now rewrite strict_eq_refl.
  - destruct (strict_eq k0 k) eqn:E; simpl; rewrite E; [reflexivity|assumption].
Qed.

Lemma map_get_set_other m k k' x :
  strict_eq k k' = false -> map_get (map_set m k x) k' = map_get m k'.
Proof.
  intros Hne. induction m as [|[k0 x0] m IH]; simpl.
  - now rewrite Hne.
  - destruct (strict_eq k0 k) eqn:E; simpl.
    + apply strict_eq_true in E. subst k0. now rewrite Hne.
    + now rewrite IH.
Qed.

Lemma map_get_delete_other m k k' :
  strict_eq k k' = false -> map_get (map_delete m k) k' = map_get m k'.
Proof.
  intros Hne. induction m as [|[k0 x0] m IH]; simpl; [reflexivity|].
  destruct (strict_eq k0 k) eqn:E; simpl.
  - apply strict_eq_true in E. subst k0. now rewrite Hne.
  - now rewrite IH.
Qed.

Lemma map_get_some_primitive m k x : map_get m k = Some x -> is_primitive k = true.
Proof.
  induction m as [|[k0 x0] m IH]; simpl; [discriminate|].
  destruct (strict_eq k0 k) eqn:E; [|assumption].
  intros _. destruct k0, k; simpl in *; try discriminate; reflexivity.
Qed.
End MapFacts.

(** ** The LRU cache *)

Lemma distinct_before (l1 l2 : list value) (k : value) :
  distinct (l1 ++ k :: l2) -> forall k', In k' l1 -> strict_eq k' k = false.
Proof.
  induction l1 as [|k0 l1 IH]; simpl; [tauto|].
  intros [H1 H2] k' [<-|Hin].
  - rewrite strict_eq_sym. apply H1. apply in_or_app. right. now left.
  - now apply IH.
Qed.

Section CacheFacts.
Context {A : Type}.
Implicit Types (c : jsmap A) (id : value).

Lemma setToCache_bound (N : Z) c id (x : A) :
  1 <= N -> Z.of_nat (length c) <= N -> Z.of_nat (length (setToCache N c id x)) <= N.
Proof.
  intros HN Hc. unfold setToCache.
  destruct (Z.of_nat (length c) >=? N) eqn:E.
  - destruct c as [|e rest].
    + simpl. lia.
    + pose proof (map_set_length rest id x). simpl in Hc. lia.
  - rewrite Z.geb_leb in E. apply Z.leb_gt in E.
    pose proof (map_set_length c id x). lia.
Qed.

Lemma setToCache_ok (N : Z) c id (x : A) : map_ok c -> map_ok (setToCache N c id x).
Proof.
  intros H. unfold setToCache. apply map_set_ok.
  destruct (Z.of_nat (length c) >=? N); [|assumption].
  destruct c as [|e rest]; [assumption|]. destruct H as [_ H]. exact H.
Qed.

Lemma getFromCache_hit c id (x : A) :
  map_ok c -> map_get c id = Some x ->
  getFromCache c id = ((map_delete c id ++ [(id, x)])%list, Some x).
Proof.
  intros Hok H. unfold getFromCache. rewrite H.
  now rewrite map_set_absent by now apply map_get_delete_same.
Qed.

Lemma getFromCache_miss c id : map_get c id = None -> getFromCache c id = (c, None).
Proof. intros H. unfold getFromCache. now rewrite H. Qed.

Lemma getFromCache_length c id : map_ok c -> length (fst (getFromCache c id)) = length c.
Proof.
  intros Hok. destruct (map_get c id) as [x|] eqn:E.
  - rewrite (getFromCache_hit _ _ _ Hok E). simpl. rewrite length_app. simpl.
    pose proof (map_delete_length _ _ _ E). lia.
  - now rewrite getFromCache_miss.
Qed.

Lemma getFromCache_ok c id : map_ok c -> map_ok (fst (getFromCache c id)).
Proof.
  intros Hok. unfold getFromCache. destruct (map_get c id); simpl; [|assumption].
  apply map_set_ok. now apply map_delete_ok.
Qed.

(** Filling below capacity appends, in order. *)
Lemma fill_below_capacity (N : Z) (ents c : jsmap A) :
  map_ok (c ++ ents) -> Z.of_nat (length (c ++ ents)) <= N ->
  fold_left (fun c' kx => setToCache N c' (fst kx) (snd kx)) ents c = (c ++ ents)%list.
Proof.
  revert c. induction ents as [|[k x] ents IH]; intros c Hok Hlen; simpl.
  - now rewrite app_nil_r.
  - replace (c ++ (k, x) :: ents)%list with ((c ++ [(k, x)]) ++ ents)%list in *
      by now rewrite <- app_assoc.
    rewrite <- IH; [|assumption|assumption]. f_equal.
    unfold setToCache.
    assert (Hlt : (Z.of_nat (length c) >=? N) = false).
    { rewrite Z.geb_leb. apply Z.leb_gt.
      rewrite !length_app in Hlen. simpl in Hlen. lia. }
    rewrite Hlt. apply map_set_absent. apply map_get_absent.
    intros k' Hk'. unfold map_ok, map_keys in Hok. rewrite !map_app in Hok. simpl in Hok.
    rewrite <- app_assoc in Hok. simpl in Hok.
    now apply (distinct_before _ _ _ Hok).
Qed.
End CacheFacts.

(** C8, as the code has it. LRU cache behaviour, for a capacity [N] of at
    least one entry:
    the cache never holds more than [N] entries, whether written
    ([setToCache]) or read ([getFromCache]); setting [N + 1] different ids
    into the empty cache evicts exactly the first of them, the least
    recently used, and no other; a [getFromCache] hit makes the entry the
    most recently used one, the last in the eviction order, and, the
    capacity being two at least, the next eviction, by a [setToCache] of
    another id, leaves it in the cache. *)
Theorem lru_cache_behaviour (A : Type) (N : Z) (HN : 1 <= N) :
  (forall (c : jsmap A) id x,
      Z.of_nat (length c) <= N -> Z.of_nat (length (setToCache N c id x)) <= N)
  /\ (forall (c : jsmap A) id,
        map_ok c -> length (fst (getFromCache c id)) = length c)
  /\ (forall ents : jsmap A,
        Z.of_nat (length ents) = N + 1 -> distinct (map_keys ents) ->
        fold_left (fun c kx => setToCache N c (fst kx) (snd kx)) ents [] = tl ents)
  /\ (forall (c : jsmap A) id x,
        map_ok c -> map_get c id = Some x ->
        getFromCache c id = (map_delete c id ++ [(id, x)], Some x)
        /\ forall id' y,
            strict_eq id' id = false -> 2 <= N ->
            map_get (setToCache N (fst (getFromCache c id)) id' y) id = Some x).
Proof.
  split; [|split; [|split]].
  - intros c id x. now apply setToCache_bound.
  - intros c id. apply getFromCache_length.
  - intros ents Hlen Hd.
    destruct (exists_last (l := ents)) as [pre [[k x] ->]].
    { intros ->. simpl in Hlen. lia. }
    rewrite length_app in Hlen. simpl in Hlen.
    rewrite fold_left_app. simpl.
    rewrite (fill_below_capacity N pre []); simpl.
    + unfold setToCache.
      replace (Z.of_nat (length pre) >=? N) with true
        by (symmetry; rewrite Z.geb_leb; apply Z.leb_le; lia).
      destruct pre as [|e pre]; [simpl in Hlen; lia|]. simpl.
      apply map_set_absent. apply map_get_absent. intros k' Hk'.
      unfold map_keys in Hd. simpl in Hd. destruct Hd as [_ Hd].
      rewrite map_app in Hd. simpl in Hd. now apply (distinct_before _ _ _ Hd).
    + unfold map_ok, map_keys in *. rewrite map_app in Hd. simpl in Hd.
      clear - Hd. induction (map fst pre) as [|k0 l IH]; simpl in *; [exact I|].
      destruct Hd as [H1 H2]. split; [|now apply IH].
      intros k' Hk'. apply H1. apply in_or_app. now left.
    + lia.
  - intros c id x Hok Hget. split; [now apply getFromCache_hit|].
    intros id' y Hne HN2. rewrite (getFromCache_hit _ _ _ Hok Hget). simpl.
    assert (Hid : is_primitive id = true) by (eapply map_get_some_primitive; eassumption).
    assert (Hin : map_get (map_delete c id ++ [(id, x)]) id = Some x).
    { rewrite <- map_set_absent by now apply map_get_delete_same.
      now apply map_get_set_same. }
    unfold setToCache.
    destruct (Z.of_nat (length (map_delete c id ++ [(id, x)])) >=? N) eqn:Eg.
    + rewrite Z.geb_leb in Eg. apply Z.leb_le in Eg.
      rewrite length_app in Eg. simpl in Eg.
      destruct (map_delete c id) as [|[k0 x0] rest] eqn:E; [simpl in Eg; lia|].
      rewrite map_get_set_other by assumption.
      simpl in Hin. destruct (strict_eq k0 id) eqn:E0; [|exact Hin].
      exfalso. pose proof (map_get_delete_same c id Hok) as Hn. rewrite E in Hn.
      simpl in Hn. rewrite E0 in Hn. discriminate.
    + now rewrite map_get_set_other.
Qed.

(** C8 at capacity one: the entry that [getFromCache] has just returned
    is the only one, hence the oldest, and the next [setToCache] of another
    id evicts it. *)
Lemma single_entry_cache_evicts_the_touched_id :
  let c := setToCache 1 [] (VStr "a") 1%nat in
  getFromCache c (VStr "a") = (c, Some 1%nat)
  /\ setToCache 1 (fst (getFromCache c (VStr "a"))) (VStr "b") 2%nat = [(VStr "b", 2%nat)]
  /\ map_get (setToCache 1 (fst (getFromCache c (VStr "a"))) (VStr "b") 2%nat) (VStr "a")
     = None.
Proof. repeat split; reflexivity. Qed.

(** ** The operations at concrete inputs *)

(** C1. Crash recovery at [insert({id:"a",x:1}); insert({id:"b",x:1})] on a
    fresh file-backed collection. Run without interruption the collection
    holds the two records. Killed in each operation after the WAL append
    and re-initialized, it holds the second record only: [init] unlinks the
    WAL it replayed without saving the snapshot. Killed in the second
    operation only, it holds the first record twice: the WAL line of the
    completed first insert is still in the file and is replayed onto the
    snapshot that has the record. *)
Theorem crash_recovery_at_two_inserts :
  JSON.live (fst (JSON.run Scenario.two_inserts Scenario.fresh))
  = [Scenario.stored Scenario.a1 "t1"; Scenario.stored Scenario.b1 "t2"]
  /\ JSON.live (fst (JSON.run_killed "t9" Scenario.two_inserts Scenario.fresh))
     = [Scenario.stored Scenario.b1 "t2"]
  /\ JSON.live (fst (JSON.recover "t9"
                       (JSON.killed_after_wal (JSON.Insert "t2" "u2" Scenario.b1)
                          (JSON.run [JSON.Insert "t1" "u1" Scenario.a1] Scenario.fresh))))
     = [Scenario.stored Scenario.a1 "t1"; Scenario.stored Scenario.a1 "t1";
        Scenario.stored Scenario.b1 "t2"]
  /\ JSON.live (fst (JSON.run_killed "t9" Scenario.two_inserts Scenario.fresh))
     <> JSON.live (fst (JSON.run Scenario.two_inserts Scenario.fresh)).
Proof. repeat split; try reflexivity. vm_compute. discriminate. Qed.

(** C5 at [update("a", { id: "b" })]: on the record inserted with id ["a"]
    returns, and stores, a record whose id is ["b"], in the file-backed and
    in the in-memory engine: the spread [{ ...existing, ...data }] lets the
    payload overwrite [id]. *)
Lemma update_overwrites_id :
  (let s := JSON.run [JSON.Insert "t1" "u1" Scenario.a1] Scenario.fresh in
   exists s' l,
     JSON.update "t2" (VStr "a") [("id", VStr "b")] s = (s', Returned l)
     /\ prop (deref (JSON.objects (fst s')) l) "id" = VStr "b"
     /\ map (fun o => prop o "id") (JSON.records (fst s')) = [VStr "b"])
  /\ (let e := fst (Memory.insert "t1" "u1" Scenario.a1 (Memory.create VUndef)) in
      exists e' l,
        Memory.update "t2" (VStr "a") [("id", VStr "b")] e = (e', Returned l)
        /\ prop (deref (Memory.objects e') l) "id" = VStr "b"
        /\ map (fun kr : value * object => (fst kr, prop (snd kr) "id")) (Memory.records e')
           = [(VStr "a", VStr "b")]).
Proof.
  split; cbv zeta; eexists; eexists; (split; [reflexivity|split; reflexivity]).
Qed.



(** ** The query filter *)

Ltac case_operator :=
  match goal with
  | |- context [if String.eqb ?op ?k then _ else _] => destruct (String.eqb op k) eqn:?
  end.

Lemma eval_operator_unrecognized rx op fv val :
  recognized op = false -> eval_operator rx op fv val = None.
Proof.
  unfold recognized, eval_operator. simpl. intros H.
  repeat (case_operator; [rewrite ?orb_true_r in H; discriminate H|]). reflexivity.
Qed.

Lemma eval_operator_recognized rx op fv val :
  recognized op = true ->
  (op = "$regex" -> rx val fv <> None) ->
  exists b, eval_operator rx op fv val = Some (Returned b).
Proof.
  unfold recognized, eval_operator, regexp_test. simpl. intros H Hrx.
  repeat (case_operator;
          [first [ eexists; reflexivity
                 | match goal with
                   | E : String.eqb op "$regex" = true |- _ =>
                       apply String.eqb_eq in E; specialize (Hrx E);
                       destruct (rx val fv); [eexists; reflexivity|congruence]
                   end ]|]).
  repeat match goal with E : String.eqb _ _ = false |- _ => rewrite E in H; clear E end.
  discriminate H.
Qed.

Section FilterM.
Context {A : Type} (p : A -> outcome bool).

Lemma filterM_spec (P : A -> Prop) (l : list A) :
  (forall x, In x l -> exists b, p x = Returned b /\ (b = true <-> P x)) ->
  exists r, filterM p l = Returned r /\ forall x, In x r <-> In x l /\ P x.
Proof.
  induction l as [|a l IH]; intros H; simpl.
  - exists []. split; [reflexivity|]. simpl. tauto.
  - destruct (H a (or_introl eq_refl)) as [b [Hb HP]]. rewrite Hb. simpl.
    destruct IH as [r [Hr Hin]]; [intros x Hx; apply H; now right|].
    rewrite Hr. simpl. eexists. split; [reflexivity|].
    intros x. destruct b; simpl; rewrite Hin; split.
    + intros [<-|[H1 H2]]; [split; [now left|now apply HP]|split; [now right|assumption]].
    + intros [[<-|H1] H2]; [now left|right; now split].
    + intros [H1 H2]. split; [now right|assumption].
    + intros [[<-|H1] H2]; [|now split]. apply HP in H2. discriminate.
Qed.

Lemma filterM_const (b : bool) (l : list A) :
  (forall x, In x l -> p x = Returned b) ->
  filterM p l = Returned (if b then l else []).
Proof.
  induction l as [|a l IH]; intros H; simpl.
  - now destruct b.
  - rewrite (H a) by now left. simpl. rewrite IH by (intros x Hx; apply H; now right).
    simpl. now destruct b.
Qed.
End FilterM.

Lemma json_operators_unrecognized rx fv ops :
  (forall op val, In (op, val) ops -> recognized op = false) ->
  json_operators rx fv ops = Returned true.
Proof.
  induction ops as [|[op val] ops IH]; intros H; simpl; [reflexivity|].
  rewrite eval_operator_unrecognized by (eapply H; now left).
  apply IH. intros op' val' Hin. eapply H. right. eassumption.
Qed.

Lemma memory_operators_unrecognized rx fv ops :
  ops <> [] -> (forall op val, In (op, val) ops -> recognized op = false) ->
  memory_operators rx fv ops false = Returned false.
Proof.
  destruct ops as [|[op val] ops]; intros Hne H; [congruence|]. simpl.
  rewrite eval_operator_unrecognized by (eapply H; now left). reflexivity.
Qed.

(** C6, as the code has it. A filter [{ field: ops }] whose operator
    object [ops] has unrecognized keys only makes no [find] fail: the
    file-backed engine skips every such key and returns all the live
    records; the in-memory engine, the object not being empty, leaves its
    match flag false and returns no record. *)
Theorem unrecognized_operators_do_not_fail (rx : regexp) (field : string)
    (ops : list (string * value)) :
  startsWith_underscore field = false ->
  ops <> [] ->
  (forall op val, In (op, val) ops -> recognized op = false) ->
  (forall e : JSON.engine,
      JSON.find rx [(field, VObj ops)] e
      = Returned (filter (fun l => negb (deleted (deref (JSON.objects e) l))) (JSON.data e)))
  /\ (forall e : Memory.engine, Memory.find rx [(field, VObj ops)] e = Returned []).
Proof.
  intros Hf Hne Hops. split; intros e.
  - unfold JSON.find. simpl. rewrite Hf.
    rewrite (filterM_const _ true); [reflexivity|].
    intros l _. unfold json_field_filter. simpl.
    now apply json_operators_unrecognized.
  - unfold Memory.find. rewrite (filterM_const _ false); [reflexivity|].
    intros l _. destruct (deleted _); [reflexivity|].
    simpl. rewrite Hf. simpl.
    now rewrite memory_operators_unrecognized.
Qed.

(** C6 at [{ age: { $foo: 1 } }]: [find] returns, with the stored record
    in the file-backed engine and without it in the in-memory one. *)
Lemma find_with_unrecognized_operator_returns :
  JSON.find literal_regexp [("age", VObj [("$foo", VNum 1)])] Scenario.people
  = Returned [0%nat]
  /\ Memory.find literal_regexp [("age", VObj [("$foo", VNum 1)])] Scenario.memory_people
     = Returned [].
Proof. split; reflexivity. Qed.

Lemma unrecognized_operators_witness :
  JSON.find literal_regexp [("age", VObj [("$foo", VNum 1)])] Scenario.people
  = Returned [0%nat].
Proof.
  apply (proj1 (unrecognized_operators_do_not_fail literal_regexp "age"
                  [("$foo", VNum 1)] eq_refl ltac:(discriminate)
                  ltac:(intros op val [E|[]]; injection E as <- <-; reflexivity))).
Defined.

Section FilterContract.
Variable rx : regexp.

Lemma well_formed_tail fq q : well_formed (fq :: q) -> well_formed q.
Proof. intros H f qv op val Hin. apply (H f qv op val). now right. Qed.

Lemma patterns_accepted_tail fq q : patterns_accepted rx (fq :: q) -> patterns_accepted rx q.
Proof. intros H f qv val Hin. apply (H f qv val). now right. Qed.

Lemma single_operators_tail fq q : single_operators (fq :: q) -> single_operators q.
Proof. intros H f qv Hin. apply (H f qv). now right. Qed.

Lemma memory_operators_spec record field ops om :
  (forall op val, In (op, val) ops -> recognized op = true) ->
  (forall val, In ("$regex", val) ops -> forall s, rx val s <> None) ->
  exists b, memory_operators rx (prop record field) ops om = Returned b
            /\ (b = true <-> Forall (operator_holds rx record field) ops).
Proof.
  revert om. induction ops as [|[op val] ops IH]; intros om Hrec Hrx; simpl.
  - exists true. split; [reflexivity|]. split; [constructor|reflexivity].
  - destruct (eval_operator_recognized rx op (prop record field) val) as [b0 Hb0].
    { eapply Hrec. now left. }
    { intros ->. apply Hrx. now left. }
    rewrite Hb0. simpl. destruct b0.
    + destruct (IH true) as [b [Hb Hiff]].
      { intros op' val' Hin. eapply Hrec. right. eassumption. }
      { intros val' Hin. apply Hrx. now right. }
      exists b. split; [assumption|]. rewrite Hiff. split.
      * intros HF. constructor; assumption.
      * intros HF. now inversion HF.
    + exists false. split; [reflexivity|]. split; [discriminate|].
      intros HF. inversion HF as [|? ? Hhd _]. unfold operator_holds in Hhd.
      simpl in Hhd. congruence.
Qed.

Lemma memory_fields_spec record q m :
  well_formed q -> patterns_accepted rx q ->
  exists b, memory_fields rx record q m = Returned b
            /\ (b = true <-> m = true /\ satisfies rx record q).
Proof.
  revert m. induction q as [|[field qv] q IH]; intros m Hwf Hrx; simpl.
  - exists m. split; [reflexivity|]. split; [intros ->; split; [reflexivity|constructor]|tauto].
  - pose proof (well_formed_tail _ _ Hwf) as Hwf'.
    pose proof (patterns_accepted_tail _ _ Hrx) as Hrx'.
    destruct (startsWith_underscore field) eqn:Hu.
    + destruct (IH m Hwf' Hrx') as [b [Hb Hiff]]. exists b. split; [assumption|].
      rewrite Hiff. unfold satisfies. split.
      * intros [H1 H2]. split; [assumption|]. constructor; [simpl; congruence|assumption].
      * intros [H1 H2]. split; [assumption|]. now inversion H2.
    + destruct (is_object qv) eqn:Hobj.
      * destruct (memory_operators_spec record field (entries qv) false) as [ok [Hok Hiffok]].
        { intros op val Hin. apply (Hwf field qv op val); [now left|assumption|assumption]. }
        { intros val Hin. apply (Hrx field qv val); [now left|assumption]. }
        rewrite Hok. simpl.
        destruct (IH (m && ok)%bool Hwf' Hrx') as [b [Hb Hiff]].
        exists b. split; [assumption|]. rewrite Hiff, andb_true_iff, Hiffok.
        unfold satisfies. split.
        -- intros [[H1 H2] H3]. split; [assumption|]. constructor; [|assumption].
           intros _. unfold constraint_holds. simpl. now rewrite Hobj.
        -- intros [H1 H2]. inversion H2 as [|? ? Hhd Htl].
           split; [split; [assumption|]|assumption].
           specialize (Hhd Hu). unfold constraint_holds in Hhd. simpl in Hhd.
           now rewrite Hobj in Hhd.
      * destruct (strict_eq (prop record field) qv) eqn:Heq; simpl.
        -- destruct (IH m Hwf' Hrx') as [b [Hb Hiff]]. exists b. split; [assumption|].
           rewrite Hiff. unfold satisfies. split.
           ++ intros [H1 H2]. split; [assumption|]. constructor; [|assumption].
              intros _. unfold constraint_holds. simpl. now rewrite Hobj.
           ++ intros [H1 H2]. split; [assumption|]. now inversion H2.
        -- exists false. split; [reflexivity|]. split; [discriminate|].
           intros [_ H2]. inversion H2 as [|? ? Hhd _]. specialize (Hhd Hu).
           unfold constraint_holds in Hhd. simpl in Hhd. rewrite Hobj in Hhd. congruence.
Qed.

Lemma json_field_filter_spec field qv item :
  (forall op val, In (op, val) (entries qv) -> recognized op = true) ->
  (forall val, In ("$regex", val) (entries qv) -> forall s, rx val s <> None) ->
  (length (entries qv) <= 1)%nat ->
  exists b, json_field_filter rx field qv item = Returned b
            /\ (b = true <-> constraint_holds rx item (field, qv)).
Proof.
  intros Hrec Hrx Hlen. unfold json_field_filter, constraint_holds. simpl.
  destruct (is_object qv).
  - destruct (entries qv) as [|[op val] [|? ?]]; simpl in *; [| |lia].
    + exists true. split; [reflexivity|]. split; [constructor|reflexivity].
    + destruct (eval_operator_recognized rx op (prop item field) val) as [b Hb].
      { eapply Hrec. now left. }
      { intros ->. apply Hrx. now left. }
      rewrite Hb. exists b. split; [reflexivity|]. split.
      * intros ->. constructor; [exact Hb|constructor].
      * intros HF. inversion HF as [|? ? Hhd _]. unfold operator_holds in Hhd.
        simpl in Hhd. congruence.
  - eexists. split; [reflexivity|]. tauto.
Qed.

Lemma json_find_fold (h : heap) q rs0 :
  well_formed q -> patterns_accepted rx q -> single_operators q ->
  exists r,
    fold_left
      (fun (results : outcome (list loc)) (fv : string * value) =>
         rs <- results ;;
         if startsWith_underscore (fst fv) then Returned rs
         else filterM (fun l => json_field_filter rx (fst fv) (snd fv) (deref h l)) rs)
      q (Returned rs0) = Returned r
    /\ forall l, In l r <-> In l rs0 /\ satisfies rx (deref h l) q.
Proof.
  revert rs0. induction q as [|[field qv] q IH]; intros rs0 Hwf Hrx Hs; simpl.
  - exists rs0. split; [reflexivity|]. intros l. split; [intros H; split; [assumption|constructor]|tauto].
  - pose proof (well_formed_tail _ _ Hwf) as Hwf'.
    pose proof (patterns_accepted_tail _ _ Hrx) as Hrx'.
    pose proof (single_operators_tail _ _ Hs) as Hs'.
    destruct (startsWith_underscore field) eqn:Hu.
    + destruct (IH rs0 Hwf' Hrx' Hs') as [r [Hr Hiff]]. exists r. split; [assumption|].
      intros l. rewrite Hiff. unfold satisfies. split.
      * intros [H1 H2]. split; [assumption|]. constructor; [simpl; congruence|assumption].
      * intros [H1 H2]. split; [assumption|]. now inversion H2.
    + destruct (filterM_spec
                  (fun l => json_field_filter rx field qv (deref h l))
                  (fun l => constraint_holds rx (deref h l) (field, qv)) rs0)
        as [r1 [Hr1 Hin1]].
      { intros l _. apply json_field_filter_spec.
        - intros op val Hin. apply (Hwf field qv op val); [now left|assumption|assumption].
        - intros val Hin. apply (Hrx field qv val); [now left|assumption].
        - apply (Hs field qv). now left. }
      rewrite Hr1. destruct (IH r1 Hwf' Hrx' Hs') as [r [Hr Hiff]].
      exists r. split; [assumption|]. intros l. rewrite Hiff, Hin1. unfold satisfies. split.
      * intros [[H1 H2] H3]. split; [assumption|]. constructor; [intros _; assumption|assumption].
      * intros [H1 H2]. inversion H2 as [|? ? Hhd Htl]. subst. auto.
Qed.
End FilterContract.

(** C2, as the code has it. For a well-formed filter whose [$regex]
    patterns [RegExp] accepts, [find] of the in-memory engine returns the
    stored records that are not deleted and satisfy every field constraint,
    an operator object being the conjunction of all its operators; so does
    [find] of the file-backed engine for the filters whose operator objects
    have one operator at most. The record [{age: 30, tags: ["a","b"]}]
    matches [{age: {$gte: 18, $lt: 65}}] in the in-memory engine, matches
    neither [{age: {$gt: 30}}] nor, [$in] being the membership of the field's
    value in the operand, [{age: {$gte: 18, $lt: 65}, tags: {$in: ["b","c"]}}]
    in both engines. *)
Theorem find_returns_the_satisfying_records :
  (forall (rx : regexp) (query : object),
      well_formed query -> patterns_accepted rx query ->
      (forall e : Memory.engine,
          exists r, Memory.find rx query e = Returned r
                    /\ forall l, In l r <->
                                 In l (map snd (Memory.data e))
                                 /\ deleted (deref (Memory.objects e) l) = false
                                 /\ satisfies rx (deref (Memory.objects e) l) query)
      /\ (single_operators query ->
          forall e : JSON.engine,
            exists r, JSON.find rx query e = Returned r
                      /\ forall l, In l r <->
                                   In l (JSON.data e)
                                   /\ deleted (deref (JSON.objects e) l) = false
                                   /\ satisfies rx (deref (JSON.objects e) l) query))
  /\ Memory.find literal_regexp [Scenario.adult] Scenario.memory_people = Returned [0%nat]
  /\ Memory.find literal_regexp Scenario.older Scenario.memory_people = Returned []
  /\ JSON.find literal_regexp Scenario.older Scenario.people = Returned []
  /\ Memory.find literal_regexp [Scenario.adult; Scenario.tagged] Scenario.memory_people
     = Returned []
  /\ JSON.find literal_regexp [Scenario.adult; Scenario.tagged] Scenario.people
     = Returned [].
Proof.
  split; [|repeat split; reflexivity].
  intros rx query Hwf Hrx. split.
  - intros e. unfold Memory.find.
    destruct (filterM_spec
                (fun l => if deleted (deref (Memory.objects e) l) then Returned false
                          else memory_fields rx (deref (Memory.objects e) l) query true)
                (fun l => deleted (deref (Memory.objects e) l) = false
                          /\ satisfies rx (deref (Memory.objects e) l) query)
                (map snd (Memory.data e))) as [r [Hr Hin]].
    { intros l _. destruct (deleted (deref (Memory.objects e) l)).
      - exists false. split; [reflexivity|]. split; [discriminate|]. intros [H _]. discriminate.
      - destruct (memory_fields_spec rx (deref (Memory.objects e) l) query true Hwf Hrx)
          as [b [Hb Hiff]].
        exists b. split; [assumption|]. rewrite Hiff. tauto. }
    exists r. split; [assumption|]. intros l. rewrite Hin. tauto.
  - intros Hs e. unfold JSON.find.
    destruct (json_find_fold rx (JSON.objects e) query
                (filter (fun l => negb (deleted (deref (JSON.objects e) l))) (JSON.data e))
                Hwf Hrx Hs) as [r [Hr Hin]].
    exists r. split; [assumption|]. intros l. rewrite Hin, filter_In, negb_true_iff. tauto.
Qed.

(** C2 at the scenario of the specification: the record
    [{age: 30, tags: ["a","b"]}] is not returned for the filter
    [{age: {$gte: 18, $lt: 65}, tags: {$in: ["b","c"]}}], by either engine. *)
Lemma scenario_record_does_not_match :
  JSON.find literal_regexp [Scenario.adult; Scenario.tagged] Scenario.people = Returned []
  /\ Memory.find literal_regexp [Scenario.adult; Scenario.tagged] Scenario.memory_people
     = Returned []
  /\ map (deref (JSON.objects Scenario.people)) (JSON.data Scenario.people)
     = [Scenario.stored Scenario.person "t1"].
Proof. repeat split; reflexivity. Qed.

(** The operator loop of the file-backed [find] returns at the first
    recognized operator: the record [{age: 70}] is returned for
    [{age: {$gte: 18, $lt: 65}}], which the in-memory engine, going through
    all the operators, does not return. *)
Lemma json_find_decides_at_the_first_operator :
  JSON.find literal_regexp [Scenario.adult] Scenario.elders = Returned [0%nat]
  /\ Memory.find literal_regexp [Scenario.adult] Scenario.memory_elders = Returned [].
Proof. split; reflexivity. Qed.

Lemma find_satisfying_records_witness :
  exists r, Memory.find literal_regexp [Scenario.adult] Scenario.memory_people = Returned r
            /\ forall l, In l r <->
                         In l (map snd (Memory.data Scenario.memory_people))
                         /\ deleted (deref (Memory.objects Scenario.memory_people) l) = false
                         /\ satisfies literal_regexp
                              (deref (Memory.objects Scenario.memory_people) l)
                              [Scenario.adult].
Proof.
  apply (proj1 find_returns_the_satisfying_records literal_regexp [Scenario.adult]).
  - intros field qv op val [E|[]] _ Hin. injection E as <- <-.
    simpl in Hin. destruct Hin as [E|[E|[]]]; injection E as <- _; reflexivity.
  - intros field qv val [E|[]] Hin. injection E as <- <-.
    simpl in Hin. destruct Hin as [E|[E|[]]]; discriminate E.
Defined.

(** ** Objects and the heap *)

Lemma prop_set_prop_same (o : object) k v : prop (set_prop o k v) k = v.
Proof.
  induction o as [|[k0 v0] o IH]; simpl.
  - now rewrite String.eqb_refl.
  - destruct (String.eqb k0 k) eqn:E; simpl; rewrite E; [reflexivity|assumption].
Qed.

Lemma prop_set_prop_other (o : object) k k' v :
  String.eqb k k' = false -> prop (set_prop o k v) k' = prop o k'.
Proof.
  intros Hne. induction o as [|[k0 v0] o IH]; simpl.
  - now rewrite Hne.
  - destruct (String.eqb k0 k) eqn:E; simpl.
    + apply String.eqb_eq in E. subst k0. now rewrite Hne.
    + now rewrite IH.
Qed.

Lemma deref_heap_set_same (h : heap) l o :
  (l < length h)%nat -> deref (heap_set h l o) l = o.
Proof.
  unfold deref. revert l. induction h as [|x h IH]; intros [|l] Hl; simpl in *; try lia.
  - reflexivity.
  - apply IH. lia.
Qed.

Lemma deref_heap_set_other (h : heap) l l' o :
  l <> l' -> deref (heap_set h l o) l' = deref h l'.
Proof.
  unfold deref. revert l l'. induction h as [|x h IH]; intros [|l] [|l'] Hne; simpl;
    try reflexivity; try congruence.
  apply IH. congruence.
Qed.

Lemma deleted_tombstone now o : deleted (JSON.tombstone now o) = true.
Proof.
  unfold deleted, JSON.tombstone.
  rewrite prop_set_prop_other by reflexivity. now rewrite prop_set_prop_same.
Qed.

Lemma id_tombstone now o : prop (JSON.tombstone now o) "id" = prop o "id".
Proof.
  unfold JSON.tombstone. now rewrite !prop_set_prop_other by reflexivity.
Qed.

Lemma findIndex_some {A : Type} (p : A -> bool) (l : list A) (d : A) i :
  findIndex p l = Some i -> (i < length l)%nat /\ p (nth i l d) = true.
Proof.
  revert i. induction l as [|x l IH]; intros i; simpl; [discriminate|].
  destruct (p x) eqn:E.
  - intros [= <-]. split; [lia|assumption].
  - destruct (findIndex p l) as [j|]; [|discriminate]. intros [= <-].
    destruct (IH j eq_refl). split; [lia|assumption].
Qed.

Lemma findIndex_none {A : Type} (p : A -> bool) (l : list A) :
  findIndex p l = None -> forall x, In x l -> p x = false.
Proof.
  induction l as [|y l IH]; simpl; [tauto|].
  destruct (p y) eqn:E; [discriminate|].
  destruct (findIndex p l); [discriminate|]. intros _ x [<-|Hin]; [assumption|now apply IH].
Qed.

Lemma array_set_same {A : Type} (l : list A) i (d : A) : array_set l i (nth i l d) = l.
Proof.
  revert i. induction l as [|x l IH]; intros [|i]; simpl; try reflexivity. now rewrite IH.
Qed.

Lemma array_set_length {A : Type} (l : list A) i (x : A) : length (array_set l i x) = length l.
Proof.
  revert i. induction l as [|y l IH]; intros [|i]; simpl; try reflexivity. now rewrite IH.
Qed.

(** ** [get], [update] and [delete] of the file-backed engine *)

Section JSONGet.
Import JSON.

Lemma get_miss (e : engine) (id : value) :
  cache_coherent e -> ~ identifies_live e id -> get id e = (e, None).
Proof.
  intros Hc Hn. unfold get, getFromCache.
  destruct (map_get (cache e) id) as [l|] eqn:Hm.
  - exfalso. apply Hn. exists l. now apply Hc.
  - destruct (List.find _ (data e)) as [l|] eqn:Hf; [|reflexivity].
    exfalso. apply find_some in Hf. destruct Hf as [Hin Hp].
    apply andb_true_iff in Hp. destruct Hp as [H1 H2]. apply negb_true_iff in H2.
    apply Hn. exists l. auto.
Qed.

(** What [get] returns in a consistent state is a stored live record with
    the id asked for; [get] touches the cache only. *)
Lemma get_hit (e e0 : engine) (id : value) (l0 : loc) :
  consistent e -> get id e = (e0, Some l0) ->
  In l0 (data e) /\ has_id (objects e) id l0 = true
  /\ deleted (deref (objects e) l0) = false
  /\ objects e0 = objects e /\ data e0 = data e /\ indexes e0 = indexes e
  /\ cacheSize e0 = cacheSize e /\ map_ok (cache e0).
Proof.
  intros (Hok & Hc & _ & _). unfold get.
  destruct (getFromCache (cache e) id) as [c [l|]] eqn:Hg.
  - intros [= <- <-]. unfold getFromCache in Hg.
    destruct (map_get (cache e) id) as [l'|] eqn:Hm; [|discriminate].
    injection Hg as <- <-. destruct (Hc _ _ Hm) as (H1 & H2 & H3).
    repeat split; try assumption; try reflexivity.
    simpl. apply map_set_ok. now apply map_delete_ok.
  - destruct (List.find _ (data e)) as [l|] eqn:Hf; [|discriminate].
    intros [= <- <-]. apply find_some in Hf. destruct Hf as [Hin Hp].
    apply andb_true_iff in Hp. destruct Hp as [H1 H2]. apply negb_true_iff in H2.
    repeat split; try assumption; try reflexivity.
    simpl. now apply setToCache_ok.
Qed.
End JSONGet.

(** C7, as the code has it. In a state of the file-backed engine whose cache holds stored live
    records under their ids, for an id that is the id of no stored live
    record (never stored, or soft-deleted), [update(id, data)] and
    [delete(id)] throw the not-found error; nothing is written: the
    records, the indexes, the cache and the files are the ones of before. *)
Theorem update_and_delete_reject_ids_that_are_not_live
    (s : JSON.state) (now : string) (id : value) (d : object) :
  JSON.cache_coherent (fst s) -> ~ JSON.identifies_live (fst s) id ->
  JSON.update now id d s = (s, Thrown (NotFound id))
  /\ JSON.delete now id s = (s, Thrown (NotFound id)).
Proof.
  destruct s as [e dk]. simpl. intros Hc Hn.
  unfold JSON.update, JSON.delete. rewrite (get_miss e id Hc Hn). split; reflexivity.
Qed.

Lemma find_none_intro {A : Type} (p : A -> bool) (l : list A) :
  (forall x, In x l -> p x = false) -> List.find p l = None.
Proof.
  induction l as [|y l IH]; simpl; intros H; [reflexivity|].
  rewrite (H y) by now left. apply IH. intros x Hx. apply H. now right.
Qed.

Lemma filterM_sub {A : Type} (p : A -> outcome bool) (l r : list A) :
  filterM p l = Returned r -> forall x, In x r -> In x l.
Proof.
  revert r. induction l as [|a l IH]; simpl; intros r.
  - intros [= <-]. tauto.
  - destruct (p a) as [b|]; simpl; [|discriminate].
    destruct (filterM p l) as [r'|]; simpl; [|discriminate].
    intros [= <-] x Hx. destruct b.
    + destruct Hx as [<-|Hx]; [now left|right; eauto].
    + right. eauto.
Qed.

Lemma alloc_all_spec (os : list object) (h : heap) :
  forall ls h', alloc_all h os = (ls, h') ->
    map (deref h') ls = os /\ length ls = length os
    /\ (forall l, (l < length h)%nat -> deref h' l = deref h l)
    /\ (forall l, In l ls -> (l < length h')%nat)
    /\ (length h <= length h')%nat.
Proof.
  revert h. induction os as [|o os IH]; intros h ls h'; simpl.
  - intros [= <- <-]. repeat split; auto. intros l [].
  - destruct (alloc_all (h ++ [o]) os) as [ls1 h1] eqn:E. intros [= <- <-].
    destruct (IH _ _ _ E) as (H1 & H2 & H3 & H4 & H5).
    rewrite length_app in *. simpl in *.
    assert (Hd : deref h1 (length h) = o).
    { rewrite H3 by lia. unfold deref. now rewrite nth_middle. }
    repeat split.
    + simpl. now rewrite Hd, H1.
    + simpl. now rewrite H2.
    + intros l Hl. rewrite H3 by lia. unfold deref. now rewrite app_nth1.
    + intros l [<-|Hl]; [lia|now apply H4].
    + lia.
Qed.

Section JSONFacts.
Import JSON.

Lemma rebuildIndex_keeps field e :
  objects (rebuildIndex field e) = objects e /\ data (rebuildIndex field e) = data e
  /\ cache (rebuildIndex field e) = cache e /\ cacheSize (rebuildIndex field e) = cacheSize e.
Proof. unfold rebuildIndex. simpl. auto. Qed.

Lemma rebuild_fold_keeps (ixs : list (string * index)) e :
  let e' := fold_left (fun e' fi => rebuildIndex (fst fi) e') ixs e in
  objects e' = objects e /\ data e' = data e
  /\ cache e' = cache e /\ cacheSize e' = cacheSize e.
Proof.
  revert e. induction ixs as [|fi ixs IH]; intros e; simpl; [auto|].
  destruct (IH (rebuildIndex (fst fi) e)) as (H1 & H2 & H3 & H4).
  destruct (rebuildIndex_keeps (fst fi) e) as (G1 & G2 & G3 & G4).
  simpl in *. rewrite H1, H2, H3, H4. auto.
Qed.

Lemma rebuild_all_keeps e :
  objects (rebuild_all e) = objects e /\ data (rebuild_all e) = data e
  /\ cache (rebuild_all e) = cache e /\ cacheSize (rebuild_all e) = cacheSize e.
Proof. apply rebuild_fold_keeps. Qed.

(** [find] returns stored records that are not deleted. *)
Lemma find_sub rx q e r :
  find rx q e = Returned r ->
  forall l, In l r -> In l (data e) /\ deleted (deref (objects e) l) = false.
Proof.
  unfold find.
  set (step := fun (results : outcome (list loc)) (fv : string * value) => _).
  assert (H : forall q rs0 r, fold_left step q (Returned rs0) = Returned r ->
                              forall l, In l r -> In l rs0).
  { clear. induction q as [|[f v] q IH]; simpl; intros rs0 r.
    - intros [= <-]. auto.
    - destruct (startsWith_underscore f); [apply IH|].
      destruct (filterM _ rs0) as [r1|] eqn:E.
      + intros Hr l Hl. eapply filterM_sub; [exact E|]. eapply IH; eassumption.
      + intros Hr. exfalso. clear - Hr. induction q as [|fv q IH]; simpl in Hr; [discriminate|].
        apply IH. exact Hr. }
  intros Hr l Hl. specialize (H _ _ _ Hr l Hl). apply filter_In in H.
  destruct H as [H1 H2]. apply negb_true_iff in H2. auto.
Qed.

(** The state [delete] leaves, from a consistent state. *)
Lemma delete_result (e : engine) (dk : disk) now id s1 :
  consistent e -> delete now id (e, dk) = (s1, Returned true) ->
  exists l0,
    In l0 (data e) /\ has_id (objects e) id l0 = true
    /\ deleted (deref (objects e) l0) = false
    /\ (l0 < length (objects e))%nat
    /\ objects (fst s1) = heap_set (objects e) l0 (tombstone now (deref (objects e) l0))
    /\ data (fst s1) = data e
    /\ map_get (cache (fst s1)) id = None
    /\ (forall l, In l (data e) -> has_id (objects (fst s1)) id l = true -> l = l0).
Proof.
  intros Hcons. unfold delete. destruct (get id e) as [e0 [l0|]] eqn:Hg; [|discriminate].
  destruct (get_hit _ _ _ _ Hcons Hg) as (Hin & Hid & Hlive & Ho & Hd & Hix & Hcs & Hok).
  destruct Hcons as (_ & _ & Huniq & Halloc).
  pose proof (Halloc _ Hin) as Hl0.
  intros [= <-]. exists l0. rewrite Ho, Hd.
  set (h := heap_set (objects e) l0 _).
  assert (Hh : forall l, has_id h id l = has_id (objects e) id l).
  { intros l. unfold has_id, h. destruct (Nat.eq_dec l0 l) as [<-|Hne].
    - rewrite deref_heap_set_same by assumption. now rewrite id_tombstone.
    - now rewrite deref_heap_set_other. }
  destruct (findIndex (has_id h id) (data e)) as [i|] eqn:Hfi.
  - destruct (findIndex_some _ _ O _ Hfi) as [Hi Hpi]. rewrite Hh in Hpi.
    destruct (In_nth _ _ O Hin) as (j & Hj & Hnth).
    assert (i = j).
    { apply (Huniq id). all: try assumption.
      pose proof Hid as Hid'. rewrite <- Hnth in Hid'. exact Hid'. }
    subst j.
    assert (Harr : array_set (data e) i l0 = data e)
      by (rewrite <- Hnth; apply array_set_same).
    rewrite Harr. simpl.
    repeat split; try assumption; [now apply map_get_delete_same|].
    intros l Hl Hidl. rewrite Hh in Hidl.
    destruct (In_nth _ _ O Hl) as (j' & Hj' & Hnthj).
    assert (i = j').
    { apply (Huniq id). all: try assumption.
      pose proof Hidl as Hid'. rewrite <- Hnthj in Hid'. exact Hid'. }
    subst j'. congruence.
  - exfalso. pose proof (findIndex_none _ _ Hfi l0 Hin) as Hf. rewrite Hh in Hf. congruence.
Qed.
End JSONFacts.

Lemma prop_remove_prop_other (o : object) k k' :
  String.eqb k k' = false -> prop (remove_prop o k) k' = prop o k'.
Proof.
  intros Hne. induction o as [|[k0 v0] o IH]; simpl; [reflexivity|].
  destruct (String.eqb k0 k) eqn:E; simpl.
  - apply String.eqb_eq in E. subst k0. now rewrite Hne.
  - now rewrite IH.
Qed.

Lemma filter_shorter {A : Type} (p : A -> bool) (l : list A) x :
  In x l -> p x = false -> (length (filter p l) < length l)%nat.
Proof.
  induction l as [|y l IH]; simpl; [tauto|]. intros [<-|Hin] Hp.
  - rewrite Hp. pose proof (filter_length_le p l). lia.
  - specialize (IH Hin Hp). destruct (p y); simpl; lia.
Qed.

Lemma compact_records (s : JSON.state) :
  JSON.records (fst (fst (JSON.compact s))) = map JSON.clean (JSON.live (fst s)).
Proof.
  destruct s as [e dk]. unfold JSON.compact.
  destruct (alloc_all (JSON.objects e) (map JSON.clean (JSON.live e))) as [ls h] eqn:E.
  simpl. unfold JSON.records.
  destruct (rebuild_all_keeps (JSON.with_cache (JSON.with_data e h ls) [])) as (H1 & H2 & _).
  rewrite H1, H2. simpl. now destruct (alloc_all_spec _ _ _ _ E) as (H & _).
Qed.

(** C4, as the code has it. From a consistent state of the file-backed
    engine, one with unique ids and a coherent cache, after a
    successful [delete(id)]: [get(id)] returns [null]; no record that [find]
    returns has the id, and [find({})] returns; the array has as many
    records as before, the
    deleted one among them, marked; [compact()] leaves the live records
    only, fewer than before, none with the id. *)
Theorem soft_delete_then_compact (s s1 : JSON.state) (now : string) (id : value) :
  JSON.consistent (fst s) ->
  JSON.delete now id s = (s1, Returned true) ->
  snd (JSON.get id (fst s1)) = None
  /\ (forall rx q r, JSON.find rx q (fst s1) = Returned r ->
                     forall l, In l r -> JSON.has_id (JSON.objects (fst s1)) id l = false)
  /\ (forall rx, exists r, JSON.find rx [] (fst s1) = Returned r)
  /\ length (JSON.records (fst s1)) = length (JSON.records (fst s))
  /\ (exists o, In o (JSON.records (fst s1))
                /\ strict_eq (prop o "id") id = true /\ deleted o = true)
  /\ (let s2 := fst (JSON.compact s1) in
      JSON.records (fst s2) = map JSON.clean (JSON.live (fst s1))
      /\ (length (JSON.records (fst s2)) < length (JSON.records (fst s1)))%nat
      /\ forall o, In o (JSON.records (fst s2)) -> strict_eq (prop o "id") id = false).
Proof.
  destruct s as [e dk]. simpl. intros Hcons Hdel.
  destruct (delete_result _ _ _ _ _ Hcons Hdel)
    as (l0 & Hin & Hid & Hlive & Hl0 & Hobj & Hdata & Hcache & Honly).
  destruct s1 as [e1 dk1]. cbn [fst snd] in *.
  assert (Hdead : deleted (deref (JSON.objects e1) l0) = true).
  { rewrite Hobj, deref_heap_set_same by assumption. apply deleted_tombstone. }
  assert (Hid1 : JSON.has_id (JSON.objects e1) id l0 = true).
  { unfold JSON.has_id. rewrite Hobj, deref_heap_set_same by assumption.
    rewrite id_tombstone. exact Hid. }
  assert (Hnone : forall l, In l (JSON.data e1) ->
                            JSON.has_id (JSON.objects e1) id l = true ->
                            deleted (deref (JSON.objects e1) l) = true).
  { intros l Hl Hidl. rewrite Hdata in Hl. now rewrite (Honly l Hl Hidl). }
  split; [|split; [|split; [|split; [|split]]]].
  - unfold JSON.get, getFromCache. rewrite Hcache.
    rewrite find_none_intro; [reflexivity|].
    intros l Hl. destruct (strict_eq _ id) eqn:E; [|reflexivity].
    simpl. now rewrite (Hnone l Hl E).
  - intros rx q r Hr l Hl. destruct (find_sub _ _ _ _ Hr l Hl) as [H1 H2].
    destruct (JSON.has_id (JSON.objects e1) id l) eqn:E; [|reflexivity].
    rewrite (Hnone l H1 E) in H2. discriminate.
  - intros rx. eexists. reflexivity.
  - unfold JSON.records. now rewrite !length_map, Hdata.
  - exists (deref (JSON.objects e1) l0). split; [|split; assumption].
    unfold JSON.records. apply in_map. now rewrite Hdata.
  - cbv zeta. rewrite compact_records. cbn [fst snd]. split; [reflexivity|]. split.
    + rewrite length_map. unfold JSON.live.
      apply (filter_shorter _ _ (deref (JSON.objects e1) l0)).
      * unfold JSON.records. apply in_map. now rewrite Hdata.
      * now rewrite Hdead.
    + intros o Ho. apply in_map_iff in Ho. destruct Ho as (o' & <- & Ho').
      unfold JSON.live in Ho'. apply filter_In in Ho'. destruct Ho' as [Hrec Hl].
      unfold JSON.records in Hrec. apply in_map_iff in Hrec. destruct Hrec as (l & <- & Hl').
      unfold JSON.clean. rewrite !prop_remove_prop_other by reflexivity.
      destruct (strict_eq _ id) eqn:E; [|reflexivity].
      rewrite (Hnone l Hl' E) in Hl. discriminate.
Qed.

(** ** The consistency of the file-backed engine along a run *)

Section CacheLookup.
Context {A : Type}.
Implicit Types (c : jsmap A) (k id : value).

Lemma map_get_tail (e : value * A) c k x :
  map_ok (e :: c) -> map_get c k = Some x -> map_get (e :: c) k = Some x.
Proof.
  destruct e as [k0 x0]. intros [H _] Hg. simpl.
  destruct (strict_eq k0 k) eqn:E; [|assumption].
  apply strict_eq_true in E. subst k0.
  rewrite (map_get_absent c k H) in Hg. discriminate.
Qed.

Lemma map_get_set c id k (l x : A) :
  map_get (map_set c id l) k = Some x ->
  (strict_eq id k = true /\ x = l) \/ (strict_eq id k = false /\ map_get c k = Some x).
Proof.
  destruct (strict_eq id k) eqn:E.
  - pose proof (strict_eq_true _ _ E) as <-.
    assert (Hp : is_primitive id = true) by (destruct id; simpl in *; congruence).
    rewrite map_get_set_same by assumption. intros [= <-]. now left.
  - rewrite map_get_set_other by assumption. intros H. now right.
Qed.

Lemma map_get_delete c id k x :
  map_ok c -> map_get (map_delete c id) k = Some x ->
  strict_eq id k = false /\ map_get c k = Some x.
Proof.
  intros Hok. destruct (strict_eq id k) eqn:E.
  - pose proof (strict_eq_true _ _ E) as <-.
    now rewrite map_get_delete_same.
  - rewrite map_get_delete_other by assumption. auto.
Qed.

Lemma setToCache_get (N : Z) c id k (l x : A) :
  map_ok c -> map_get (setToCache N c id l) k = Some x ->
  (strict_eq id k = true /\ x = l) \/ (strict_eq id k = false /\ map_get c k = Some x).
Proof.
  intros Hok. unfold setToCache. intros H. apply map_get_set in H.
  destruct H as [H|[H1 H2]]; [now left|right]. split; [assumption|].
  destruct (Z.of_nat (length c) >=? N); [|assumption].
  destruct c as [|e rest]; [assumption|]. now apply map_get_tail.
Qed.

Lemma getFromCache_get c id k x :
  map_ok c -> map_get (fst (getFromCache c id)) k = Some x -> map_get c k = Some x.
Proof.
  intros Hok. unfold getFromCache. destruct (map_get c id) as [item|] eqn:Hi; simpl; [|auto].
  intros H. apply map_get_set in H. destruct H as [[H1 ->]|[H1 H2]].
  - now rewrite <- (strict_eq_true _ _ H1).
  - now apply map_get_delete in H2.
Qed.
End CacheLookup.

Lemma deref_alloc_old (h : heap) (o : object) l :
  (l < length h)%nat -> deref (h ++ [o]) l = deref h l.
Proof. intros H. unfold deref. now rewrite app_nth1. Qed.

Lemma deref_alloc_new (h : heap) (o : object) : deref (h ++ [o]) (length h) = o.
Proof. unfold deref. now rewrite nth_middle. Qed.

Lemma prop_spread_absent (b a : object) k :
  has_prop b k = false -> prop (spread a b) k = prop a k.
Proof.
  unfold spread. revert a. induction b as [|[k0 v0] b IH]; intros a; simpl; [reflexivity|].
  destruct (String.eqb k0 k) eqn:E; [discriminate|]. intros H.
  rewrite IH by assumption. now apply prop_set_prop_other.
Qed.

Lemma has_id_primitive h id l : JSON.has_id h id l = true -> is_primitive id = true.
Proof.
  unfold JSON.has_id. intros H. destruct (prop (deref h l) "id"), id; simpl in *; congruence.
Qed.


Section JSONInvariant.
Import JSON.

Lemma get_consistent (e : engine) (id : value) :
  consistent e -> consistent (fst (get id e)).
Proof.
  intros Hcons. pose proof Hcons as (Hok & Hc & Hu & Ha). unfold get, getFromCache.
  destruct (map_get (cache e) id) as [l|] eqn:Hm.
  - simpl. split; [|split; [|split]]; try assumption.
    + apply map_set_ok. now apply map_delete_ok.
    + intros k l' H. simpl in H. apply Hc.
      apply (getFromCache_get (cache e) id k l' Hok).
      unfold getFromCache. now rewrite Hm.
  - destruct (List.find _ (data e)) as [l|] eqn:Hf; simpl; [|exact Hcons].
    apply find_some in Hf. destruct Hf as [Hin Hp].
    apply andb_true_iff in Hp. destruct Hp as [H1 H2]. apply negb_true_iff in H2.
    split; [|split; [|split]]; try assumption.
    + now apply setToCache_ok.
    + intros k l' H. simpl in H. apply setToCache_get in H; [|assumption].
      destruct H as [[E ->]|[E H]]; [|now apply Hc].
      apply strict_eq_true in E. subst k. simpl. auto.
Qed.

(** The engine [insert] leaves. *)
Lemma insert_engine now fresh d (e : engine) (dk : disk) :
  let e' := fst (fst (insert now fresh d (e, dk))) in
  objects e' = objects e ++ [stamp now fresh d]
  /\ data e' = data e ++ [length (objects e)]
  /\ cache e' = setToCache (cacheSize e) (cache e) (prop (stamp now fresh d) "id")
                  (length (objects e)).
Proof. repeat split. Qed.




(** In a consistent state the record [get] returned is the one [findIndex]
    finds. *)
Lemma findIndex_unique (e : engine) id l0 :
  consistent e -> In l0 (data e) -> has_id (objects e) id l0 = true ->
  exists i, findIndex (has_id (objects e) id) (data e) = Some i
            /\ (i < length (data e))%nat /\ nth i (data e) 0%nat = l0.
Proof.
  intros (_ & _ & Hu & _) Hin Hid.
  destruct (findIndex (has_id (objects e) id) (data e)) as [i|] eqn:Hfi.
  - destruct (findIndex_some _ _ 0%nat _ Hfi) as [Hi Hpi].
    exists i. repeat split; try assumption.
    destruct (In_nth _ _ 0%nat Hin) as (j & Hj & Hnth).
    assert (i = j).
    { apply (Hu id). all: try assumption.
      pose proof Hid as Hid'. rewrite <- Hnth in Hid'. exact Hid'. }
    now subst j.
  - pose proof (findIndex_none _ _ Hfi l0 Hin) as Hf. congruence.
Qed.

(** The engine a successful [update] leaves. *)
Lemma update_engine now id d (e : engine) (dk : disk) s' l :
  consistent e -> update now id d (e, dk) = (s', Returned l) ->
  exists e0 l0 i,
    get id e = (e0, Some l0)
    /\ (i < length (data e))%nat /\ nth i (data e) 0%nat = l0
    /\ l = length (objects e)
    /\ objects (fst s') = objects e ++ [merged now (deref (objects e) l0) d]
    /\ data (fst s') = array_set (data e) i (length (objects e))
    /\ cache (fst s') = setToCache (cacheSize e) (cache e0) id (length (objects e)).
Proof.
  intros Hcons. unfold update. destruct (get id e) as [e0 [l0|]] eqn:Hg; [|discriminate].
  destruct (get_hit _ _ _ _ Hcons Hg) as (Hin & Hid & Hlive & Ho & Hd & Hix & Hcs & Hok).
  destruct (findIndex_unique e id l0 Hcons Hin Hid) as (i & Hfi & Hi & Hnth).
  rewrite Ho, Hd, Hfi. unfold alloc. intros [= <- <-].
  exists e0, l0, i. simpl. rewrite Hcs. repeat split; assumption.
Qed.








End JSONInvariant.

(** ** The id of an updated record *)

Lemma has_prop_false_prop (o : object) k : has_prop o k = false -> prop o k = VUndef.
Proof.
  induction o as [|[k0 v0] o IH]; simpl; [reflexivity|].
  destruct (String.eqb k0 k); [discriminate|assumption].
Qed.

Lemma has_prop_in (o : object) k : has_prop o k = true -> In k (map fst o).
Proof.
  induction o as [|[k0 v0] o IH]; simpl; [discriminate|].
  destruct (String.eqb k0 k) eqn:E; [|auto]. apply String.eqb_eq in E. now left.
Qed.

Lemma prop_spread_present (b a : object) k :
  NoDup (map fst b) -> has_prop b k = true -> prop (spread a b) k = prop b k.
Proof.
  unfold spread. revert a. induction b as [|[k0 v0] b IH]; intros a Hnd; simpl; [discriminate|].
  inversion Hnd as [|? ? Hnotin Hnd']. subst.
  destruct (String.eqb k0 k) eqn:E.
  - intros _. apply String.eqb_eq in E. subst k0.
    assert (Hb : has_prop b k = false).
    { destruct (has_prop b k) eqn:Hb; [|reflexivity]. exfalso. apply Hnotin.
      now apply has_prop_in. }
    pose proof (prop_spread_absent b (set_prop a k v0) k Hb) as H. unfold spread in H.
    rewrite H. apply prop_set_prop_same.
  - intros H. now apply IH.
Qed.

Lemma merged_id now (existing d : object) :
  NoDup (map fst d) ->
  prop (JSON.merged now existing d) "id"
  = if has_prop d "id" then prop d "id" else prop existing "id".
Proof.
  intros Hnd. unfold JSON.merged. rewrite prop_set_prop_other by reflexivity.
  destruct (has_prop d "id") eqn:E.
  - now apply prop_spread_present.
  - now apply prop_spread_absent.
Qed.

Lemma json_get_objects id (e : JSON.engine) :
  JSON.objects (fst (JSON.get id e)) = JSON.objects e
  /\ JSON.data (fst (JSON.get id e)) = JSON.data e.
Proof.
  unfold JSON.get. destruct (getFromCache (JSON.cache e) id) as [c [l|]]; [now split|].
  destruct (List.find _ _); now split.
Qed.

Lemma memory_get_objects id (e : Memory.engine) :
  Memory.objects (fst (Memory.get id e)) = Memory.objects e
  /\ Memory.data (fst (Memory.get id e)) = Memory.data e.
Proof.
  unfold Memory.get. destruct (getFromCache (Memory.cache e) id) as [c [l|]]; [now split|].
  destruct (map_get _ _); [|now split]. destruct (negb _); now split.
Qed.

(** C5, as the code has it. The record a successful [update(id, data)]
    returns, in the file-backed and in the in-memory engine, is
    [{ ...existing, ...data, _updated }] for the record [existing] that
    [get(id)] returns: its id is the id of [existing] when [data] has no
    [id] property, and the [id] of [data] when it has one. *)
Theorem update_keeps_or_takes_id (now : string) (id : value) (d : object) :
  NoDup (map fst d) ->
  (forall (s s' : JSON.state) (l : loc),
      JSON.update now id d s = (s', Returned l) ->
      exists l0,
        snd (JSON.get id (fst s)) = Some l0
        /\ prop (deref (JSON.objects (fst s')) l) "id"
           = if has_prop d "id" then prop d "id"
             else prop (deref (JSON.objects (fst s)) l0) "id")
  /\ (forall (e e' : Memory.engine) (l : loc),
        Memory.update now id d e = (e', Returned l) ->
        exists l0,
          snd (Memory.get id e) = Some l0
          /\ prop (deref (Memory.objects e') l) "id"
             = if has_prop d "id" then prop d "id"
               else prop (deref (Memory.objects e) l0) "id").
Proof.
  intros Hnd. split.
  - intros [e dk] s' l. cbn [fst]. unfold JSON.update.
    pose proof (json_get_objects id e) as [Ho _].
    destruct (JSON.get id e) as [e0 [l0|]]; [|discriminate]. simpl in Ho.
    unfold alloc. cbv zeta. intros H. exists l0. split; [reflexivity|].
    rewrite <- (merged_id now (deref (JSON.objects e) l0) d Hnd), <- Ho.
    destruct (findIndex _ _); injection H as <- <-; simpl; now rewrite deref_alloc_new.
  - intros e e' l. unfold Memory.update.
    pose proof (memory_get_objects id e) as [Ho _].
    destruct (Memory.get id e) as [e0 [l0|]]; [|discriminate]. simpl in Ho.
    unfold alloc. cbv zeta. intros H. exists l0. split; [reflexivity|].
    rewrite <- (merged_id now (deref (Memory.objects e) l0) d Hnd), <- Ho.
    injection H as <- <-. simpl. now rewrite deref_alloc_new.
Qed.

Lemma update_id_witness :
  exists l0,
    snd (JSON.get (VStr "a") (fst Scenario.one_record)) = Some l0
    /\ prop (deref (JSON.objects
                      (fst (fst (JSON.update "t2" (VStr "a") [("x", VNum 7)]
                                   Scenario.one_record)))) 1%nat) "id"
       = prop (deref (JSON.objects (fst Scenario.one_record)) l0) "id".
Proof.
  apply (proj1 (update_keeps_or_takes_id "t2" (VStr "a") [("x", VNum 7)]
                  ltac:(repeat constructor; simpl; tauto))
           Scenario.one_record _ 1%nat eq_refl).
Defined.

(** ** The consistency of the in-memory engine along a run *)


Section MapValues.
Context {A : Type}.
Implicit Types (m : jsmap A) (k : value).

Lemma map_get_in m k x : map_get m k = Some x -> exists k', In (k', x) m /\ strict_eq k' k = true.
Proof.
  induction m as [|[k0 x0] m IH]; simpl; [discriminate|].
  destruct (strict_eq k0 k) eqn:E.
  - intros [= <-]. exists k0. split; [now left|assumption].
  - intros H. destruct (IH H) as (k' & Hin & Hk'). exists k'. split; [now right|assumption].
Qed.



Lemma NoDup_values_key m (k1 k2 : value) (x : A) :
  NoDup (map snd m) -> In (k1, x) m -> In (k2, x) m -> k1 = k2.
Proof.
  induction m as [|[k0 x0] m IH]; simpl; [tauto|]. intros Hnd H1 H2.
  inversion Hnd as [|? ? Hnot Hnd']. subst.
  destruct H1 as [E1|H1]; destruct H2 as [E2|H2].
  - congruence.
  - exfalso. apply Hnot. injection E1 as _ ->. now apply (in_map snd) in H2.
  - exfalso. apply Hnot. injection E2 as _ ->. now apply (in_map snd) in H1.
  - now apply IH.
Qed.
End MapValues.

Section MemoryInvariant.
Import Memory.

Lemma memory_get_consistent (e : engine) (id : value) :
  consistent e -> consistent (fst (get id e)).
Proof.
  intros Hcons. pose proof Hcons as (Hok & Hc & Hnd & Ha). unfold get, getFromCache.
  destruct (map_get (cache e) id) as [l|] eqn:Hm.
  - simpl. split; [|split; [|split]]; try assumption.
    + apply map_set_ok. now apply map_delete_ok.
    + intros k l' H. simpl in H. apply Hc.
      apply (getFromCache_get (cache e) id k l' Hok).
      unfold getFromCache. now rewrite Hm.
  - destruct (map_get (data e) id) as [l|] eqn:Hd; [|exact Hcons].
    destruct (deleted (deref (objects e) l)) eqn:Hl; simpl; [exact Hcons|].
    split; [|split; [|split]]; try assumption.
    + now apply setToCache_ok.
    + intros k l' H. simpl in H. apply setToCache_get in H; [|assumption].
      destruct H as [[E ->]|[E H]]; [|now apply Hc].
      apply strict_eq_true in E. subst k. simpl. auto.
Qed.

(** What [get] returns in a consistent state is the live record that
    [data] has under the id. *)
Lemma memory_get_hit (e e0 : engine) (id : value) (l0 : loc) :
  consistent e -> get id e = (e0, Some l0) ->
  map_get (data e) id = Some l0 /\ deleted (deref (objects e) l0) = false
  /\ objects e0 = objects e /\ data e0 = data e /\ cacheSize e0 = cacheSize e.
Proof.
  intros (Hok & Hc & _ & _). unfold get, getFromCache.
  destruct (map_get (cache e) id) as [l|] eqn:Hm.
  - intros [= <- <-]. destruct (Hc _ _ Hm). simpl. auto.
  - destruct (map_get (data e) id) as [l|] eqn:Hd; [|discriminate].
    destruct (deleted (deref (objects e) l)) eqn:Hl; simpl; [discriminate|].
    intros [= <- <-]. simpl. auto.
Qed.




Lemma memory_create_consistent (v : value) : consistent (create v).
Proof.
  unfold consistent, cache_coherent. simpl.
  split; [exact I|]. split; [intros k l H; discriminate|].
  split; [constructor|intros l []].
Qed.
End MemoryInvariant.

(** ** Cache coherence *)

Lemma memory_rebuild_all_cache (e : Memory.engine) :
  Memory.cache (Memory.rebuild_all e) = Memory.cache e.
Proof.
  unfold Memory.rebuild_all.
  assert (H : forall (ixs : list (string * jsmap (list value))) e,
             Memory.cache (fold_left (fun e' fi => Memory.rebuildIndex (fst fi) e') ixs e)
             = Memory.cache e).
  { clear. induction ixs as [|fi ixs IH]; intros e; simpl; [reflexivity|]. now rewrite IH. }
  apply H.
Qed.




(** C4 on a collection that holds two records with the id ["a"], after
    two inserts of that id and a compaction, or after one insert and a
    restart of the process (the replayed WAL repeats the insert):
    [delete("a")] succeeds and [get("a")] still returns a record, which
    [find] returns too. *)
Lemma get_after_delete_with_a_repeated_id :
  (let s1 := fst (JSON.delete "t3" (VStr "a") Scenario.two_of_a) in
   snd (JSON.delete "t3" (VStr "a") Scenario.two_of_a) = Returned true
   /\ snd (JSON.get (VStr "a") (fst s1)) = Some 3%nat
   /\ JSON.find literal_regexp [] (fst s1) = Returned [3%nat]
   /\ prop (deref (JSON.objects (fst s1)) 3%nat) "id" = VStr "a")
  /\ (let s0 := JSON.recover "t9" (snd Scenario.one_record) in
      let s1 := fst (JSON.delete "t3" (VStr "a") s0) in
      snd (JSON.delete "t3" (VStr "a") s0) = Returned true
      /\ snd (JSON.get (VStr "a") (fst s1)) = Some 1%nat
      /\ prop (deref (JSON.objects (fst s1)) 1%nat) "id" = VStr "a").
Proof. repeat split; reflexivity. Qed.

(** C7 after [insert({id:"a",x:1}); update("a", {id:"b"})]: no stored
    record has the id ["a"], and [update("a", ...)] and [delete("a")]
    succeed, the cache still holding the record under ["a"]. *)
Lemma update_and_delete_accept_a_replaced_id :
  ~ JSON.identifies_live (fst Scenario.renamed_plain) (VStr "a")
  /\ snd (JSON.update "t3" (VStr "a") [("x", VNum 9)] Scenario.renamed_plain) = Returned 2%nat
  /\ snd (JSON.delete "t3" (VStr "a") Scenario.renamed_plain) = Returned true.
Proof.
  split; [|split; reflexivity].
  intros (l & Hin & Hid & _). vm_compute in Hin. destruct Hin as [<-|[]]. discriminate Hid.
Qed.

(** ** Serialization *)

Lemma json_clone_id : forall v, json_value v = true -> json_clone v = v.
Proof.
  fix IH 1. intros [ | |b|n|s|l|o]; simpl; intros H; try reflexivity.
  - f_equal. induction l as [|x l IHl]; [reflexivity|].
    simpl in H. apply andb_true_iff in H. destruct H as [Hx Hl].
    rewrite (IHl Hl). pose proof (IH x Hx) as Ex.
    destruct x; simpl in *; congruence.
  - f_equal. induction o as [|[k x] o IHo]; [reflexivity|].
    simpl in H. apply andb_true_iff in H. destruct H as [Hx Ho].
    rewrite (IHo Ho). pose proof (IH x Hx) as Ex.
    destruct x; simpl in *; congruence.
Qed.

Lemma clone_object_id (o : object) : json_object o = true -> clone_object o = o.
Proof.
  intros H. unfold clone_object. now rewrite (json_clone_id (VObj o) H).
Qed.

Lemma map_clone_id (os : list object) :
  (forall o, In o os -> json_object o = true) -> map clone_object os = os.
Proof.
  induction os as [|o os IH]; intros H; simpl; [reflexivity|].
  rewrite clone_object_id by (apply H; now left).
  rewrite IH; [reflexivity|]. intros o' Ho'. apply H. now right.
Qed.

(** ** [backup] and [restore] *)

Lemma restore_records (recs : list object) (s : JSON.state) :
  JSON.records (fst (fst (JSON.restore (Some recs) s))) = recs.
Proof.
  destruct s as [e dk]. unfold JSON.restore.
  destruct (alloc_all (JSON.objects e) recs) as [ls h] eqn:E. simpl.
  unfold JSON.records.
  destruct (rebuild_all_keeps (JSON.with_cache (JSON.with_data e h ls) [])) as (H1 & H2 & _).
  rewrite H1, H2. simpl. now destruct (alloc_all_spec _ _ _ _ E) as (H & _).
Qed.

Section MemoryRestore.
Import Memory.

Lemma memory_rebuildIndex_keeps field e :
  objects (rebuildIndex field e) = objects e /\ data (rebuildIndex field e) = data e.
Proof. unfold rebuildIndex. simpl. auto. Qed.

Lemma memory_rebuild_all_keeps e :
  objects (rebuild_all e) = objects e /\ data (rebuild_all e) = data e.
Proof.
  unfold rebuild_all.
  assert (H : forall (ixs : list (string * jsmap (list value))) e,
             let e' := fold_left (fun e' fi => rebuildIndex (fst fi) e') ixs e in
             objects e' = objects e /\ data e' = data e).
  { clear. induction ixs as [|fi ixs IH]; intros e; simpl; [auto|].
    destruct (IH (rebuildIndex (fst fi) e)) as (H1 & H2). simpl in *.
    now rewrite H1, H2. }
  apply H.
Qed.

(** [restore] files every row under its own id, in order, when the rows
    have ids and the ids differ. *)
Lemma restore_scan_spec now fresh (recs : list object) :
  forall i h m h' m',
    (forall o, In o recs -> truthy (row_id o) = true) ->
    distinct (map_keys m ++ map row_id recs) ->
    (forall l, In l (map snd m) -> (l < length h)%nat) ->
    restore_scan now fresh i recs h m = (h', m') ->
    map (deref h') (map snd m') = map (deref h) (map snd m) ++ map (restamped now) recs.
Proof.
  induction recs as [|o recs IH]; intros i h m h' m' Hid Hd Hm; simpl.
  - intros [= <- <-]. now rewrite app_nil_r.
  - change (prop o "id") with (row_id o). rewrite (Hid o) by now left. unfold alloc.
    intros Hscan. apply IH in Hscan.
    + rewrite Hscan. clear Hscan.
      rewrite map_set_absent
        by (apply map_get_absent; intros k' Hk'; now apply (distinct_before _ _ _ Hd)).
      rewrite !map_app, <- app_assoc. simpl. f_equal.
      * apply map_ext_in. intros l Hl. unfold deref. rewrite app_nth1; [reflexivity|].
        now apply Hm.
      * f_equal. unfold deref. rewrite nth_middle. reflexivity.
    + intros o' Ho'. apply Hid. now right.
    + rewrite map_set_absent.
      * unfold map_keys in *. rewrite map_app, <- app_assoc. exact Hd.
      * apply map_get_absent. intros k' Hk'. now apply (distinct_before _ _ _ Hd).
    + rewrite map_set_absent
        by (apply map_get_absent; intros k' Hk'; now apply (distinct_before _ _ _ Hd)).
      rewrite map_app, length_app. simpl. intros l Hl. apply in_app_or in Hl.
      destruct Hl as [Hl|[<-|[]]]; [specialize (Hm l Hl)|]; lia.
Qed.

Lemma restore_entries now fresh (recs : list object) (e : engine) :
  (forall o, In o recs -> truthy (row_id o) = true) ->
  distinct (map row_id recs) ->
  map snd (records (fst (restore now fresh (Some recs) e))) = map (restamped now) recs.
Proof.
  intros Hid Hd. unfold restore.
  destruct (restore_scan now fresh 0 recs (objects e) []) as [h m] eqn:E. simpl.
  unfold records.
  destruct (memory_rebuild_all_keeps (with_cache (with_data e h m) [])) as (H1 & H2).
  rewrite H1, H2. simpl. rewrite map_map. simpl.
  apply restore_scan_spec in E; try assumption.
  - rewrite <- map_map. exact E.
  - intros l [].
Qed.
End MemoryRestore.

Lemma prop_remove_prop_same (o : object) k : prop (remove_prop o k) k = VUndef.
Proof.
  induction o as [|[k0 v0] o IH]; simpl; [reflexivity|].
  destruct (String.eqb k0 k) eqn:E; simpl; [assumption|]. now rewrite E.
Qed.

Lemma json_object_remove_prop (o : object) k :
  json_object o = true -> json_object (remove_prop o k) = true.
Proof.
  unfold json_object. simpl. induction o as [|[k0 v0] o IH]; simpl; [reflexivity|].
  intros H. apply andb_true_iff in H. destruct H as [H1 H2].
  destruct (String.eqb k0 k); simpl; [now apply IH|]. now rewrite H1, IH.
Qed.

Lemma memory_clean_facts (o : object) :
  json_object o = true ->
  json_object (Memory.clean o) = true /\ deleted (Memory.clean o) = false
  /\ row_id (Memory.clean o) = row_id o.
Proof.
  intros H. unfold Memory.clean, deleted, row_id. split; [|split].
  - now repeat apply json_object_remove_prop.
  - rewrite prop_remove_prop_other by reflexivity. now rewrite prop_remove_prop_same.
  - now rewrite !prop_remove_prop_other by reflexivity.
Qed.

Lemma deleted_restamped now (o : object) : deleted (restamped now o) = deleted o.
Proof.
  unfold deleted, restamped. now rewrite !prop_set_prop_other by reflexivity.
Qed.

Lemma filter_all {A : Type} (p : A -> bool) (l : list A) :
  (forall x, In x l -> p x = true) -> filter p l = l.
Proof.
  induction l as [|x l IH]; simpl; intros H; [reflexivity|].
  rewrite (H x) by now left. rewrite IH; [reflexivity|]. intros y Hy. apply H. now right.
Qed.

(** The snapshot file is current after every operation that writes. *)
Lemma saved_after_writes :
  (forall now fresh d s, JSON.saved (fst (JSON.insert now fresh d s)))
  /\ (forall now id d s s' l, JSON.update now id d s = (s', Returned l) -> JSON.saved s')
  /\ (forall now id s s' b, JSON.delete now id s = (s', Returned b) -> JSON.saved s')
  /\ (forall s, JSON.saved (fst (JSON.compact s))).
Proof.
  unfold JSON.saved. repeat split.
  - intros now fresh d [e dk]. reflexivity.
  - intros now id d [e dk] s' l. unfold JSON.update.
    destruct (JSON.get id e) as [e0 [l0|]]; [|discriminate].
    destruct (findIndex _ _); intros [= <- _]; reflexivity.
  - intros now id [e dk] s' b. unfold JSON.delete.
    destruct (JSON.get id e) as [e0 [l0|]]; [|discriminate].
    destruct (findIndex _ _); intros [= <- _]; reflexivity.
  - intros s. rewrite compact_records. destruct s as [e dk]. unfold JSON.compact.
    destruct (alloc_all _ _). reflexivity.
Qed.

(** C9, as the code has it. File-backed engine: when the snapshot file is
    current, as every completed insert, update, delete and compact leaves
    it, and the records are JSON values, [backup()] writes the snapshot and
    [restore()] of that file, in whatever state the collection then is,
    gives back exactly the live records of the time of the backup.
    In-memory engine: when the live records are JSON values with ids that
    are truthy and differ, [backup()] writes the live records without
    [_created], [_updated], [_deleted] and [_deleted_at], and [restore()]
    gives them back stamped with the time of the restore. *)
Theorem backup_then_restore :
  (forall (s s' : JSON.state) (b : JSON.backup_files),
      JSON.backup s = Some b -> JSON.saved s ->
      (forall o, In o (JSON.records (fst s)) -> json_object o = true) ->
      JSON.backup_json b = JSON.records (fst s)
      /\ JSON.live (fst (fst (JSON.restore (Some (JSON.backup_json b)) s')))
         = JSON.live (fst s))
  /\ (forall (e e' : Memory.engine) (now : string) (fresh : nat -> string),
        (forall o, In o (Memory.live e) -> json_object o = true) ->
        (forall o, In o (Memory.live e) -> truthy (row_id o) = true) ->
        distinct (map row_id (Memory.live e)) ->
        Memory.backup e = Some (map Memory.clean (Memory.live e))
        /\ Memory.live (fst (Memory.restore now fresh
                               (Some (map Memory.clean (Memory.live e))) e'))
           = map (restamped now) (map Memory.clean (Memory.live e))).
Proof.
  split.
  - intros [e dk] s' b Hb Hsaved Hjson. unfold JSON.backup, JSON.saved in *. simpl in *.
    rewrite Hsaved in Hb. injection Hb as <-. simpl.
    rewrite (map_clone_id _ Hjson). split; [reflexivity|].
    unfold JSON.live at 1. now rewrite restore_records.
  - intros e e' now fresh Hjson Hid Hd. split.
    + unfold Memory.backup. f_equal. apply map_clone_id.
      intros o Ho. apply in_map_iff in Ho. destruct Ho as (o' & <- & Ho').
      now apply memory_clean_facts, Hjson.
    + unfold Memory.live at 1. rewrite restore_entries.
      * apply filter_all. intros o Ho. apply in_map_iff in Ho.
        destruct Ho as (o1 & <- & Ho1). apply in_map_iff in Ho1.
        destruct Ho1 as (o2 & <- & Ho2). rewrite deleted_restamped.
        destruct (memory_clean_facts o2 (Hjson _ Ho2)) as (_ & -> & _). reflexivity.
      * intros o Ho. apply in_map_iff in Ho. destruct Ho as (o' & <- & Ho').
        destruct (memory_clean_facts o' (Hjson _ Ho')) as (_ & _ & ->). now apply Hid.
      * rewrite map_map.
        erewrite map_ext_in; [exact Hd|].
        intros o Ho. now destruct (memory_clean_facts o (Hjson _ Ho)) as (_ & _ & ->).
Qed.

(** C9 at one record on the in-memory engine: inserted at [t1], backed up,
    the collection emptied, the backup restored at [t9]; the record comes
    back with [_created] and [_updated] of [t9]. *)
Lemma memory_restore_changes_the_stamps :
  Memory.live Scenario.memory_one = [Scenario.stored Scenario.a1 "t1"]
  /\ Memory.live Scenario.memory_emptied = []
  /\ exists file,
      Memory.backup Scenario.memory_one = Some file
      /\ Memory.live (fst (Memory.restore "t9" (fun _ => "u9") (Some file)
                             Scenario.memory_emptied))
         = [Scenario.stored Scenario.a1 "t9"]
      /\ Memory.live (fst (Memory.restore "t9" (fun _ => "u9") (Some file)
                                Scenario.memory_emptied))
         <> Memory.live Scenario.memory_one.
Proof.
  split; [reflexivity|]. split; [reflexivity|]. eexists.
  split; [reflexivity|]. split; [reflexivity|]. vm_compute. discriminate.
Qed.

(** ** Indexes *)

Lemma includes_In (s : list value) x : includes s x = true -> In x s.
Proof.
  unfold includes. intros H. apply existsb_exists in H. destruct H as (y & Hy & E).
  apply strict_eq_true in E. now subst.
Qed.

Lemma set_add_In (s : list value) x y : In y (set_add s x) <-> In y s \/ y = x.
Proof.
  unfold set_add. destruct (includes s x) eqn:E.
  - split; [auto|]. intros [H| ->]; [assumption|now apply includes_In].
  - rewrite in_app_iff. simpl. intuition congruence.
Qed.


Lemma maps_to_set (ix : index) v s v' id :
  is_primitive v = true ->
  maps_to (map_set ix v s) v' id
  <-> (strict_eq v v' = true /\ In id s) \/ (strict_eq v v' = false /\ maps_to ix v' id).
Proof.
  intros Hp. unfold maps_to. destruct (strict_eq v v') eqn:E.
  - pose proof (strict_eq_true _ _ E) as <-. rewrite map_get_set_same by assumption.
    split.
    + intros (s' & [= <-] & Hin). left. auto.
    + intros [[_ H]|[H _]]; [|discriminate]. eauto.
  - rewrite map_get_set_other by assumption. split.
    + intros H. right. auto.
    + intros [[H _]|[_ H]]; [discriminate|assumption].
Qed.

Lemma maps_to_unreachable (ix : index) v v' id :
  is_primitive v = false -> maps_to ix v' id -> strict_eq v v' = false.
Proof. intros Hp _. destruct v, v'; simpl in *; congruence. Qed.

(** What [index_add] files. *)
Lemma index_add_spec (ix : index) v id :
  map_ok ix ->
  map_ok (index_add ix v id)
  /\ forall v' id', maps_to (index_add ix v id) v' id'
                    <-> maps_to ix v' id' \/ (strict_eq v v' = true /\ id' = id).
Proof.
  intros Hok. unfold index_add. split.
  - destruct (map_get ix v); now apply map_set_ok.
  - intros v' id'. destruct (is_primitive v) eqn:Hp.
    + destruct (map_get ix v) as [s|] eqn:Hg; rewrite maps_to_set by assumption;
        rewrite set_add_In; unfold maps_to; destruct (strict_eq v v') eqn:E.
      * pose proof (strict_eq_true _ _ E) as <-. rewrite Hg. split.
        -- intros [[_ [H| ->]]|[H _]]; [left; eauto|right; auto|discriminate].
        -- intros [(s' & [= <-] & H)|[_ ->]]; left; auto.
      * split; [intros [[H _]|[_ H]]; [discriminate|now left]|].
        intros [H|[H _]]; [right; auto|discriminate].
      * pose proof (strict_eq_true _ _ E) as <-. rewrite Hg. split.
        -- intros [[_ [[]| ->]]|[H _]]; [right; auto|discriminate].
        -- intros [(s' & H & _)|[_ ->]]; [discriminate|left; auto].
      * split; [intros [[H _]|[_ H]]; [discriminate|now left]|].
        intros [H|[H _]]; [right; auto|discriminate].
    + assert (Hne : forall w, strict_eq v w = false)
        by (intros w; destruct v, w; simpl in *; congruence).
      assert (Hnone : map_get ix v = None).
      { apply map_get_absent. intros k' _. rewrite strict_eq_sym. apply Hne. }
      rewrite Hnone. unfold maps_to. rewrite map_get_set_other by apply Hne.
      rewrite Hne. split; [auto|]. intros [H|[H _]]; [assumption|discriminate].
Qed.




(** ** The indexes of the file-backed engine along a run *)






Section JSONIndexes.
Import JSON.







End JSONIndexes.

Section JSONIndexRuns.
Import JSON.






End JSONIndexRuns.


(** ** The theorems at concrete states *)

Lemma one_record_consistent : JSON.consistent (fst Scenario.one_record).
Proof.
  unfold JSON.consistent, JSON.cache_coherent.
  change (JSON.cache (fst Scenario.one_record)) with [(VStr "a", 0%nat)].
  change (JSON.data (fst Scenario.one_record)) with [0%nat].
  split; [|split; [|split]].
  - split; [intros k' []|exact I].
  - intros k l H. unfold map_get in H.
    destruct (strict_eq (VStr "a") k) eqn:E; [|discriminate].
    injection H as <-. apply strict_eq_true in E. subst k.
    split; [now left|split; reflexivity].
  - intros id i j Hi Hj _ _.
    change (JSON.data (fst Scenario.one_record)) with [0%nat] in Hi, Hj.
    simpl in Hi, Hj. lia.
  - intros l [<-|[]]. vm_compute. lia.
Qed.

Lemma soft_delete_witness :
  snd (JSON.get (VStr "a") (fst Scenario.deleted_a)) = None.
Proof.
  exact (proj1 (soft_delete_then_compact Scenario.one_record Scenario.deleted_a
                  "t2" (VStr "a") one_record_consistent eq_refl)).
Defined.

Lemma reject_witness :
  JSON.update "t3" (VStr "a") [("x", VNum 2)] Scenario.deleted_a
  = (Scenario.deleted_a, Thrown (NotFound (VStr "a")))
  /\ JSON.delete "t3" (VStr "zz") Scenario.deleted_a
     = (Scenario.deleted_a, Thrown (NotFound (VStr "zz"))).
Proof.
  split.
  - apply (proj1 (update_and_delete_reject_ids_that_are_not_live
                    Scenario.deleted_a "t3" (VStr "a") [("x", VNum 2)]
                    ltac:(intros k l H; discriminate H)
                    ltac:(intros (l & [<-|[]] & _ & H); discriminate H))).
  - apply (proj2 (update_and_delete_reject_ids_that_are_not_live
                    Scenario.deleted_a "t3" (VStr "zz") []
                    ltac:(intros k l H; discriminate H)
                    ltac:(intros (l & [<-|[]] & H & _); discriminate H))).
Defined.

Lemma lru_cache_witness :
  fold_left (fun c kx => setToCache 2 c (fst kx) (snd kx))
    [(VStr "a", 1%nat); (VStr "b", 2%nat); (VStr "c", 3%nat)] []
  = [(VStr "b", 2%nat); (VStr "c", 3%nat)].
Proof.
  apply (proj1 (proj2 (proj2 (lru_cache_behaviour nat 2 ltac:(lia))))
           [(VStr "a", 1%nat); (VStr "b", 2%nat); (VStr "c", 3%nat)]).
  - reflexivity.
  - simpl. repeat split; intros k' H; repeat (destruct H as [<-|H]; [reflexivity|]);
      destruct H.
Defined.

Lemma backup_then_restore_witness :
  JSON.live (fst (fst (JSON.restore (Some (JSON.records (fst Scenario.one_record)))
                         Scenario.deleted_a)))
  = JSON.live (fst Scenario.one_record).
Proof.
  exact (proj2 (proj1 backup_then_restore Scenario.one_record Scenario.deleted_a
                  {| JSON.backup_json := JSON.records (fst Scenario.one_record);
                     JSON.backup_wal := walFile (snd Scenario.one_record) |}
                  eq_refl eq_refl
                  ltac:(intros o [<-|[]]; reflexivity))).
Defined.





(** ** Further properties of the file-backed engine *)

Lemma stamp_id_primitive now fresh (d : object) :
  is_primitive (prop d "id") = true -> is_primitive (prop (JSON.stamp now fresh d) "id") = true.
Proof.
  intros Hp. unfold JSON.stamp.
  rewrite !prop_set_prop_other by reflexivity.
  destruct (truthy (prop d "id")); simpl; [assumption|].
  now rewrite prop_set_prop_same.
Qed.

Lemma stamp_fields now fresh (d : object) :
  let r := JSON.stamp now fresh d in
  prop r "id" = (if truthy (prop d "id") then prop d "id" else VStr fresh)
  /\ prop r "_created" = VStr now /\ prop r "_updated" = VStr now
  /\ (forall k, k <> "id" -> k <> "_created" -> k <> "_updated" -> prop r k = prop d k).
Proof.
  unfold JSON.stamp. cbv zeta.
  split; [|split; [|split]].
  - rewrite !prop_set_prop_other by reflexivity.
    destruct (truthy (prop d "id")); simpl; [reflexivity|apply prop_set_prop_same].
  - rewrite prop_set_prop_other by reflexivity. apply prop_set_prop_same.
  - rewrite prop_set_prop_same. apply prop_set_prop_same.
  - intros k H1 H2 H3.
    rewrite !prop_set_prop_other by (now apply String.eqb_neq; auto).
    destruct (truthy (prop d "id")); simpl; [reflexivity|].
    rewrite prop_set_prop_other; [reflexivity|]. apply String.eqb_neq. auto.
Qed.

Lemma json_insert_get (now fresh : string) (d : object) (s : JSON.state) :
  is_primitive (prop d "id") = true ->
  deref (JSON.objects (fst (fst (JSON.insert now fresh d s))))
    (snd (JSON.insert now fresh d s))
  = JSON.stamp now fresh d
  /\ snd (JSON.get (prop (JSON.stamp now fresh d) "id")
            (fst (fst (JSON.insert now fresh d s))))
     = Some (snd (JSON.insert now fresh d s)).
Proof.
  intros Hp. destruct s as [e dk].
  destruct (insert_engine now fresh d e dk) as (Ho & Hd & Hca).
  assert (Hl : snd (JSON.insert now fresh d (e, dk)) = length (JSON.objects e)) by reflexivity.
  rewrite Hl. rewrite Ho. rewrite deref_alloc_new.
  split; [reflexivity|].
  unfold JSON.get, getFromCache. rewrite Hca.
  unfold setToCache. rewrite map_get_set_same by now apply stamp_id_primitive.
  reflexivity.
Qed.

(** X1: [insert] followed by [get] on the file-backed engine. Whatever the
    collection holds, the record [insert] returns is what [get] returns for
    its id, when the payload's id is a primitive value (or absent). The
    record has the payload's id when that is truthy and the new [uid()]
    otherwise, both stamps are the time of the insert, and every other
    property is the payload's. *)
Theorem insert_then_get (now fresh : string) (d : object) (s : JSON.state) :
  is_primitive (prop d "id") = true ->
  let s1 := fst (JSON.insert now fresh d s) in
  let l := snd (JSON.insert now fresh d s) in
  let r := deref (JSON.objects (fst s1)) l in
  snd (JSON.get (prop r "id") (fst s1)) = Some l
  /\ prop r "id" = (if truthy (prop d "id") then prop d "id" else VStr fresh)
  /\ prop r "_created" = VStr now /\ prop r "_updated" = VStr now
  /\ (forall k, k <> "id" -> k <> "_created" -> k <> "_updated" -> prop r k = prop d k).
Proof.
  intros Hp. cbv zeta. destruct (json_insert_get now fresh d s Hp) as [Hd Hg].
  rewrite Hd. split; [exact Hg|apply stamp_fields].
Qed.

Lemma insert_then_get_witness :
  snd (JSON.get (VStr "a") (fst (fst (JSON.insert "t1" "u1" Scenario.a1 Scenario.fresh))))
  = Some (snd (JSON.insert "t1" "u1" Scenario.a1 Scenario.fresh)).
Proof.
  exact (proj1 (insert_then_get "t1" "u1" Scenario.a1 Scenario.fresh eq_refl)).
Defined.

Lemma json_get_none (id : value) (e e0 : JSON.engine) :
  JSON.get id e = (e0, None) -> e0 = e.
Proof.
  unfold JSON.get. destruct (getFromCache (JSON.cache e) id) as [c [l|]] eqn:Hc.
  - discriminate.
  - destruct (List.find _ _); [discriminate|]. now intros [= <-].
Qed.

Lemma memory_get_none (id : value) (e e0 : Memory.engine) :
  Memory.get id e = (e0, None) -> e0 = e.
Proof.
  unfold Memory.get. destruct (getFromCache (Memory.cache e) id) as [c [l|]] eqn:Hc.
  - discriminate.
  - destruct (map_get _ _); [|now intros [= <-]].
    destruct (negb _); [discriminate|now intros [= <-]].
Qed.

(** X2: a rejected [update] or [delete] changes nothing. On both engines
    the only exception of the two operations is the not-found error for the
    id given, and it leaves the records, the indexes, the cache and the
    files as they were. *)
Theorem rejected_operations_change_nothing :
  (forall now id d s s' err,
      JSON.update now id d s = (s', Thrown err) -> err = NotFound id /\ s' = s)
  /\ (forall now id s s' err,
      JSON.delete now id s = (s', Thrown err) -> err = NotFound id /\ s' = s)
  /\ (forall now id d e e' err,
      Memory.update now id d e = (e', Thrown err) -> err = NotFound id /\ e' = e)
  /\ (forall now id e e' err,
      Memory.delete now id e = (e', Thrown err) -> err = NotFound id /\ e' = e).
Proof.
  split; [|split; [|split]].
  - intros now id d [e dk] s' err. unfold JSON.update.
    destruct (JSON.get id e) as [e0 [l0|]] eqn:Hg.
    + destruct (alloc _ _). discriminate.
    + apply json_get_none in Hg. subst e0. now intros [= <- <-].
  - intros now id [e dk] s' err. unfold JSON.delete.
    destruct (JSON.get id e) as [e0 [l0|]] eqn:Hg.
    + discriminate.
    + apply json_get_none in Hg. subst e0. now intros [= <- <-].
  - intros now id d e e' err. unfold Memory.update.
    destruct (Memory.get id e) as [e0 [l0|]] eqn:Hg.
    + destruct (alloc _ _). discriminate.
    + apply memory_get_none in Hg. subst e0. now intros [= <- <-].
  - intros now id e e' err. unfold Memory.delete.
    destruct (Memory.get id e) as [e0 [l0|]] eqn:Hg.
    + discriminate.
    + apply memory_get_none in Hg. subst e0. now intros [= <- <-].
Qed.

Lemma rejected_operations_witness :
  JSON.update "t1" (VStr "zz") [] Scenario.one_record
  = (Scenario.one_record, Thrown (NotFound (VStr "zz"))).
Proof.
  destruct (JSON.update "t1" (VStr "zz") [] Scenario.one_record) as [s' [l|err]] eqn:E.
  - vm_compute in E. discriminate.
  - destruct (proj1 rejected_operations_change_nothing _ _ _ _ _ _ E) as [-> ->].
    reflexivity.
Defined.

Lemma json_get_data (id : value) (e : JSON.engine) :
  JSON.objects (fst (JSON.get id e)) = JSON.objects e
  /\ JSON.data (fst (JSON.get id e)) = JSON.data e
  /\ JSON.indexes (fst (JSON.get id e)) = JSON.indexes e
  /\ JSON.cacheSize (fst (JSON.get id e)) = JSON.cacheSize e.
Proof.
  unfold JSON.get. destruct (getFromCache (JSON.cache e) id) as [c [l|]].
  - simpl. auto.
  - destruct (List.find _ _); simpl; auto.
Qed.

Lemma update_data_length now id d (s : JSON.state) :
  length (JSON.data (fst (fst (JSON.update now id d s)))) = length (JSON.data (fst s)).
Proof.
  destruct s as [e dk]. unfold JSON.update.
  pose proof (json_get_data id e) as (_ & Hd & _).
  destruct (JSON.get id e) as [e0 [l0|]]; simpl in Hd.
  - destruct (alloc _ _) as [l h]. cbn [fst].
    destruct (findIndex _ _); simpl; [rewrite array_set_length|]; now rewrite Hd.
  - simpl. now rewrite Hd.
Qed.

Lemma delete_data_length now id (s : JSON.state) :
  length (JSON.data (fst (fst (JSON.delete now id s)))) = length (JSON.data (fst s)).
Proof.
  destruct s as [e dk]. unfold JSON.delete.
  pose proof (json_get_data id e) as (_ & Hd & _).
  destruct (JSON.get id e) as [e0 [l0|]]; simpl in Hd.
  - cbn [fst]. destruct (findIndex _ _); simpl; [rewrite array_set_length|]; now rewrite Hd.
  - simpl. now rewrite Hd.
Qed.

(** X3: the array of the file-backed engine grows by [insert] only, and
    by every [insert]. After a run of operations it holds as many records
    more as the run has inserts: an insert is never refused (not for an id
    that is stored already either), and an update or a delete, accepted or
    rejected, neither adds a record nor takes one out. *)
Theorem only_insert_grows_the_array (ms : list JSON.mutation) (s : JSON.state) :
  length (JSON.records (fst (JSON.run ms s)))
  = (length (JSON.records (fst s)) + inserts ms)%nat.
Proof.
  unfold JSON.records. rewrite !length_map.
  revert s. induction ms as [|m ms IH]; intros s.
  - simpl. unfold inserts. simpl. lia.
  - change (JSON.run (m :: ms) s) with (JSON.run ms (JSON.apply m s)).
    rewrite IH. unfold inserts. destruct m as [now fresh d|now id d|now id]; simpl.
    + destruct s as [e dk].
      destruct (insert_engine now fresh d e dk) as (_ & Hd & _).
      cbn [fst] in *. rewrite Hd. rewrite length_app. simpl. lia.
    + rewrite update_data_length. lia.
    + rewrite delete_data_length. lia.
Qed.

Lemma wal_lines_writeToWAL op dk :
  wal_lines (JSON.writeToWAL op dk) = wal_lines dk ++ [op].
Proof. unfold wal_lines, JSON.writeToWAL. simpl. destruct (walFile dk); reflexivity. Qed.

Lemma wal_lines_saveData e dk : wal_lines (JSON.saveData e dk) = wal_lines dk.
Proof. reflexivity. Qed.

Lemma apply_wal (m : JSON.mutation) (s : JSON.state) :
  exists extra, wal_lines (snd (JSON.apply m s)) = wal_lines (snd s) ++ extra
                /\ (length extra <= 1)%nat.
Proof.
  destruct s as [e dk]. destruct m as [now fresh d|now id d|now id]; unfold JSON.apply.
  - exists [JSON.insert_entry (JSON.stamp now fresh d)]. split; [|simpl; lia].
    unfold JSON.insert. destruct (alloc _ _) as [l h]. cbn [fst snd].
    rewrite wal_lines_saveData. apply wal_lines_writeToWAL.
  - unfold JSON.update. destruct (JSON.get id e) as [e0 [l0|]].
    + destruct (alloc _ _) as [l h]. cbn [fst snd]. rewrite wal_lines_saveData.
      rewrite wal_lines_writeToWAL. eexists. split; [reflexivity|simpl; lia].
    + exists []. cbn [fst snd]. rewrite app_nil_r. split; [reflexivity|simpl; lia].
  - unfold JSON.delete. destruct (JSON.get id e) as [e0 [l0|]].
    + cbn [fst snd]. rewrite wal_lines_saveData.
      rewrite wal_lines_writeToWAL. eexists. split; [reflexivity|simpl; lia].
    + exists []. cbn [fst snd]. rewrite app_nil_r. split; [reflexivity|simpl; lia].
Qed.

(** X4: [insert], [update] and [delete] only ever append to the
    write-ahead log. After any run of them the lines the file had are all
    still there, in front, followed by one line at most for each operation
    of the run; an insert always writes its line, the stamped record. No
    operation of a run shortens or rewrites the log. *)
Theorem mutations_only_append_to_the_wal :
  (forall ms s, exists extra,
      wal_lines (snd (JSON.run ms s)) = wal_lines (snd s) ++ extra
      /\ (length extra <= length ms)%nat)
  /\ (forall now fresh d s,
      wal_lines (snd (fst (JSON.insert now fresh d s)))
      = wal_lines (snd s) ++ [JSON.insert_entry (JSON.stamp now fresh d)]).
Proof.
  split.
  - induction ms as [|m ms IH]; intros s.
    + exists []. simpl. rewrite app_nil_r. split; [reflexivity|lia].
    + change (JSON.run (m :: ms) s) with (JSON.run ms (JSON.apply m s)).
      destruct (IH (JSON.apply m s)) as (x2 & E2 & L2).
      destruct (apply_wal m s) as (x1 & E1 & L1).
      exists (x1 ++ x2). rewrite E2, E1, app_assoc. split; [reflexivity|].
      rewrite length_app. simpl. lia.
  - intros now fresh d [e dk]. unfold JSON.insert.
    destruct (alloc _ _) as [l h]. cbn [fst snd].
    rewrite wal_lines_saveData. apply wal_lines_writeToWAL.
Qed.

Lemma recover_snapshot now (recs : list object) :
  let s2 := JSON.recover now {| dataFile := Some recs; walFile := None |} in
  JSON.records (fst s2) = recs /\ JSON.indexes (fst s2) = [] /\ JSON.cache (fst s2) = []
  /\ snd s2 = {| dataFile := Some recs; walFile := None |}.
Proof.
  unfold JSON.recover, JSON.init. cbn [dataFile walFile].
  destruct (alloc_all (JSON.objects (JSON.create VUndef)) recs) as [ls h] eqn:E.
  cbn [fst snd]. unfold JSON.rebuild_all. simpl.
  split; [|auto]. unfold JSON.records. simpl.
  now destruct (alloc_all_spec _ _ _ _ E) as (H & _).
Qed.

(** X5: the snapshot file is current after every accepted write, and a new
    process reads the collection back from it. [insert], an accepted
    [update] and an accepted [delete] leave the serialized array in the
    file; an engine initialized on that file alone then holds the same
    records as serialized (the very same records when they are JSON values,
    the deleted ones and all stamps included), with an empty cache and no
    index: indexes are not kept across a restart. *)
Theorem reload_from_the_snapshot :
  (forall now fresh d s, JSON.saved (fst (JSON.insert now fresh d s)))
  /\ (forall now id d s s' l, JSON.update now id d s = (s', Returned l) -> JSON.saved s')
  /\ (forall now id s s' b, JSON.delete now id s = (s', Returned b) -> JSON.saved s')
  /\ (forall now s,
        JSON.saved s ->
        let s2 := JSON.recover now {| dataFile := dataFile (snd s); walFile := None |} in
        JSON.records (fst s2) = map clone_object (JSON.records (fst s))
        /\ ((forall o, In o (JSON.records (fst s)) -> json_object o = true) ->
            JSON.records (fst s2) = JSON.records (fst s))
        /\ JSON.indexes (fst s2) = [] /\ JSON.cache (fst s2) = []).
Proof.
  destruct saved_after_writes as (H1 & H2 & H3 & _).
  split; [exact H1|]. split; [exact H2|]. split; [exact H3|].
  intros now s Hs. unfold JSON.saved in Hs. rewrite Hs.
  destruct (recover_snapshot now (map clone_object (JSON.records (fst s))))
    as (Hr & Hi & Hc & _).
  cbv zeta. split; [exact Hr|]. split; [|split; assumption].
  intros Hj. rewrite Hr. now apply map_clone_id.
Qed.

Lemma reload_from_the_snapshot_witness :
  JSON.records
    (fst (JSON.recover "t9" {| dataFile := dataFile (snd Scenario.deleted_a);
                               walFile := None |}))
  = JSON.records (fst Scenario.deleted_a).
Proof.
  apply (proj1 (proj2 (proj2 (proj2 (proj2 reload_from_the_snapshot)) "t9"
                               Scenario.deleted_a eq_refl))).
  intros o [<-|[]]. reflexivity.
Defined.

Lemma remove_prop_absent (o : object) k : has_prop o k = false -> remove_prop o k = o.
Proof.
  induction o as [|[k0 v0] o IH]; simpl; [reflexivity|].
  destruct (String.eqb k0 k); [discriminate|]. intros H. now rewrite IH.
Qed.

Lemma has_prop_remove_prop_same (o : object) k : has_prop (remove_prop o k) k = false.
Proof.
  induction o as [|[k0 v0] o IH]; simpl; [reflexivity|].
  destruct (String.eqb k0 k) eqn:E; [assumption|]. simpl. now rewrite E.
Qed.

Lemma has_prop_remove_prop_other (o : object) k k' :
  String.eqb k k' = false -> has_prop (remove_prop o k) k' = has_prop o k'.
Proof.
  intros Hne. induction o as [|[k0 v0] o IH]; simpl; [reflexivity|].
  destruct (String.eqb k0 k) eqn:E.
  - apply String.eqb_eq in E. subst k0. now rewrite Hne.
  - simpl. destruct (String.eqb k0 k'); [reflexivity|assumption].
Qed.

Lemma json_clean_facts (o : object) :
  JSON.clean (JSON.clean o) = JSON.clean o
  /\ deleted (JSON.clean o) = deleted o
  /\ has_prop (JSON.clean o) "_created" = false
  /\ has_prop (JSON.clean o) "_updated" = false
  /\ (forall k, k <> "_created" -> k <> "_updated" -> prop (JSON.clean o) k = prop o k).
Proof.
  assert (Hc : has_prop (JSON.clean o) "_created" = false).
  { unfold JSON.clean. rewrite has_prop_remove_prop_other by reflexivity.
    apply has_prop_remove_prop_same. }
  assert (Hu : has_prop (JSON.clean o) "_updated" = false).
  { unfold JSON.clean. apply has_prop_remove_prop_same. }
  split; [|split; [|split; [|split]]]; try assumption.
  - unfold JSON.clean at 1. rewrite (remove_prop_absent _ _ Hc).
    now apply remove_prop_absent.
  - unfold deleted, JSON.clean. now rewrite !prop_remove_prop_other by reflexivity.
  - intros k H1 H2. unfold JSON.clean.
    rewrite !prop_remove_prop_other; [reflexivity| |]; apply String.eqb_neq; auto.
Qed.

(** X6: [compact()] on the file-backed engine. It leaves the live records,
    in their order and without their two stamps, every other property as
    it was; it empties the cache, rewrites the snapshot file and removes
    the log. Run again at once it changes nothing more: the records and
    the files are those of the first run. *)
Theorem compact_is_idempotent (s : JSON.state) :
  let s1 := fst (JSON.compact s) in
  let s2 := fst (JSON.compact s1) in
  JSON.records (fst s1) = map JSON.clean (JSON.live (fst s))
  /\ (forall o, In o (JSON.records (fst s1)) ->
        deleted o = false /\ has_prop o "_created" = false
        /\ has_prop o "_updated" = false)
  /\ (forall o k, k <> "_created" -> k <> "_updated" ->
        prop (JSON.clean o) k = prop o k)
  /\ JSON.cache (fst s1) = [] /\ walFile (snd s1) = None
  /\ dataFile (snd s1) = Some (map clone_object (JSON.records (fst s1)))
  /\ JSON.records (fst s2) = JSON.records (fst s1)
  /\ snd s2 = snd s1.
Proof.
  cbv zeta.
  assert (Hrec : forall s, JSON.records (fst (fst (JSON.compact s)))
                           = map JSON.clean (JSON.live (fst s))) by apply compact_records.
  assert (Hdisk : forall s, snd (fst (JSON.compact s))
            = {| dataFile := Some (map clone_object (map JSON.clean (JSON.live (fst s))));
                 walFile := None |}).
  { intros [e dk]. unfold JSON.compact. now destruct (alloc_all _ _). }
  assert (Hcache : forall s, JSON.cache (fst (fst (JSON.compact s))) = []).
  { intros [e dk]. unfold JSON.compact. destruct (alloc_all _ _) as [ls h]. cbn [fst].
    now destruct (rebuild_all_keeps (JSON.with_cache (JSON.with_data e h ls) []))
      as (_ & _ & -> & _). }
  assert (Hlive : forall o, In o (map JSON.clean (JSON.live (fst s))) ->
                            deleted o = false /\ has_prop o "_created" = false
                            /\ has_prop o "_updated" = false).
  { intros o Ho. apply in_map_iff in Ho. destruct Ho as (o0 & <- & Hin).
    unfold JSON.live in Hin. apply filter_In in Hin. destruct Hin as [_ Hl].
    destruct (json_clean_facts o0) as (_ & Hd & Hc & Hu & _).
    rewrite Hd. apply negb_true_iff in Hl. auto. }
  assert (Hagain : map JSON.clean (JSON.live (fst (fst (JSON.compact s))))
                   = map JSON.clean (JSON.live (fst s))).
  { unfold JSON.live at 1. rewrite Hrec.
    rewrite filter_all.
    - rewrite map_map. apply map_ext. intros o. apply json_clean_facts.
    - intros o Ho. destruct (Hlive o Ho) as (-> & _). reflexivity. }
  split; [apply Hrec|]. split; [rewrite Hrec; exact Hlive|].
  split; [intros o; apply json_clean_facts|].
  split; [apply Hcache|]. rewrite !Hdisk. cbn [walFile dataFile].
  split; [reflexivity|]. split; [now rewrite Hrec|].
  split; [now rewrite !Hrec, Hagain|]. now rewrite Hagain.
Qed.

(** ** The life of an index: [createIndex], [dropIndex] and the runs *)

Lemma is_indexed_In (field : string) (ixs : list (string * index)) :
  is_indexed field ixs = true <-> In field (indexed_fields ixs).
Proof.
  unfold is_indexed, indexed_fields. rewrite existsb_exists. split.
  - intros ([f ix] & Hin & E). simpl in E. apply String.eqb_eq in E. subst f.
    apply in_map_iff. exists (field, ix). auto.
  - intros H. apply in_map_iff in H. destruct H as ([f ix] & <- & Hin).
    exists (f, ix). split; [assumption|apply String.eqb_refl].
Qed.

Lemma drop_field_fields (field : string) (ixs : list (string * index)) :
  NoDup (indexed_fields ixs) ->
  indexed_fields (drop_field field ixs)
  = filter (fun f => negb (String.eqb f field)) (indexed_fields ixs).
Proof.
  unfold indexed_fields. induction ixs as [|[f ix] ixs IH]; simpl; [reflexivity|].
  intros Hnd. inversion Hnd as [|? ? Hnotin Hnd']. subst.
  destruct (String.eqb f field) eqn:E; simpl.
  - apply String.eqb_eq in E. subst f. symmetry. apply filter_all.
    intros g Hg. apply negb_true_iff. apply String.eqb_neq. intros ->. contradiction.
  - now rewrite IH.
Qed.

Lemma drop_field_index_of (field f : string) (ixs : list (string * index)) :
  f <> field -> index_of (drop_field field ixs) f = index_of ixs f.
Proof.
  intros Hne. induction ixs as [|[g ix] ixs IH]; simpl; [reflexivity|].
  destruct (String.eqb g field) eqn:E.
  - apply String.eqb_eq in E. subst g.
    destruct (String.eqb field f) eqn:E2; [|reflexivity].
    apply String.eqb_eq in E2. congruence.
  - simpl. now rewrite IH.
Qed.

Lemma drop_field_absent (field : string) (ixs : list (string * index)) :
  NoDup (indexed_fields ixs) -> is_indexed field (drop_field field ixs) = false.
Proof.
  intros Hnd. apply not_true_iff_false. rewrite is_indexed_In.
  rewrite drop_field_fields by assumption. rewrite filter_In.
  intros [_ H]. now rewrite String.eqb_refl in H.
Qed.

Lemma index_of_app_new (field f : string) (ix : index) (ixs : list (string * index)) :
  is_indexed field ixs = false ->
  index_of (map (fun fi : string * index =>
                   if String.eqb (fst fi) field then (fst fi, ix) else fi)
              (ixs ++ [(field, [])])) f
  = if String.eqb field f then ix else index_of ixs f.
Proof.
  unfold is_indexed. induction ixs as [|[g ix0] ixs IH]; simpl.
  - intros _. rewrite String.eqb_refl. simpl. now destruct (String.eqb field f).
  - intros H. apply orb_false_iff in H. destruct H as [Hg Hrest].
    rewrite Hg. simpl. destruct (String.eqb g f) eqn:E.
    + apply String.eqb_eq in E. subst g. rewrite String.eqb_sym in Hg. now rewrite Hg.
    + now apply IH.
Qed.

Lemma map_new_index (field : string) (ix : index) (ixs : list (string * index)) :
  is_indexed field ixs = false ->
  map (fun fi : string * index =>
         if String.eqb (fst fi) field then (fst fi, ix) else fi)
    (ixs ++ [(field, [])])
  = ixs ++ [(field, ix)].
Proof.
  unfold is_indexed. intros H. rewrite map_app. simpl. rewrite String.eqb_refl. f_equal.
  induction ixs as [|[g ix0] ixs IH]; simpl in *; [reflexivity|].
  apply orb_false_iff in H. destruct H as [Hg Hrest]. rewrite Hg. now rewrite IH.
Qed.

Lemma json_createIndex_new (field : string) (e : JSON.engine) :
  is_indexed field (JSON.indexes e) = false ->
  JSON.createIndex field e
  = JSON.with_indexes e
      (JSON.indexes e ++ [(field, rebuild_scan field (JSON.records e) [])]).
Proof.
  intros H. unfold JSON.createIndex. fold (is_indexed field (JSON.indexes e)). rewrite H.
  unfold JSON.rebuildIndex. cbn [JSON.indexes JSON.with_indexes].
  change (JSON.records (JSON.with_indexes e (JSON.indexes e ++ [(field, [])])))
    with (JSON.records e).
  now rewrite map_new_index.
Qed.

Lemma index_of_app (f : string) (a b : list (string * index)) :
  index_of (a ++ b) f = if is_indexed f a then index_of a f else index_of b f.
Proof.
  unfold is_indexed. induction a as [|[g ix] a IH]; simpl; [reflexivity|].
  destruct (String.eqb g f) eqn:E; [reflexivity|]. simpl. apply IH.
Qed.

Lemma is_indexed_app (f : string) (a b : list (string * index)) :
  is_indexed f (a ++ b) = is_indexed f a || is_indexed f b.
Proof. unfold is_indexed. apply existsb_app. Qed.

Lemma index_of_absent (f : string) (ixs : list (string * index)) :
  is_indexed f ixs = false -> index_of ixs f = [].
Proof.
  unfold is_indexed. induction ixs as [|[g ix] ixs IH]; simpl; [reflexivity|].
  intros H. apply orb_false_iff in H. destruct H as [-> H]. now apply IH.
Qed.

Lemma is_indexed_drop_other (field f : string) (ixs : list (string * index)) :
  f <> field -> is_indexed f (drop_field field ixs) = is_indexed f ixs.
Proof.
  intros Hne. unfold is_indexed. induction ixs as [|[g ix] ixs IH]; simpl; [reflexivity|].
  destruct (String.eqb g field) eqn:E.
  - apply String.eqb_eq in E. subst g.
    destruct (String.eqb field f) eqn:E2; [|reflexivity].
    apply String.eqb_eq in E2. congruence.
  - simpl. now rewrite IH.
Qed.

(** X7: [dropIndex] and [createIndex] on the file-backed engine. Dropping
    takes out the index of the field and nothing else: the other indexes
    stay, in their order, and the records and the cache are untouched;
    dropping a field that has no index does nothing, and so does creating
    an index on a field that has one. An index created again after the drop
    is the last of the indexes and is built from the records then stored. *)
Theorem dropIndex_then_createIndex (field : string) (e : JSON.engine) :
  NoDup (indexed_fields (JSON.indexes e)) ->
  let e1 := JSON.dropIndex field e in
  let e2 := JSON.createIndex field e1 in
  indexed_fields (JSON.indexes e1)
  = filter (fun f => negb (String.eqb f field)) (indexed_fields (JSON.indexes e))
  /\ is_indexed field (JSON.indexes e1) = false
  /\ (forall f, f <> field ->
        index_of (JSON.indexes e1) f = index_of (JSON.indexes e) f
        /\ index_of (JSON.indexes e2) f = index_of (JSON.indexes e) f)
  /\ JSON.records e1 = JSON.records e /\ JSON.cache e1 = JSON.cache e
  /\ (is_indexed field (JSON.indexes e) = false -> e1 = e)
  /\ (is_indexed field (JSON.indexes e) = true -> JSON.createIndex field e = e)
  /\ JSON.indexes e2
     = JSON.indexes e1 ++ [(field, rebuild_scan field (JSON.records e) [])]
  /\ index_of (JSON.indexes e2) field = rebuild_scan field (JSON.records e) [].
Proof.
  intros Hnd. cbv zeta.
  assert (Hdrop : JSON.indexes (JSON.dropIndex field e) = drop_field field (JSON.indexes e)).
  { unfold JSON.dropIndex. fold (is_indexed field (JSON.indexes e)).
    destruct (is_indexed field (JSON.indexes e)) eqn:E; [reflexivity|].
    clear Hnd. unfold is_indexed in E. induction (JSON.indexes e) as [|[g ix] l IH];
      simpl in *; [reflexivity|].
    apply orb_false_iff in E. destruct E as [Hg Hl]. rewrite Hg. now rewrite <- IH. }
  assert (Hrec : JSON.records (JSON.dropIndex field e) = JSON.records e).
  { unfold JSON.dropIndex. now destruct (existsb _ _). }
  assert (Hno : is_indexed field (JSON.indexes (JSON.dropIndex field e)) = false).
  { rewrite Hdrop. now apply drop_field_absent. }
  rewrite (json_createIndex_new _ _ Hno). cbn [JSON.indexes JSON.with_indexes].
  rewrite Hrec.
  split; [rewrite Hdrop; now apply drop_field_fields|].
  split; [assumption|].
  split.
  { intros f Hf. rewrite index_of_app. rewrite Hdrop.
    rewrite drop_field_index_of by assumption. split; [reflexivity|].
    rewrite is_indexed_drop_other by assumption.
    destruct (is_indexed f (JSON.indexes e)) eqn:E; [reflexivity|].
    simpl. destruct (String.eqb field f) eqn:E2.
    - apply String.eqb_eq in E2. congruence.
    - symmetry. now apply index_of_absent. }
  split; [reflexivity|].
  split; [unfold JSON.dropIndex; now destruct (existsb _ _)|].
  split; [unfold JSON.dropIndex; fold (is_indexed field (JSON.indexes e)); now intros ->|].
  split; [unfold JSON.createIndex; fold (is_indexed field (JSON.indexes e)); now intros ->|].
  split; [reflexivity|].
  rewrite index_of_app, Hno. simpl. now rewrite String.eqb_refl.
Qed.

Lemma dropIndex_then_createIndex_witness :
  is_indexed "x" (JSON.indexes (JSON.dropIndex "x" (fst Scenario.indexed))) = false
  /\ index_of (JSON.indexes (JSON.createIndex "x" (JSON.dropIndex "x" (fst Scenario.indexed))))
       "x"
     = rebuild_scan "x" (JSON.records (fst Scenario.indexed)) [].
Proof.
  pose proof (dropIndex_then_createIndex "x" (fst Scenario.indexed)
                ltac:(repeat constructor; intros [])) as H.
  split; [exact (proj1 (proj2 H))|].
  exact (proj2 (proj2 (proj2 (proj2 (proj2 (proj2 (proj2 (proj2 H)))))))).
Defined.

Lemma indexed_fields_map (f : string * index -> string * index)
    (ixs : list (string * index)) :
  (forall fi, fst (f fi) = fst fi) -> indexed_fields (map f ixs) = indexed_fields ixs.
Proof.
  intros H. unfold indexed_fields. rewrite map_map. apply map_ext. exact H.
Qed.

Lemma index_insert_fst record fi : fst (index_insert record fi) = fst fi.
Proof. destruct fi as [f ix]. unfold index_insert. now destruct (negb _). Qed.

Lemma index_update_fst id a b fi : fst (index_update id a b fi) = fst fi.
Proof.
  destruct fi as [f ix]. unfold index_update.
  destruct (negb (strict_eq _ _)); [|reflexivity]. now destruct (negb _).
Qed.

Lemma index_delete_fst id a fi : fst (index_delete id a fi) = fst fi.
Proof. now destruct fi. Qed.

Lemma json_apply_fields (m : JSON.mutation) (s : JSON.state) :
  indexed_fields (JSON.indexes (fst (JSON.apply m s)))
  = indexed_fields (JSON.indexes (fst s)).
Proof.
  destruct s as [e dk]. destruct m as [now fresh d|now id d|now id]; unfold JSON.apply.
  - unfold JSON.insert. destruct (alloc _ _) as [l h]. cbn [fst JSON.indexes JSON.with_cache
      JSON.with_indexes JSON.with_data].
    apply indexed_fields_map, index_insert_fst.
  - unfold JSON.update. pose proof (json_get_data id e) as (_ & _ & Hi & _).
    destruct (JSON.get id e) as [e0 [l0|]]; cbn [fst] in Hi.
    + destruct (alloc _ _) as [l h].
      destruct (findIndex _ _); cbn [fst JSON.indexes JSON.with_cache JSON.with_indexes
        JSON.with_data]; rewrite <- Hi; apply indexed_fields_map, index_update_fst.
    + cbn [fst]. now rewrite Hi.
  - unfold JSON.delete. pose proof (json_get_data id e) as (_ & _ & Hi & _).
    destruct (JSON.get id e) as [e0 [l0|]]; cbn [fst] in Hi.
    + destruct (findIndex _ _); cbn [fst JSON.indexes JSON.with_cache JSON.with_indexes
        JSON.with_data]; rewrite <- Hi; apply indexed_fields_map, index_delete_fst.
    + cbn [fst]. now rewrite Hi.
Qed.

Lemma json_rebuild_all_fields (e : JSON.engine) :
  indexed_fields (JSON.indexes (JSON.rebuild_all e)) = indexed_fields (JSON.indexes e).
Proof.
  unfold JSON.rebuild_all. generalize (JSON.indexes e) at 1. intros l. revert e.
  induction l as [|fi l IH]; intros e; simpl; [reflexivity|].
  rewrite IH. unfold JSON.rebuildIndex. cbn [JSON.indexes JSON.with_indexes].
  apply indexed_fields_map. intros fi0. now destruct (String.eqb _ _).
Qed.

Lemma memory_get_data (id : value) (e : Memory.engine) :
  Memory.objects (fst (Memory.get id e)) = Memory.objects e
  /\ Memory.data (fst (Memory.get id e)) = Memory.data e
  /\ Memory.indexes (fst (Memory.get id e)) = Memory.indexes e
  /\ Memory.cacheSize (fst (Memory.get id e)) = Memory.cacheSize e.
Proof.
  unfold Memory.get. destruct (getFromCache (Memory.cache e) id) as [c [l|]].
  - simpl. auto.
  - destruct (map_get _ _); [destruct (negb _)|]; simpl; auto.
Qed.

Lemma memory_apply_fields (m : JSON.mutation) (e : Memory.engine) :
  indexed_fields (Memory.indexes (Memory.apply m e)) = indexed_fields (Memory.indexes e).
Proof.
  destruct m as [now fresh d|now id d|now id]; unfold Memory.apply.
  - unfold Memory.insert. destruct (alloc _ _) as [l h].
    cbn [fst Memory.indexes Memory.with_cache Memory.with_indexes Memory.with_data].
    apply indexed_fields_map, index_insert_fst.
  - unfold Memory.update. pose proof (memory_get_data id e) as (_ & _ & Hi & _).
    destruct (Memory.get id e) as [e0 [l0|]]; cbn [fst] in Hi.
    + destruct (alloc _ _) as [l h].
      cbn [fst Memory.indexes Memory.with_cache Memory.with_indexes Memory.with_data].
      rewrite <- Hi. apply indexed_fields_map, index_update_fst.
    + cbn [fst]. now rewrite Hi.
  - unfold Memory.delete. pose proof (memory_get_data id e) as (_ & _ & Hi & _).
    destruct (Memory.get id e) as [e0 [l0|]]; cbn [fst] in Hi.
    + cbn [fst Memory.indexes Memory.with_cache Memory.with_indexes Memory.with_data].
      rewrite <- Hi. apply indexed_fields_map, index_delete_fst.
    + cbn [fst]. now rewrite Hi.
Qed.

Lemma memory_rebuild_all_fields (e : Memory.engine) :
  indexed_fields (Memory.indexes (Memory.rebuild_all e))
  = indexed_fields (Memory.indexes e).
Proof.
  unfold Memory.rebuild_all. generalize (Memory.indexes e) at 1. intros l. revert e.
  induction l as [|fi l IH]; intros e; simpl; [reflexivity|].
  rewrite IH. unfold Memory.rebuildIndex. cbn [Memory.indexes Memory.with_indexes].
  apply indexed_fields_map. intros fi0. now destruct (String.eqb _ _).
Qed.

(** X8: no operation on the records creates or drops an index. On both
    engines the indexed fields, in their order, are the same after any run
    of inserts, updates and deletes, after [get], after [compact()] and
    after [restore()]: an index exists from its [createIndex] to its
    [dropIndex]. *)
Theorem operations_keep_the_indexed_fields :
  (forall ms s, indexed_fields (JSON.indexes (fst (JSON.run ms s)))
                = indexed_fields (JSON.indexes (fst s)))
  /\ (forall ms e, indexed_fields (Memory.indexes (Memory.run ms e))
                   = indexed_fields (Memory.indexes e))
  /\ (forall id e, JSON.indexes (fst (JSON.get id e)) = JSON.indexes e)
  /\ (forall id e, Memory.indexes (fst (Memory.get id e)) = Memory.indexes e)
  /\ (forall s, indexed_fields (JSON.indexes (fst (fst (JSON.compact s))))
                = indexed_fields (JSON.indexes (fst s)))
  /\ (forall e, indexed_fields (Memory.indexes (fst (Memory.compact e)))
                = indexed_fields (Memory.indexes e))
  /\ (forall file s, indexed_fields (JSON.indexes (fst (fst (JSON.restore file s))))
                     = indexed_fields (JSON.indexes (fst s)))
  /\ (forall now fresh file e,
        indexed_fields (Memory.indexes (fst (Memory.restore now fresh file e)))
        = indexed_fields (Memory.indexes e)).
Proof.
  repeat split.
  - induction ms as [|m ms IH]; intros s; [reflexivity|].
    change (JSON.run (m :: ms) s) with (JSON.run ms (JSON.apply m s)).
    rewrite IH. apply json_apply_fields.
  - induction ms as [|m ms IH]; intros e; [reflexivity|].
    change (Memory.run (m :: ms) e) with (Memory.run ms (Memory.apply m e)).
    rewrite IH. apply memory_apply_fields.
  - intros id e. apply json_get_data.
  - intros id e. apply memory_get_data.
  - intros [e dk]. unfold JSON.compact. destruct (alloc_all _ _) as [ls h]. cbn [fst].
    now rewrite json_rebuild_all_fields.
  - intros e. unfold Memory.compact. destruct (Memory.compact_scan _ _ _) as [h m].
    cbn [fst]. now rewrite memory_rebuild_all_fields.
  - intros [recs|] [e dk]; unfold JSON.restore; [|reflexivity].
    destruct (alloc_all _ _) as [ls h]. cbn [fst]. now rewrite json_rebuild_all_fields.
  - intros now fresh [recs|] e; unfold Memory.restore; [|reflexivity].
    destruct (Memory.restore_scan _ _ _ _ _ _) as [h m]. cbn [fst].
    now rewrite memory_rebuild_all_fields.
Qed.

(** ** Further properties of the in-memory engine *)

Lemma memory_rebuild_scan_spec (field : string) (ents : list (value * object)) :
  forall ix : index,
    map_ok ix ->
    map_ok (Memory.rebuild_scan field ents ix)
    /\ forall v id, maps_to (Memory.rebuild_scan field ents ix) v id
                    <-> maps_to ix v id \/ memory_indexed_by field ents v id.
Proof.
  unfold memory_indexed_by.
  induction ents as [|[k r] rest IH]; intros ix Hok; simpl.
  - split; [assumption|]. intros v id. split; [auto|]. intros [H|(r & [] & _)]. assumption.
  - destruct (deleted r) eqn:Hd; [|destruct (strict_eq (prop r field) VUndef) eqn:Hu; simpl].
    + destruct (IH ix Hok) as [H1 H2]. split; [assumption|]. intros v id. rewrite H2.
      split; [intros [H|(r' & Hin & H)]; [now left|right; exists r'; auto]|].
      intros [H|(r' & Hor & H')]; [now left|].
      destruct Hor as [Heq|Hin]; [|right; exists r'; auto].
      injection Heq as <- <-. destruct H' as (H' & _). congruence.
    + destruct (IH ix Hok) as [H1 H2]. split; [assumption|]. intros v id. rewrite H2.
      split; [intros [H|(r' & Hin & H)]; [now left|right; exists r'; auto]|].
      intros [H|(r' & Hor & H')]; [now left|].
      destruct Hor as [Heq|Hin]; [|right; exists r'; auto].
      injection Heq as <- <-. destruct H' as (_ & H' & _). congruence.
    + destruct (index_add_spec ix (prop r field) k Hok) as [Hok' Hadd].
      destruct (IH _ Hok') as [H1 H2]. split; [assumption|]. intros v id.
      rewrite H2, Hadd. split.
      * intros [[H|[H3 ->]]|(r' & Hin & H)]; [now left| |right; exists r'; auto].
        right. exists r. auto.
      * intros [H|(r' & Hor & H')]; [left; now left|].
        destruct Hor as [Heq|Hin]; [|right; exists r'; auto].
        injection Heq as <- <-. destruct H' as (_ & _ & H3). left. right. auto.
Qed.

Lemma memory_createIndex_new (field : string) (e : Memory.engine) :
  is_indexed field (Memory.indexes e) = false ->
  Memory.createIndex field e
  = Memory.with_indexes e
      (Memory.indexes e ++ [(field, Memory.rebuild_scan field (Memory.records e) [])]).
Proof.
  intros H. unfold Memory.createIndex. fold (is_indexed field (Memory.indexes e)). rewrite H.
  unfold Memory.rebuildIndex. cbn [Memory.indexes Memory.with_indexes].
  change (Memory.records (Memory.with_indexes e (Memory.indexes e ++ [(field, [])])))
    with (Memory.records e).
  now rewrite map_new_index.
Qed.

(** X9: [createIndex] on the in-memory engine. On a field without an
    index it adds one index, the last, and leaves the others, the records
    and the cache alone; the new index is a [Map] that files a key of
    [data] under a value exactly when the record stored under the key is
    not deleted and has the value, not [undefined], as the field. A second
    [createIndex] on the field changes nothing. *)
Theorem memory_createIndex_files_the_keys (field : string) (e : Memory.engine) :
  is_indexed field (Memory.indexes e) = false ->
  let e' := Memory.createIndex field e in
  let ix := index_of (Memory.indexes e') field in
  indexed_fields (Memory.indexes e') = indexed_fields (Memory.indexes e) ++ [field]
  /\ (forall f, f <> field ->
        index_of (Memory.indexes e') f = index_of (Memory.indexes e) f)
  /\ map_ok ix
  /\ (forall v id, maps_to ix v id <-> memory_indexed_by field (Memory.records e) v id)
  /\ Memory.data e' = Memory.data e /\ Memory.objects e' = Memory.objects e
  /\ Memory.cache e' = Memory.cache e
  /\ Memory.createIndex field e' = e'.
Proof.
  intros Hno. cbv zeta. rewrite (memory_createIndex_new _ _ Hno).
  cbn [Memory.indexes Memory.with_indexes Memory.data Memory.objects Memory.cache].
  assert (Hix : index_of (Memory.indexes e
                          ++ [(field, Memory.rebuild_scan field (Memory.records e) [])]) field
                = Memory.rebuild_scan field (Memory.records e) []).
  { rewrite index_of_app, Hno. simpl. now rewrite String.eqb_refl. }
  rewrite Hix.
  destruct (memory_rebuild_scan_spec field (Memory.records e) [] I) as [Hok Hmap].
  split; [unfold indexed_fields; now rewrite map_app|].
  split.
  { intros f Hf. rewrite index_of_app.
    destruct (is_indexed f (Memory.indexes e)) eqn:E; [reflexivity|].
    simpl. destruct (String.eqb field f) eqn:E2.
    - apply String.eqb_eq in E2. congruence.
    - symmetry. now apply index_of_absent. }
  split; [assumption|].
  split.
  { intros v id. rewrite Hmap. split; [|auto].
    intros [(s & Hs & _)|H]; [discriminate|assumption]. }
  split; [reflexivity|]. split; [reflexivity|]. split; [reflexivity|].
  unfold Memory.createIndex. cbn [Memory.indexes Memory.with_indexes].
  fold (is_indexed field (Memory.indexes e
          ++ [(field, Memory.rebuild_scan field (Memory.records e) [])])).
  rewrite is_indexed_app. unfold is_indexed at 2. simpl. rewrite String.eqb_refl.
  now rewrite orb_true_r.
Qed.

Lemma memory_createIndex_witness :
  maps_to (index_of (Memory.indexes (Memory.createIndex "x" Scenario.memory_one)) "x")
    (VNum 1) (VStr "a").
Proof.
  apply (proj1 (proj2 (proj2 (proj2
           (memory_createIndex_files_the_keys "x" Scenario.memory_one eq_refl))))).
  eexists. split; [left; reflexivity|]. repeat split.
Defined.

Lemma memory_stamp_id now fresh (d : object) :
  prop (Memory.stamp now fresh d) "id"
  = (if truthy (prop d "id") then prop d "id" else VStr fresh).
Proof.
  unfold Memory.stamp. rewrite !prop_set_prop_other by reflexivity.
  destruct (truthy (prop d "id")); simpl; [reflexivity|apply prop_set_prop_same].
Qed.

Lemma map_set_present {A : Type} (m : jsmap A) k (x y : A) :
  map_get m k = Some y -> length (map_set m k x) = length m.
Proof.
  induction m as [|[k0 x0] m IH]; simpl; [discriminate|].
  destruct (strict_eq k0 k); simpl; [reflexivity|]. intros H. now rewrite IH.
Qed.

Lemma memory_insert_engine now fresh d (e : Memory.engine) :
  let e' := fst (Memory.insert now fresh d e) in
  let id := prop (Memory.stamp now fresh d) "id" in
  snd (Memory.insert now fresh d e) = length (Memory.objects e)
  /\ Memory.objects e' = Memory.objects e ++ [Memory.stamp now fresh d]
  /\ Memory.data e' = map_set (Memory.data e) id (length (Memory.objects e))
  /\ Memory.cache e'
     = setToCache (Memory.cacheSize e) (Memory.cache e) id (length (Memory.objects e)).
Proof. unfold Memory.insert, alloc. simpl. auto. Qed.

(** X10: [insert] followed by [get] on the in-memory engine, the payload's
    id being a primitive value or absent. [get] returns the record
    [insert] returned, which is the stamped payload, and [data] holds it
    under its id. The entries under other ids are untouched, and the number
    of entries grows by one only when the id was not stored: an insert
    under a stored id replaces the record. *)
Theorem memory_insert_then_get (now fresh : string) (d : object) (e : Memory.engine) :
  is_primitive (prop d "id") = true ->
  let e1 := fst (Memory.insert now fresh d e) in
  let l := snd (Memory.insert now fresh d e) in
  let id := prop (Memory.stamp now fresh d) "id" in
  deref (Memory.objects e1) l = Memory.stamp now fresh d
  /\ id = (if truthy (prop d "id") then prop d "id" else VStr fresh)
  /\ snd (Memory.get id e1) = Some l
  /\ map_get (Memory.data e1) id = Some l
  /\ (forall k, strict_eq id k = false ->
        map_get (Memory.data e1) k = map_get (Memory.data e) k)
  /\ length (Memory.data e1)
     = match map_get (Memory.data e) id with
       | Some _ => length (Memory.data e)
       | None => S (length (Memory.data e))
       end.
Proof.
  intros Hp. cbv zeta.
  destruct (memory_insert_engine now fresh d e) as (Hl & Ho & Hd & Hca).
  rewrite Hl, Ho, Hd.
  assert (Hid : is_primitive (prop (Memory.stamp now fresh d) "id") = true).
  { rewrite memory_stamp_id. now destruct (truthy (prop d "id")). }
  split; [apply deref_alloc_new|]. split; [apply memory_stamp_id|].
  split.
  { unfold Memory.get, getFromCache. rewrite Hca. unfold setToCache.
    now rewrite map_get_set_same. }
  split; [now apply map_get_set_same|].
  split; [intros k Hk; now apply map_get_set_other|].
  destruct (map_get (Memory.data e) (prop (Memory.stamp now fresh d) "id")) eqn:E.
  - eapply map_set_present. eassumption.
  - rewrite map_set_absent by assumption. rewrite length_app. simpl. lia.
Qed.

Lemma memory_insert_then_get_witness :
  length (Memory.data (fst (Memory.insert "t2" "u2" Scenario.a2 Scenario.memory_one)))
  = length (Memory.data Scenario.memory_one).
Proof.
  exact (proj2 (proj2 (proj2 (proj2 (proj2
           (memory_insert_then_get "t2" "u2" Scenario.a2 Scenario.memory_one eq_refl)))))).
Defined.


Lemma compact_scan_ok (ents : list (value * object)) :
  forall h m, map_ok m -> map_ok (snd (Memory.compact_scan ents h m)).
Proof.
  induction ents as [|[k r] ents IH]; intros h m Hm; simpl; [assumption|].
  destruct (negb (deleted r)); [|now apply IH].
  unfold alloc. apply IH. now apply map_set_ok.
Qed.




Lemma distinct_drop (l1 l2 : list value) (k : value) :
  distinct (l1 ++ k :: l2) -> distinct (l1 ++ l2).
Proof.
  induction l1 as [|k0 l1 IH]; simpl; [tauto|].
  intros [H1 H2]. split; [|now apply IH].
  intros k' Hin. apply H1. apply in_app_or in Hin. apply in_or_app.
  destruct Hin as [Hin|Hin]; [now left|right; now right].
Qed.

Lemma compact_scan_spec (ents : list (value * object)) :
  forall h m h' m',
    distinct (map_keys m ++ map fst ents) ->
    (forall l, In l (map snd m) -> (l < length h)%nat) ->
    Memory.compact_scan ents h m = (h', m') ->
    map (fun kl : value * loc => (fst kl, deref h' (snd kl))) m'
    = map (fun kl : value * loc => (fst kl, deref h (snd kl))) m
      ++ map (fun ir : value * object => (fst ir, Memory.clean (snd ir)))
           (filter (fun ir : value * object => negb (deleted (snd ir))) ents).
Proof.
  induction ents as [|[k r] ents IH]; intros h m h' m' Hd Hm; simpl.
  - intros [= <- <-]. now rewrite app_nil_r.
  - destruct (negb (deleted r)) eqn:Hl; simpl.
    + unfold alloc. intros Hscan.
      assert (Habs : map_get m k = None).
      { apply map_get_absent. intros k' Hk'. now apply (distinct_before _ _ _ Hd). }
      apply IH in Hscan.
      * rewrite Hscan. rewrite (map_set_absent _ _ _ Habs).
        rewrite !map_app, <- app_assoc. simpl. f_equal.
        -- apply map_ext_in. intros [k0 l0] Hin. simpl. f_equal.
           unfold deref. rewrite app_nth1; [reflexivity|].
           apply Hm. apply in_map_iff. exists (k0, l0). auto.
        -- f_equal. f_equal. unfold deref. now rewrite nth_middle.
      * rewrite (map_set_absent _ _ _ Habs). unfold map_keys in *.
        rewrite map_app, <- app_assoc. exact Hd.
      * rewrite (map_set_absent _ _ _ Habs). rewrite map_app, length_app. simpl.
        intros l Hin. apply in_app_or in Hin.
        destruct Hin as [Hin|[<-|[]]]; [specialize (Hm l Hin)|]; lia.
    + intros Hscan. apply IH in Hscan; [assumption| |assumption].
      now apply distinct_drop in Hd.
Qed.

Lemma memory_records_keys (e : Memory.engine) :
  map fst (Memory.records e) = map_keys (Memory.data e).
Proof. unfold Memory.records, map_keys. rewrite map_map. reflexivity. Qed.

Lemma memory_compact_records (e : Memory.engine) :
  map_ok (Memory.data e) ->
  Memory.records (fst (Memory.compact e))
  = map (fun ir : value * object => (fst ir, Memory.clean (snd ir)))
      (filter (fun ir : value * object => negb (deleted (snd ir))) (Memory.records e)).
Proof.
  intros Hok. unfold Memory.compact.
  destruct (Memory.compact_scan (Memory.records e) (Memory.objects e) []) as [h m] eqn:E.
  cbn [fst]. unfold Memory.records at 1.
  destruct (memory_rebuild_all_keeps (Memory.with_cache (Memory.with_data e h m) []))
    as (-> & ->).
  cbn [Memory.objects Memory.data Memory.with_cache Memory.with_data].
  apply compact_scan_spec in E.
  - exact E.
  - simpl. rewrite memory_records_keys. exact Hok.
  - intros l [].
Qed.

Lemma memory_clean_clean (o : object) :
  Memory.clean (Memory.clean o) = Memory.clean o
  /\ deleted (Memory.clean o) = false
  /\ has_prop (Memory.clean o) "_created" = false
  /\ has_prop (Memory.clean o) "_updated" = false
  /\ has_prop (Memory.clean o) "_deleted" = false
  /\ has_prop (Memory.clean o) "_deleted_at" = false
  /\ (forall k, k <> "_created" -> k <> "_updated" -> k <> "_deleted" ->
                k <> "_deleted_at" -> prop (Memory.clean o) k = prop o k).
Proof.
  assert (H1 : has_prop (Memory.clean o) "_created" = false).
  { unfold Memory.clean. rewrite !has_prop_remove_prop_other by reflexivity.
    apply has_prop_remove_prop_same. }
  assert (H2 : has_prop (Memory.clean o) "_updated" = false).
  { unfold Memory.clean. rewrite !has_prop_remove_prop_other by reflexivity.
    apply has_prop_remove_prop_same. }
  assert (H3 : has_prop (Memory.clean o) "_deleted" = false).
  { unfold Memory.clean. rewrite !has_prop_remove_prop_other by reflexivity.
    apply has_prop_remove_prop_same. }
  assert (H4 : has_prop (Memory.clean o) "_deleted_at" = false).
  { unfold Memory.clean. apply has_prop_remove_prop_same. }
  split; [|split; [|repeat split; try assumption]].
  - unfold Memory.clean at 1.
    rewrite (remove_prop_absent _ _ H1), (remove_prop_absent _ _ H2),
      (remove_prop_absent _ _ H3). now apply remove_prop_absent.
  - unfold deleted. now rewrite (has_prop_false_prop _ _ H3).
  - intros k K1 K2 K3 K4. unfold Memory.clean.
    rewrite !prop_remove_prop_other; [reflexivity| | | |]; apply String.eqb_neq; auto.
Qed.

(** X12: [compact()] on the in-memory engine, [data] holding every id
    once. It leaves the entries whose record is not deleted, in their
    order and under their keys, each record without its four bookkeeping
    properties and otherwise as it was, and it empties the cache. Run
    again at once it leaves the same entries. *)
Theorem memory_compact_keeps_the_live_entries (e : Memory.engine) :
  map_ok (Memory.data e) ->
  let e1 := fst (Memory.compact e) in
  Memory.records e1
  = map (fun ir : value * object => (fst ir, Memory.clean (snd ir)))
      (filter (fun ir : value * object => negb (deleted (snd ir))) (Memory.records e))
  /\ (forall id r, In (id, r) (Memory.records e1) ->
        deleted r = false /\ has_prop r "_created" = false
        /\ has_prop r "_updated" = false /\ has_prop r "_deleted" = false
        /\ has_prop r "_deleted_at" = false)
  /\ (forall o k, k <> "_created" -> k <> "_updated" -> k <> "_deleted" ->
                  k <> "_deleted_at" -> prop (Memory.clean o) k = prop o k)
  /\ Memory.cache e1 = []
  /\ Memory.records (fst (Memory.compact e1)) = Memory.records e1.
Proof.
  intros Hok. cbv zeta.
  assert (Hlive : forall id r,
             In (id, r) (Memory.records (fst (Memory.compact e))) ->
             deleted r = false /\ has_prop r "_created" = false
             /\ has_prop r "_updated" = false /\ has_prop r "_deleted" = false
             /\ has_prop r "_deleted_at" = false).
  { intros id r Hin. rewrite (memory_compact_records e Hok) in Hin.
    apply in_map_iff in Hin. destruct Hin as ([id0 r0] & [= <- <-] & _).
    destruct (memory_clean_clean r0) as (_ & H0 & H1 & H2 & H3 & H4 & _). auto. }
  split; [now apply memory_compact_records|]. split; [exact Hlive|].
  split; [intros o; apply memory_clean_clean|].
  split.
  { unfold Memory.compact. destruct (Memory.compact_scan _ _ _) as [h m]. cbn [fst].
    now rewrite memory_rebuild_all_cache. }
  assert (Hok1 : map_ok (Memory.data (fst (Memory.compact e)))).
  { unfold Memory.compact.
    pose proof (compact_scan_ok (Memory.records e) (Memory.objects e) [] I) as H.
    destruct (Memory.compact_scan _ _ _) as [h m]. cbn [fst snd] in *.
    now destruct (memory_rebuild_all_keeps (Memory.with_cache (Memory.with_data e h m) []))
      as (_ & ->). }
  rewrite (memory_compact_records _ Hok1).
  rewrite filter_all.
  - rewrite (memory_compact_records e Hok). rewrite map_map. apply map_ext.
    intros [id r]. simpl. f_equal. apply memory_clean_clean.
  - intros [id r] Hin. simpl. destruct (Hlive id r Hin) as (-> & _). reflexivity.
Qed.

Lemma memory_compact_witness :
  Memory.records Scenario.memory_emptied = [].
Proof.
  exact (proj1 (memory_compact_keeps_the_live_entries
                  (fst (Memory.delete "t2" (VStr "a") Scenario.memory_one))
                  ltac:(split; [intros k' []|exact I]))).
Defined.

Lemma map_get_unique {A : Type} (m : jsmap A) (k k' : value) (x : A) :
  map_ok m -> In (k, x) m -> strict_eq k k' = true -> map_get m k' = Some x.
Proof.
  unfold map_ok. induction m as [|[k0 x0] m IH]; simpl; [tauto|].
  intros [H1 H2] [[= -> ->]|Hin] E.
  - now rewrite E.
  - pose proof (strict_eq_true _ _ E) as <-.
    assert (H : strict_eq k0 k = false).
    { rewrite strict_eq_sym. apply H1. apply in_map_iff. exists (k, x). auto. }
    rewrite H. apply IH; assumption.
Qed.

Lemma filterM_true {A : Type} (p : A -> outcome bool) (l r : list A) :
  filterM p l = Returned r -> forall x, In x r -> p x = Returned true.
Proof.
  revert r. induction l as [|a l IH]; simpl; intros r.
  - intros [= <-] x [].
  - destruct (p a) as [b|err] eqn:Hp; simpl; [|discriminate].
    destruct (filterM p l) as [r'|err]; simpl; [|discriminate].
    intros [= <-] x Hin. destruct b.
    + destruct Hin as [<-|Hin]; [assumption|]. now apply (IH r').
    + now apply (IH r').
Qed.

(** X13: soft delete on the in-memory engine, from a state with a coherent
    cache in which [data] holds every id once. After an accepted
    [delete(id)]: [get(id)] returns [null]; the entry is still in [data],
    under the same key, its record marked deleted and stamped with the time
    of the deletion; the records under the other keys are untouched; no
    record that [find] returns is the deleted one; and [compact()] takes the
    entry out. *)
Theorem memory_soft_delete (e e1 : Memory.engine) (now : string) (id : value) :
  Memory.consistent e -> map_ok (Memory.data e) ->
  Memory.delete now id e = (e1, Returned true) ->
  snd (Memory.get id e1) = None
  /\ Memory.data e1 = Memory.data e
  /\ (exists l0, map_get (Memory.data e1) id = Some l0
                 /\ deleted (deref (Memory.objects e) l0) = false
                 /\ deref (Memory.objects e1) l0
                    = Memory.tombstone now (deref (Memory.objects e) l0)
                 /\ (forall rx q r, Memory.find rx q e1 = Returned r -> ~ In l0 r))
  /\ (forall k l, strict_eq id k = false -> map_get (Memory.data e) k = Some l ->
                  deref (Memory.objects e1) l = deref (Memory.objects e) l)
  /\ map_get (Memory.data (fst (Memory.compact e1))) id = None.
Proof.
  intros Hcons Hok Hdel. unfold Memory.delete in Hdel.
  destruct (Memory.get id e) as [e0 [l0|]] eqn:Hg; [|discriminate].
  destruct (memory_get_hit _ _ _ _ Hcons Hg) as (Hm & Hlive & Ho & Hd & _).
  pose proof (memory_get_consistent e id Hcons) as Hcons0. rewrite Hg in Hcons0.
  cbn [fst] in Hcons0. destruct Hcons0 as (Hokc & _).
  destruct Hcons as (_ & _ & Hnd & Halloc).
  cbv zeta in Hdel. injection Hdel as Hdel.
  set (h := heap_set (Memory.objects e0) l0
              (Memory.tombstone now (deref (Memory.objects e0) l0))) in *.
  assert (Ho1 : Memory.objects e1 = h) by (rewrite <- Hdel; reflexivity).
  assert (Hd1 : Memory.data e1 = Memory.data e) by (rewrite <- Hdel; exact Hd).
  assert (Hc1 : Memory.cache e1 = map_delete (Memory.cache e0) id)
    by (rewrite <- Hdel; reflexivity).
  clear Hdel.
  destruct (map_get_in _ _ _ Hm) as (k0 & Hin0 & Ek0).
  assert (Hl0 : (l0 < length (Memory.objects e))%nat).
  { apply Halloc. apply in_map_iff. exists (k0, l0). auto. }
  assert (Hderef : deref h l0 = Memory.tombstone now (deref (Memory.objects e) l0)).
  { unfold h. rewrite Ho. now apply deref_heap_set_same. }
  assert (Hdead : deleted (deref h l0) = true).
  { rewrite Hderef. apply (deleted_tombstone now). }
  split.
  { unfold Memory.get, getFromCache. rewrite Hc1.
    rewrite map_get_delete_same by assumption.
    rewrite Hd1, Hm, Ho1, Hdead. reflexivity. }
  split; [exact Hd1|].
  split.
  { exists l0. rewrite Hd1, Ho1. repeat split; try assumption.
    intros rx q r Hf Hin. unfold Memory.find in Hf.
    pose proof (filterM_true _ _ _ Hf l0 Hin) as Hp. cbv beta in Hp.
    rewrite Ho1, Hdead in Hp. discriminate. }
  split.
  { intros k l Hk Hl. rewrite Ho1. unfold h. rewrite Ho.
    apply deref_heap_set_other. intros <-.
    destruct (map_get_in _ _ _ Hl) as (k1 & Hin1 & Ek1).
    pose proof (NoDup_values_key _ _ _ _ Hnd Hin0 Hin1) as <-.
    apply strict_eq_true in Ek0. apply strict_eq_true in Ek1. subst. 
    rewrite strict_eq_refl in Hk; [discriminate|].
    now apply (map_get_some_primitive _ _ _ Hm). }
  apply map_get_absent. intros k' Hk'.
  rewrite <- memory_records_keys in Hk'.
  rewrite memory_compact_records in Hk' by (rewrite Hd1; exact Hok).
  rewrite map_map in Hk'. simpl in Hk'.
  apply in_map_iff in Hk'. destruct Hk' as ([k r] & <- & Hin). simpl.
  apply filter_In in Hin. destruct Hin as [Hin Hl]. simpl in Hl.
  unfold Memory.records in Hin. apply in_map_iff in Hin.
  destruct Hin as ([k2 l2] & [= <- <-] & Hin2). simpl in *.
  destruct (strict_eq k2 id) eqn:E; [|reflexivity]. exfalso.
  rewrite Hd1 in Hin2.
  pose proof (map_get_unique _ _ _ _ Hok Hin2 E) as Hm2.
  rewrite Hm in Hm2. injection Hm2 as <-.
  rewrite Ho1, Hdead in Hl. discriminate.
Qed.

Lemma memory_one_consistent : Memory.consistent Scenario.memory_one.
Proof.
  unfold Memory.consistent, Memory.cache_coherent.
  change (Memory.cache Scenario.memory_one) with [(VStr "a", 0%nat)].
  change (Memory.data Scenario.memory_one) with [(VStr "a", 0%nat)].
  split; [|split; [|split]].
  - split; [intros k' []|exact I].
  - intros k l H. split; [assumption|].
    unfold map_get in H. destruct (strict_eq (VStr "a") k); [|discriminate].
    injection H as <-. reflexivity.
  - simpl. constructor; [intros []|constructor].
  - intros l [<-|[]]. vm_compute. lia.
Qed.

Lemma memory_soft_delete_witness :
  snd (Memory.get (VStr "a") (fst (Memory.delete "t2" (VStr "a") Scenario.memory_one)))
  = None.
Proof.
  exact (proj1 (memory_soft_delete Scenario.memory_one _ "t2" (VStr "a")
                  memory_one_consistent ltac:(split; [intros k' []|exact I]) eq_refl)).
Defined.

(** ** QueryBuilder *)





Section Arrange.
Import QueryBuilder.

(** [execute] is [arrange] on what [find] returned. *)
Lemma execute_found rx b c rs :
  found rx b c = Collection.Done rs ->
  forall o, execute rx (with_opts b o) c = Collection.Done (arrange o rs).
Proof.
  intros H o. unfold execute.
  change (found rx (with_opts b o) c) with (found rx b c). now rewrite H.
Qed.









End Arrange.


Section Projection.
Import QueryBuilder.




End Projection.

Section Sorting.
Context {A : Type} (compare : A -> A -> Z).





End Sorting.

Section SortedExecute.
Import QueryBuilder.



End SortedExecute.

Section FirstAndCount.
Import QueryBuilder.






(** X18: [where] merges by field. After [where(q)] the query holds, for a
    field of [q], the constraint [q] gives and no more the constraint an
    earlier [where] gave for that field, and for every other field what it
    held: two calls on the same field are not a conjunction, the later
    replaces the earlier. *)
Theorem where_replaces_by_field (q : object) (b : builder) :
  NoDup (map fst q) ->
  forall f, prop (query (where_ q b)) f
            = if has_prop q f then prop q f else prop (query b) f.
Proof.
  intros Hnd f. unfold where_. cbn [query].
  destruct (has_prop q f) eqn:E.
  - now apply prop_spread_present.
  - now apply prop_spread_absent.
Qed.

Lemma where_replaces_witness :
  prop (query (where_ [("pages", VObj [("$lt", VNum 250)])]
                 (where_ [("pages", VObj [("$gt", VNum 150)])] create))) "pages"
  = VObj [("$lt", VNum 250)].
Proof.
  exact (where_replaces_by_field [("pages", VObj [("$lt", VNum 250)])]
           (where_ [("pages", VObj [("$gt", VNum 150)])] create)
           ltac:(repeat constructor; intros []) "pages").
Defined.
End FirstAndCount.

Section CollectionGuard.
Import Collection.


End CollectionGuard.

(** ** SessionManager *)

Section Sessions.
Import SessionManager.

Lemma strict_eq_str (a : string) : strict_eq (VStr a) (VStr a) = true.
Proof. simpl. apply String.eqb_refl. Qed.

(** X20: a session from its creation to its expiry. The session
    [createSession] stores is read back by [getSession] under the id
    returned, with the data given, the time of creation and the expiry set
    at creation (the clock then plus [maxAge]), at every clock reading up
    to the expiry, the expiry included; the read stamps [lastAccessed].
    At the first read after the expiry [getSession] returns [null] and
    takes the session out of the [Map]. *)
Theorem session_round_trip (t1 t2 t3 : Z) (fresh : string) (d : object) (m : manager)
    (u1 u2 : Z) :
  let m1 := fst (createSession t1 t2 t3 fresh d m) in
  let sid := snd (createSession t1 t2 t3 fresh d m) in
  sid = fresh
  /\ (u1 <= t3 + maxAge m ->
      snd (getSession u1 u2 (VStr sid) m1)
      = Some {| id := fresh; data := d; createdAt := t1; lastAccessed := u2;
                expiresAt := t3 + maxAge m |}
      /\ map_get (sessions (fst (getSession u1 u2 (VStr sid) m1))) (VStr sid)
         = Some {| id := fresh; data := d; createdAt := t1; lastAccessed := u2;
                   expiresAt := t3 + maxAge m |})
  /\ (t3 + maxAge m < u1 ->
      snd (getSession u1 u2 (VStr sid) m1) = None
      /\ (map_ok (sessions m) ->
          map_get (sessions (fst (getSession u1 u2 (VStr sid) m1))) (VStr sid) = None)).
Proof.
  cbv zeta. unfold createSession. cbn [fst snd].
  split; [reflexivity|].
  assert (Hg : map_get (map_set (sessions m) (VStr fresh)
                          {| id := fresh; data := d; createdAt := t1; lastAccessed := t2;
                             expiresAt := t3 + maxAge m |}) (VStr fresh)
               = Some {| id := fresh; data := d; createdAt := t1; lastAccessed := t2;
                         expiresAt := t3 + maxAge m |})
    by now apply map_get_set_same.
  split.
  - intros Hu. unfold getSession. cbn [sessions with_sessions]. rewrite Hg.
    cbn [expiresAt]. destruct (t3 + maxAge m <? u1) eqn:E; [lia|].
    cbn [fst snd sessions with_sessions]. split; [reflexivity|].
    now apply map_get_set_same.
  - intros Hu. unfold getSession. cbn [sessions with_sessions]. rewrite Hg.
    cbn [expiresAt]. destruct (t3 + maxAge m <? u1) eqn:E; [|lia].
    cbn [fst snd sessions with_sessions]. split; [reflexivity|].
    intros Hok. apply map_get_delete_same. now apply map_set_ok.
Qed.

Lemma session_round_trip_witness :
  snd (getSession 150 151 (VStr "s1")
         (fst (createSession 100 100 100 "s1" [("user", VStr "ann")] (create (VNum 50)))))
  = Some {| id := "s1"; data := [("user", VStr "ann")]; createdAt := 100;
            lastAccessed := 151; expiresAt := 150 |}.
Proof.
  exact (proj1 (proj1 (proj2 (session_round_trip 100 100 100 "s1" [("user", VStr "ann")]
                                (create (VNum 50)) 150 151)) ltac:(simpl; lia))).
Defined.

Lemma map_set_In {A : Type} (m : jsmap A) k (x : A) k' x' :
  In (k', x') (map_set m k x) -> (k' = k /\ x' = x) \/ In (k', x') m.
Proof.
  induction m as [|[k0 x0] m IH]; simpl.
  - intros [[= <- <-]|[]]. now left.
  - destruct (strict_eq k0 k) eqn:E; simpl.
    + intros [[= <- <-]|H]; [|right; now right].
      left. split; [now apply strict_eq_true|reflexivity].
    + intros [H|H]; [right; now left|]. destruct (IH H) as [H'|H']; [now left|right; now right].
Qed.

Lemma map_delete_In {A : Type} (m : jsmap A) k k' (x' : A) :
  In (k', x') (map_delete m k) -> In (k', x') m.
Proof.
  induction m as [|[k0 x0] m IH]; simpl; [tauto|].
  destruct (strict_eq k0 k); simpl; [now right|].
  intros [H|H]; [now left|right; now apply IH].
Qed.

Lemma map_delete_middle {A : Type} (pre l : jsmap A) k (x : A) :
  (forall k', In k' (map_keys pre) -> strict_eq k' k = false) ->
  is_primitive k = true ->
  map_delete (pre ++ (k, x) :: l) k = pre ++ l.
Proof.
  intros Hpre Hp. induction pre as [|[k0 x0] pre IH]; simpl.
  - now rewrite strict_eq_refl.
  - rewrite (Hpre k0) by now left. rewrite IH; [reflexivity|].
    intros k' Hk'. apply Hpre. now right.
Qed.

Lemma cleanup_fold (now : Z) (l : jsmap session) :
  forall pre,
    map_ok (pre ++ l) -> (forall k s, In (k, s) l -> is_primitive k = true) ->
    fold_left
      (fun (ss : jsmap session) (entry : value * session) =>
         if expiresAt (snd entry) <? now then map_delete ss (fst entry) else ss)
      l (pre ++ l)
    = pre ++ filter (fun entry : value * session => negb (expiresAt (snd entry) <? now)) l.
Proof.
  induction l as [|[k s] l IH]; intros pre Hok Hp; simpl; [reflexivity|].
  destruct (expiresAt s <? now) eqn:E; simpl.
  - rewrite map_delete_middle.
    + apply IH; [|intros k' s' H; apply (Hp k' s'); now right].
      unfold map_ok, map_keys in *. rewrite map_app in *. simpl in Hok.
      now apply distinct_drop in Hok.
    + intros k' Hk'. unfold map_ok, map_keys in Hok. rewrite map_app in Hok. simpl in Hok.
      now apply (distinct_before _ _ _ Hok).
    + apply (Hp k s). now left.
  - change (pre ++ (k, s) :: l) with (pre ++ [(k, s)] ++ l). rewrite app_assoc.
    rewrite IH; [now rewrite <- app_assoc| |intros k' s' H; apply (Hp k' s'); now right].
    now rewrite <- app_assoc.
Qed.

Lemma cleanup_filter (now : Z) (m : manager) :
  well_formed m ->
  sessions (cleanup now m)
  = filter (fun entry : value * session => negb (expiresAt (snd entry) <? now)) (sessions m).
Proof.
  intros [Hok Hid]. unfold cleanup. cbn [sessions with_sessions].
  apply (cleanup_fold now (sessions m) []); [assumption|].
  intros k s Hin. now rewrite (Hid k s Hin).
Qed.

Lemma filter_distinct {A : Type} (p : value * A -> bool) (m : jsmap A) :
  map_ok m -> map_ok (filter p m).
Proof.
  unfold map_ok, map_keys. induction m as [|[k x] m IH]; simpl; [tauto|].
  intros [H1 H2]. destruct (p (k, x)); simpl; [|now apply IH].
  split; [|now apply IH]. intros k' Hk'. apply H1.
  apply in_map_iff in Hk'. destruct Hk' as ([k0 x0] & <- & Hin).
  apply filter_In in Hin. apply in_map_iff. exists (k0, x0). tauto.
Qed.

Lemma getSession_entry (t1 t2 : Z) (sid : value) (m : manager) k s :
  well_formed m -> In (k, s) (sessions (fst (getSession t1 t2 sid m))) ->
  exists s0, In (k, s0) (sessions m) /\ id s = id s0 /\ createdAt s = createdAt s0
             /\ expiresAt s = expiresAt s0.
Proof.
  intros [Hok Hid]. unfold getSession.
  destruct (map_get (sessions m) sid) as [s0|] eqn:Hg; [|cbn [fst]; eauto].
  destruct (expiresAt s0 <? t1); cbn [fst sessions with_sessions].
  - intros H. apply map_delete_In in H. eauto.
  - intros H. apply map_set_In in H. destruct H as [[-> ->]|H]; [|eauto].
    destruct (map_get_in _ _ _ Hg) as (k0 & Hin & E). apply strict_eq_true in E. subst k0.
    exists s0. auto.
Qed.

Lemma getSession_well_formed (t1 t2 : Z) (sid : value) (m : manager) :
  well_formed m -> well_formed (fst (getSession t1 t2 sid m)).
Proof.
  intros Hwf. split.
  - destruct Hwf as [Hok _]. unfold getSession.
    destruct (map_get (sessions m) sid) as [s0|]; [|assumption].
    destruct (expiresAt s0 <? t1); cbn [fst sessions with_sessions];
      [now apply map_delete_ok|now apply map_set_ok].
  - intros k s Hin. destruct (getSession_entry _ _ _ _ _ _ Hwf Hin) as (s0 & Hin0 & -> & _).
    destruct Hwf as [_ Hid]. now apply Hid.
Qed.

Lemma getSession_found (t1 t2 : Z) (sid : value) (m m1 : manager) (s : session) :
  getSession t1 t2 sid m = (m1, Some s) ->
  exists s0, map_get (sessions m) sid = Some s0 /\ s = touch t2 s0
             /\ (expiresAt s0 <? t1) = false
             /\ sessions m1 = map_set (sessions m) sid s.
Proof.
  unfold getSession. destruct (map_get (sessions m) sid) as [s0|]; [|discriminate].
  destruct (expiresAt s0 <? t1) eqn:E; [discriminate|]. intros [= <- <-].
  exists s0. auto.
Qed.

Lemma step_entry (a : action) (m : manager) k s :
  well_formed m -> In (k, s) (sessions (step a m)) ->
  exists s0, In (k, s0) (sessions m) /\ id s = id s0 /\ createdAt s = createdAt s0
             /\ expiresAt s = expiresAt s0.
Proof.
  intros Hwf. destruct a as [t1 t2 sid|t1 t2 sid d|sid|now]; unfold step.
  - now apply getSession_entry.
  - unfold updateSession. destruct (getSession t1 t2 sid m) as [m1 [s1|]] eqn:Hg.
    + cbn [fst sessions with_sessions]. intros H. apply map_set_In in H.
      pose proof (getSession_entry t1 t2 sid m) as He. rewrite Hg in He. cbn [fst] in He.
      destruct H as [[-> ->]|H]; [|now apply He].
      destruct (getSession_found _ _ _ _ _ _ Hg) as (s0 & Hm & -> & _ & _).
      destruct (map_get_in _ _ _ Hm) as (k0 & Hin & E). apply strict_eq_true in E. subst k0.
      exists s0. auto.
    + cbn [fst]. pose proof (getSession_entry t1 t2 sid m) as He. rewrite Hg in He.
      now apply He.
  - cbn [destroySession fst sessions with_sessions]. intros H. apply map_delete_In in H. eauto.
  - rewrite cleanup_filter by assumption. intros H. apply filter_In in H. destruct H as [H _]. eauto.
Qed.

Lemma step_well_formed (a : action) (m : manager) :
  well_formed m -> well_formed (step a m).
Proof.
  intros Hwf. split.
  - destruct a as [t1 t2 sid|t1 t2 sid d|sid|now]; unfold step.
    + now apply getSession_well_formed.
    + unfold updateSession. pose proof (getSession_well_formed t1 t2 sid m Hwf) as [H _].
      destruct (getSession t1 t2 sid m) as [m1 [s1|]]; cbn [fst sessions with_sessions] in *;
        [now apply map_set_ok|assumption].
    + cbn [destroySession fst sessions with_sessions]. apply map_delete_ok. apply Hwf.
    + rewrite cleanup_filter by assumption. apply filter_distinct. apply Hwf.
  - intros k s Hin. destruct (step_entry _ _ _ _ Hwf Hin) as (s0 & Hin0 & -> & _).
    destruct Hwf as [_ Hid]. now apply Hid.
Qed.

Lemma run_well_formed (acts : list action) (m : manager) :
  well_formed m -> well_formed (run acts m).
Proof.
  revert m. induction acts as [|a acts IH]; intros m Hwf; [assumption|].
  apply IH. now apply step_well_formed.
Qed.

Lemma createSession_well_formed t1 t2 t3 fresh d (m : manager) :
  well_formed m -> well_formed (fst (createSession t1 t2 t3 fresh d m)).
Proof.
  intros [Hok Hid]. unfold createSession. cbn [fst sessions with_sessions]. split.
  - now apply map_set_ok.
  - intros k s Hin. apply map_set_In in Hin. destruct Hin as [[-> ->]|Hin]; [reflexivity|].
    now apply Hid.
Qed.

Lemma create_well_formed (v : value) : well_formed (create v).
Proof. split; [exact I|intros k s []]. Qed.

(** X21: the [Map] of the sessions holds every session once, under its
    id. This is so in a new manager and stays so through [createSession],
    [getSession], [updateSession], [destroySession] and [cleanup], in any
    order and at any clock. *)
Theorem sessions_are_kept_under_their_ids :
  (forall v, well_formed (create v))
  /\ (forall t1 t2 t3 fresh d m,
        well_formed m -> well_formed (fst (createSession t1 t2 t3 fresh d m)))
  /\ (forall acts m, well_formed m -> well_formed (run acts m)).
Proof.
  split; [exact create_well_formed|]. split.
  - intros. now apply createSession_well_formed.
  - intros. now apply run_well_formed.
Qed.

Lemma sessions_are_kept_witness :
  well_formed
    (run [Get 10 11 (VStr "s1"); Cleanup 500]
       (fst (createSession 1 1 1 "s1" [] (create VUndef)))).
Proof.
  apply (proj2 (proj2 sessions_are_kept_under_their_ids)).
  apply (proj1 (proj2 sessions_are_kept_under_their_ids)).
  apply (proj1 sessions_are_kept_under_their_ids).
Defined.

Lemma map_get_filter {A : Type} (p : A -> bool) (m : jsmap A) k (x : A) :
  map_ok m -> map_get m k = Some x ->
  map_get (filter (fun e : value * A => p (snd e)) m) k = if p x then Some x else None.
Proof.
  unfold map_ok, map_keys. induction m as [|[k0 x0] m IH]; simpl; [discriminate|].
  intros [H1 H2]. destruct (strict_eq k0 k) eqn:E.
  - intros [= ->]. destruct (p x); simpl; [now rewrite E|].
    apply map_get_absent. intros k' Hk'. apply strict_eq_true in E. subst k0.
    apply H1. unfold map_keys in Hk'. apply in_map_iff in Hk'.
    destruct Hk' as ([k1 x1] & <- & Hin). apply filter_In in Hin.
    apply in_map_iff. exists (k1, x1). tauto.
  - intros Hg. destruct (p x0); simpl; [rewrite E|]; now apply IH.
Qed.

Lemma map_get_filter_none {A : Type} (p : value * A -> bool) (m : jsmap A) k :
  map_get m k = None -> map_get (filter p m) k = None.
Proof.
  induction m as [|[k0 x0] m IH]; simpl; [reflexivity|].
  destruct (strict_eq k0 k) eqn:E; [discriminate|]. intros Hg.
  destruct (p (k0, x0)); simpl; [rewrite E|]; now apply IH.
Qed.

(** X22: [cleanup()], on a [Map] that holds every session once under its
    id. It takes out the sessions whose expiry is before the clock
    reading, all of them, and no other: the sessions left are those that
    are not expired, in their order, each as it was; a session whose
    expiry is the clock reading itself stays. *)
Theorem cleanup_removes_the_expired (now : Z) (m : manager) :
  well_formed m ->
  sessions (cleanup now m)
  = filter (fun entry : value * session => negb (expiresAt (snd entry) <? now)) (sessions m)
  /\ (forall k s, map_get (sessions m) k = Some s ->
        map_get (sessions (cleanup now m)) k
        = if expiresAt s <? now then None else Some s)
  /\ (forall k, map_get (sessions m) k = None -> map_get (sessions (cleanup now m)) k = None)
  /\ maxAge (cleanup now m) = maxAge m.
Proof.
  intros Hwf. rewrite (cleanup_filter now m Hwf). split; [reflexivity|]. split; [|split].
  - intros k s Hg.
    rewrite (map_get_filter (fun s => negb (expiresAt s <? now)) _ _ _ (proj1 Hwf) Hg).
    now destruct (expiresAt s <? now).
  - intros k Hg. now apply map_get_filter_none.
  - reflexivity.
Qed.

Lemma cleanup_witness :
  sessions (cleanup 200
              (fst (createSession 100 100 100 "s2" []
                      (fst (createSession 1 1 1 "s1" [] (create (VNum 150)))))))
  = [(VStr "s2", {| id := "s2"; data := []; createdAt := 100; lastAccessed := 100;
                    expiresAt := 250 |})].
Proof.
  apply (proj1 (cleanup_removes_the_expired 200 _
    (createSession_well_formed 100 100 100 "s2" [] _
       (createSession_well_formed 1 1 1 "s1" [] _ (create_well_formed (VNum 150)))))).
Defined.

Lemma run_entry (acts : list action) (m : manager) k s :
  well_formed m -> In (k, s) (sessions (run acts m)) ->
  exists s0, In (k, s0) (sessions m) /\ id s = id s0 /\ createdAt s = createdAt s0
             /\ expiresAt s = expiresAt s0.
Proof.
  revert m s. induction acts as [|a acts IH]; intros m s Hwf Hin; [eauto|].
  change (run (a :: acts) m) with (run acts (step a m)) in Hin.
  destruct (IH _ _ (step_well_formed a m Hwf) Hin) as (s1 & Hin1 & E1 & E2 & E3).
  destruct (step_entry _ _ _ _ Hwf Hin1) as (s0 & Hin0 & F1 & F2 & F3).
  exists s0. repeat split; congruence.
Qed.

Lemma run_lookup (acts : list action) (m : manager) k s :
  well_formed m -> map_get (sessions (run acts m)) k = Some s ->
  exists s0, map_get (sessions m) k = Some s0 /\ id s = id s0
             /\ createdAt s = createdAt s0 /\ expiresAt s = expiresAt s0.
Proof.
  intros Hwf Hg. destruct (map_get_in _ _ _ Hg) as (k0 & Hin & E).
  destruct (run_entry _ _ _ _ Hwf Hin) as (s0 & Hin0 & H).
  exists s0. split; [|exact H]. eapply map_get_unique; [apply Hwf|eassumption|assumption].
Qed.

(** X23: no operation extends a session, and none brings one back. From a
    [Map] that holds every session once under its id, after any sequence
    of [getSession], [updateSession], [destroySession] and [cleanup]: a
    session that is in the [Map] was there at the start, with the same id,
    creation time and expiry; an id without a session at the start has
    none; and a session read after its expiry is not returned, whatever
    was done to it before. Only [createSession] sets an expiry. *)
Theorem sessions_are_never_extended (acts : list action) (m : manager) (k : value) :
  well_formed m ->
  (forall s, map_get (sessions (run acts m)) k = Some s ->
             exists s0, map_get (sessions m) k = Some s0 /\ id s = id s0
                        /\ createdAt s = createdAt s0 /\ expiresAt s = expiresAt s0)
  /\ (map_get (sessions m) k = None -> map_get (sessions (run acts m)) k = None)
  /\ (forall s0 u1 u2, map_get (sessions m) k = Some s0 -> expiresAt s0 < u1 ->
                       snd (getSession u1 u2 k (run acts m)) = None).
Proof.
  intros Hwf. split; [|split].
  - intros s Hg. now apply (run_lookup acts).
  - intros Hn. destruct (map_get (sessions (run acts m)) k) as [s|] eqn:Hg; [|reflexivity].
    destruct (run_lookup acts _ _ _ Hwf Hg) as (s0 & Hg0 & _). congruence.
  - intros s0 u1 u2 Hg0 Hexp. unfold getSession.
    destruct (map_get (sessions (run acts m)) k) as [s|] eqn:Hg; [|reflexivity].
    destruct (run_lookup acts _ _ _ Hwf Hg) as (s1 & Hg1 & _ & _ & E).
    rewrite Hg0 in Hg1. injection Hg1 as <-. rewrite E.
    destruct (expiresAt s0 <? u1) eqn:F; [reflexivity|]. apply Z.ltb_ge in F. lia.
Qed.

Lemma sessions_never_extended_witness :
  snd (getSession 300 301 (VStr "s1")
         (run [Get 10 11 (VStr "s1"); Update 20 21 (VStr "s1") [("n", VNum 1)]]
            (fst (createSession 1 1 1 "s1" [] (create (VNum 150))))))
  = None.
Proof.
  apply (proj2 (proj2 (sessions_are_never_extended
           [Get 10 11 (VStr "s1"); Update 20 21 (VStr "s1") [("n", VNum 1)]]
           (fst (createSession 1 1 1 "s1" [] (create (VNum 150)))) (VStr "s1")
           (createSession_well_formed 1 1 1 "s1" [] _ (create_well_formed (VNum 150)))))
         {| id := "s1"; data := []; createdAt := 1; lastAccessed := 1; expiresAt := 151 |}).
  - reflexivity.
  - simpl. lia.
Defined.

(** X24: [updateSession]. On an id without a session it returns [false]
    and changes nothing. On a session past its expiry it returns [false]
    and takes the session out. On a session not past its expiry it
    returns [true]; the session then has the properties of the data given
    over those it had (a property not given keeps its value), the new
    [lastAccessed], and its id, creation time and expiry as before; the
    other sessions are untouched. *)
Theorem updateSession_merges (t1 t2 : Z) (sid : value) (d : object) (m : manager) :
  (map_get (sessions m) sid = None -> updateSession t1 t2 sid d m = (m, false))
  /\ (forall s0, map_get (sessions m) sid = Some s0 -> expiresAt s0 < t1 ->
        updateSession t1 t2 sid d m
        = (with_sessions m (map_delete (sessions m) sid), false))
  /\ (forall s0, map_get (sessions m) sid = Some s0 -> t1 <= expiresAt s0 ->
        let m1 := fst (updateSession t1 t2 sid d m) in
        snd (updateSession t1 t2 sid d m) = true
        /\ map_get (sessions m1) sid
           = Some {| id := id s0; data := spread (data s0) d; createdAt := createdAt s0;
                     lastAccessed := t2; expiresAt := expiresAt s0 |}
        /\ (forall f, has_prop d f = false ->
                      prop (spread (data s0) d) f = prop (data s0) f)
        /\ (forall f, NoDup (map fst d) -> has_prop d f = true ->
                      prop (spread (data s0) d) f = prop d f)
        /\ (forall k, strict_eq sid k = false ->
                      map_get (sessions m1) k = map_get (sessions m) k)).
Proof.
  split; [|split].
  - intros Hg. unfold updateSession, getSession. now rewrite Hg.
  - intros s0 Hg Hexp. unfold updateSession, getSession. rewrite Hg.
    destruct (expiresAt s0 <? t1) eqn:E; [reflexivity|]. apply Z.ltb_ge in E. lia.
  - intros s0 Hg Hlive. cbv zeta. unfold updateSession, getSession. rewrite Hg.
    destruct (expiresAt s0 <? t1) eqn:E; [apply Z.ltb_lt in E; lia|].
    cbn [fst snd sessions with_sessions].
    pose proof (map_get_some_primitive _ _ _ Hg) as Hp.
    split; [reflexivity|]. split; [now apply map_get_set_same|].
    split; [intros f Hf; now apply prop_spread_absent|].
    split; [intros f Hnd Hf; now apply prop_spread_present|].
    intros k Hk. now rewrite !map_get_set_other.
Qed.

Lemma updateSession_witness :
  snd (updateSession 20 21 (VStr "s1") [("n", VNum 1)]
         (fst (createSession 1 1 1 "s1" [] (create (VNum 150)))))
  = true.
Proof.
  exact (proj1 (proj2 (proj2 (updateSession_merges 20 21 (VStr "s1") [("n", VNum 1)]
                                (fst (createSession 1 1 1 "s1" [] (create (VNum 150))))))
                  {| id := "s1"; data := []; createdAt := 1; lastAccessed := 1;
                     expiresAt := 151 |} eq_refl ltac:(simpl; lia))).
Defined.
End Sessions.

(** ** Metrics *)

Section MetricsFacts.
Import Metrics.

Lemma timing_step (x : value) (d : data) (l : list value) :
  responseTimes d = Durations l -> (length l <= 100)%nat ->
  timing true "responseTime" x d
  = Timed (with_times d (Durations (skipn (length (l ++ [x]) - 100) (l ++ [x])))).
Proof.
  intros Hl Hlen. unfold timing. simpl (true && _). rewrite Hl. cbv zeta.
  f_equal. f_equal. f_equal. rewrite length_app. simpl (length [x]).
  destruct (100 <? Z.of_nat (length l + 1)) eqn:E.
  - apply Z.ltb_lt in E. replace (length l + 1 - 100)%nat with 1%nat by lia.
    now destruct (l ++ [x]).
  - apply Z.ltb_ge in E. now replace (length l + 1 - 100)%nat with 0%nat by lia.
Qed.

Lemma timings_window (ds : list value) :
  forall (d : data) (l0 : list value),
    responseTimes d = Durations l0 -> (length l0 <= 100)%nat ->
    timings true ds d
    = Timed (with_times d (Durations (skipn (length (l0 ++ ds) - 100) (l0 ++ ds)))).
Proof.
  unfold timings. induction ds as [|x ds IH]; intros d l0 Hl Hlen.
  - simpl. rewrite app_nil_r. replace (length l0 - 100)%nat with 0%nat by lia.
    simpl. unfold with_times. rewrite <- Hl. now destruct d.
  - simpl. rewrite (timing_step x d l0 Hl Hlen).
    set (l1 := skipn (length (l0 ++ [x]) - 100) (l0 ++ [x])).
    assert (Hlen1 : (length l1 <= 100)%nat).
    { unfold l1. rewrite length_skipn, length_app. simpl. lia. }
    rewrite (IH (with_times d (Durations l1)) l1 eq_refl Hlen1).
    f_equal. unfold with_times. simpl. f_equal. f_equal.
    unfold l1.
    assert (Hb : (length (l0 ++ [x]) - 100 <= length (l0 ++ [x]))%nat) by lia.
    set (b := (length (l0 ++ [x]) - 100)%nat) in *.
    replace (skipn b (l0 ++ [x]) ++ ds) with (skipn b ((l0 ++ [x]) ++ ds)).
    2:{ rewrite skipn_app. replace (b - length (l0 ++ [x]))%nat with 0%nat by lia.
        reflexivity. }
    rewrite skipn_skipn. rewrite <- app_assoc. simpl ([x] ++ ds).
    f_equal. rewrite length_skipn. subst b. rewrite !length_app in *. simpl in *. lia.
Qed.

(** X25: the window of the response times. From an array of 100
    durations at most, after the calls [timing('responseTime', x)] for a
    list of durations the array holds the last 100 of the durations it had
    and those given, in their order (all of them while they are 100 at
    most), and the counters are as they were. With the metrics disabled,
    and for any other metric name (['responseTimes'] also), [timing] does
    nothing. *)
Theorem timing_keeps_the_last_hundred (ds : list value) (d : data) (l0 : list value) :
  responseTimes d = Durations l0 -> (length l0 <= 100)%nat ->
  let kept := skipn (length (l0 ++ ds) - 100) (l0 ++ ds) in
  timings true ds d = Timed (with_times d (Durations kept))
  /\ (length kept <= 100)%nat
  /\ ((length (l0 ++ ds) <= 100)%nat -> kept = l0 ++ ds)
  /\ (forall x, timing false "responseTime" x d = Timed d)
  /\ (forall metric x, metric <> "responseTime" -> timing true metric x d = Timed d).
Proof.
  intros Hl Hlen. cbv zeta. split; [now apply timings_window|].
  split; [rewrite length_skipn; lia|].
  split.
  { intros H. now replace (length (l0 ++ ds) - 100)%nat with 0%nat by lia. }
  split; [reflexivity|].
  intros metric x Hne. unfold timing. apply String.eqb_neq in Hne. now rewrite Hne.
Qed.

Lemma timing_window_witness :
  timings true [VNum 7; VNum 9] (initial 0)
  = Timed (with_times (initial 0) (Durations [VNum 7; VNum 9])).
Proof.
  exact (proj1 (timing_keeps_the_last_hundred [VNum 7; VNum 9] (initial 0) []
                  eq_refl ltac:(simpl; lia))).
Defined.


End MetricsFacts.

(** ** The order of what [find] returns, and what [update] writes *)

Lemma filterM_filter {A : Type} (p : A -> outcome bool) (l r : list A) :
  filterM p l = Returned r ->
  r = filter (fun x => match p x with Returned true => true | _ => false end) l.
Proof.
  revert r. induction l as [|a l IH]; simpl; intros r.
  - now intros [= <-].
  - destruct (p a) as [b|err]; simpl; [|discriminate].
    destruct (filterM p l) as [r'|err]; simpl; [|discriminate].
    intros [= <-]. rewrite (IH r' eq_refl). now destruct b.
Qed.

Lemma filter_filter {A : Type} (p q : A -> bool) (l : list A) :
  filter q (filter p l) = filter (fun x => p x && q x) l.
Proof.
  induction l as [|a l IH]; simpl; [reflexivity|].
  destruct (p a); simpl; [destruct (q a); simpl; now rewrite IH|assumption].
Qed.

Lemma json_find_order rx (h : heap) (q : object) :
  forall (keep0 : loc -> bool) (ls r : list loc),
    fold_left
      (fun (results : outcome (list loc)) (fv : string * value) =>
         rs <- results ;;
         if startsWith_underscore (fst fv) then Returned rs
         else filterM (fun l => json_field_filter rx (fst fv) (snd fv) (deref h l)) rs)
      q (Returned (filter keep0 ls)) = Returned r ->
    exists keep, r = filter keep ls /\ forall l, keep l = true -> keep0 l = true.
Proof.
  induction q as [|[field qv] q IH]; intros keep0 ls r; simpl.
  - intros [= <-]. exists keep0. auto.
  - destruct (startsWith_underscore field); [apply IH|].
    destruct (filterM _ (filter keep0 ls)) as [r1|err] eqn:E.
    + apply filterM_filter in E. rewrite filter_filter in E. rewrite E. intros H.
      apply IH in H. destruct H as (keep & -> & Hk). exists keep. split; [reflexivity|].
      intros l Hl. apply Hk in Hl. now apply andb_true_iff in Hl.
    + intros H. exfalso. clear -H. induction q as [|fv q IH]; simpl in H; [discriminate|].
      now apply IH.
Qed.

(** X27: [find] keeps the order of the store. On both engines what
    [find] returns, for any filter, is a selection of the stored records
    in their stored order (the array of the file-backed engine, the
    insertion order of the [Map] of the in-memory engine), each record once
    for each place it is stored at, and no deleted record is selected.
    With the empty filter the selection is all the records that are not
    deleted. *)
Theorem find_keeps_the_stored_order :
  (forall rx q e r,
      JSON.find rx q e = Returned r ->
      exists keep, r = filter keep (JSON.data e)
                   /\ forall l, keep l = true ->
                                deleted (deref (JSON.objects e) l) = false)
  /\ (forall rx q e r,
      Memory.find rx q e = Returned r ->
      exists keep, r = filter keep (map snd (Memory.data e))
                   /\ forall l, keep l = true ->
                                deleted (deref (Memory.objects e) l) = false)
  /\ (forall rx e, exists r,
        JSON.find rx [] e = Returned r
        /\ map (deref (JSON.objects e)) r = JSON.live e)
  /\ (forall rx e, exists r,
        Memory.find rx [] e = Returned r
        /\ map (deref (Memory.objects e)) r = Memory.live e).
Proof.
  split; [|split; [|split]].
  - intros rx q e r H. unfold JSON.find in H. apply json_find_order in H.
    destruct H as (keep & -> & Hk). exists keep. split; [reflexivity|].
    intros l Hl. apply Hk in Hl. now apply negb_true_iff in Hl.
  - intros rx q e r H. unfold Memory.find in H. apply filterM_filter in H.
    eexists. split; [exact H|]. intros l Hl. cbv beta in Hl.
    destruct (deleted (deref (Memory.objects e) l)); [discriminate|reflexivity].
  - intros rx e. eexists. split; [reflexivity|]. unfold JSON.live, JSON.records.
    induction (JSON.data e) as [|l ls IH]; simpl; [reflexivity|].
    destruct (negb (deleted (deref (JSON.objects e) l))); simpl; now rewrite IH.
  - intros rx e. unfold Memory.find, Memory.live, Memory.records. rewrite map_map. simpl.
    induction (Memory.data e) as [|[k l] ls IH]; simpl.
    + exists []. auto.
    + destruct IH as (r & Hr & Hm). rewrite Hr.
      destruct (deleted (deref (Memory.objects e) l)); simpl; [eauto|].
      eexists. split; [reflexivity|]. simpl. now rewrite Hm.
Qed.

Lemma find_order_witness :
  exists keep,
    [0%nat] = filter keep (JSON.data (fst Scenario.one_record))
    /\ forall l, keep l = true ->
                 deleted (deref (JSON.objects (fst Scenario.one_record)) l) = false.
Proof.
  exact (proj1 find_keeps_the_stored_order literal_regexp [("x", VNum 1)]
           (fst Scenario.one_record) [0%nat] eq_refl).
Defined.

Lemma map_array_set {A B : Type} (f g : A -> B) (l : list A) (i : nat) (x : A) :
  (forall y, In y l -> g y = f y) ->
  map g (array_set l i x) = array_set (map f l) i (g x).
Proof.
  revert i. induction l as [|a l IH]; intros i H; [now destruct i|].
  destruct i as [|i]; simpl.
  - f_equal. apply map_ext_in. intros y Hy. apply H. now right.
  - rewrite (H a) by now left. f_equal. apply IH. intros y Hy. apply H. now right.
Qed.

Lemma merged_fields now (old d : object) :
  prop (JSON.merged now old d) "_updated" = VStr now
  /\ (forall k, k <> "_updated" -> has_prop d k = false ->
                prop (JSON.merged now old d) k = prop old k)
  /\ (forall k, k <> "_updated" -> NoDup (map fst d) -> has_prop d k = true ->
                prop (JSON.merged now old d) k = prop d k).
Proof.
  unfold JSON.merged. split; [apply prop_set_prop_same|]. split.
  - intros k Hk Hd. rewrite prop_set_prop_other by (apply String.eqb_neq; auto).
    now apply prop_spread_absent.
  - intros k Hk Hnd Hd. rewrite prop_set_prop_other by (apply String.eqb_neq; auto).
    now apply prop_spread_present.
Qed.

(** X28: what an accepted [update] writes, on the file-backed engine with
    unique ids and a coherent cache. The record returned takes the place,
    in the array, of the stored record with the id, which was not
    deleted; every other record stays at its place. The new record has the
    properties of the payload over those of the old record (a property the
    payload does not have keeps its value, [_created] among them), and
    [_updated] is the time of the update. *)
Theorem update_writes_the_merged_record (s s' : JSON.state) (now : string) (id : value)
    (d : object) (l : loc) :
  JSON.consistent (fst s) ->
  JSON.update now id d s = (s', Returned l) ->
  exists i old,
    nth_error (JSON.records (fst s)) i = Some old
    /\ strict_eq (prop old "id") id = true /\ deleted old = false
    /\ deref (JSON.objects (fst s')) l = JSON.merged now old d
    /\ JSON.records (fst s') = array_set (JSON.records (fst s)) i (JSON.merged now old d)
    /\ prop (JSON.merged now old d) "_updated" = VStr now
    /\ (forall k, k <> "_updated" -> has_prop d k = false ->
                  prop (JSON.merged now old d) k = prop old k)
    /\ (forall k, k <> "_updated" -> NoDup (map fst d) -> has_prop d k = true ->
                  prop (JSON.merged now old d) k = prop d k).
Proof.
  destruct s as [e dk]. cbn [fst]. intros Hcons Hupd.
  destruct (update_engine _ _ _ _ _ _ _ Hcons Hupd)
    as (e0 & l0 & i & Hg & Hi & Hnth & -> & Ho & Hd & _).
  destruct (get_hit _ _ _ _ Hcons Hg) as (Hin & Hid & Hlive & _).
  destruct Hcons as (_ & _ & _ & Halloc).
  exists i, (deref (JSON.objects e) l0).
  split.
  { unfold JSON.records. rewrite nth_error_map.
    pose proof (nth_error_nth' (JSON.data e) 0%nat Hi) as Hn. rewrite Hnth in Hn.
    transitivity (option_map (deref (JSON.objects e)) (Some l0));
      [f_equal; exact Hn|reflexivity]. }
  split; [exact Hid|]. split; [exact Hlive|].
  split; [rewrite Ho; apply deref_alloc_new|].
  split.
  { unfold JSON.records. rewrite Ho, Hd.
    rewrite (map_array_set (deref (JSON.objects e))).
    - now rewrite deref_alloc_new.
    - intros y Hy. apply deref_alloc_old. now apply Halloc. }
  apply merged_fields.
Qed.

Lemma update_writes_witness :
  exists i old,
    nth_error (JSON.records (fst Scenario.one_record)) i = Some old
    /\ strict_eq (prop old "id") (VStr "a") = true /\ deleted old = false
    /\ deref (JSON.objects
                (fst (fst (JSON.update "t2" (VStr "a") [("x", VNum 5)] Scenario.one_record))))
         1%nat
       = JSON.merged "t2" old [("x", VNum 5)]
    /\ JSON.records (fst (fst (JSON.update "t2" (VStr "a") [("x", VNum 5)]
                                 Scenario.one_record)))
       = array_set (JSON.records (fst Scenario.one_record)) i
           (JSON.merged "t2" old [("x", VNum 5)])
    /\ prop (JSON.merged "t2" old [("x", VNum 5)]) "_updated" = VStr "t2"
    /\ (forall k, k <> "_updated" -> has_prop [("x", VNum 5)] k = false ->
                  prop (JSON.merged "t2" old [("x", VNum 5)]) k = prop old k)
    /\ (forall k, k <> "_updated" -> NoDup (map fst [("x", VNum 5)]) ->
                  has_prop [("x", VNum 5)] k = true ->
                  prop (JSON.merged "t2" old [("x", VNum 5)]) k = prop [("x", VNum 5)] k).
Proof.
  exact (update_writes_the_merged_record Scenario.one_record _ "t2" (VStr "a")
           [("x", VNum 5)] 1%nat one_record_consistent eq_refl).
Defined.

(** ** What [get] returns *)

Lemma unique_loc (e : JSON.engine) (id : value) (l l' : loc) :
  JSON.consistent e ->
  In l (JSON.data e) -> JSON.has_id (JSON.objects e) id l = true ->
  In l' (JSON.data e) -> JSON.has_id (JSON.objects e) id l' = true -> l = l'.
Proof.
  intros Hcons Hin Hid Hin' Hid'.
  destruct (findIndex_unique e id l Hcons Hin Hid) as (i & Hi & _ & Hn).
  destruct (findIndex_unique e id l' Hcons Hin' Hid') as (i' & Hi' & _ & Hn').
  rewrite Hi in Hi'. injection Hi' as <-. now rewrite <- Hn, <- Hn'.
Qed.

Lemma json_get_some (e : JSON.engine) (id : value) :
  JSON.identifies_live e id -> exists l, snd (JSON.get id e) = Some l.
Proof.
  intros (l & Hin & Hid & Hlive). unfold JSON.get, getFromCache.
  destruct (map_get (JSON.cache e) id) as [l'|]; [simpl; eauto|].
  destruct (List.find _ (JSON.data e)) as [l'|] eqn:Hf; [simpl; eauto|].
  exfalso. apply (find_none _ _ Hf) in Hin. unfold JSON.has_id in Hid.
  now rewrite Hid, Hlive in Hin.
Qed.

Lemma json_get_again (e : JSON.engine) (id : value) :
  JSON.consistent e -> snd (JSON.get id (fst (JSON.get id e))) = snd (JSON.get id e).
Proof.
  intros Hcons. destruct (JSON.get id e) as [e0 [l|]] eqn:Hg; cbn [fst snd].
  - destruct (get_hit _ _ _ _ Hcons Hg) as (_ & Hid & _).
    pose proof (has_id_primitive _ _ _ Hid) as Hp.
    assert (Hc : map_get (JSON.cache e0) id = Some l).
    { unfold JSON.get, getFromCache in Hg.
      destruct (map_get (JSON.cache e) id) as [l'|].
      - injection Hg as <- <-. simpl. now apply map_get_set_same.
      - destruct (List.find _ _); [|discriminate]. injection Hg as <- <-. simpl.
        unfold setToCache. now apply map_get_set_same. }
    unfold JSON.get, getFromCache. now rewrite Hc.
  - pose proof (json_get_none _ _ _ Hg) as He. subst e0. now rewrite Hg.
Qed.

(** X29: what [get] returns on the file-backed engine, with unique ids and
    a coherent cache. [get(id)] returns a record exactly when a stored
    record that is not deleted has the id, and then it returns that
    record; it returns [null] exactly when there is none. It changes the
    cache only: the records and the indexes are as before, the state still
    has unique ids and a coherent cache, and the same [get] asked again
    gives the same answer. *)
Theorem get_returns_the_live_record (e : JSON.engine) (id : value) :
  JSON.consistent e ->
  (forall l, snd (JSON.get id e) = Some l
             <-> In l (JSON.data e) /\ JSON.has_id (JSON.objects e) id l = true
                 /\ deleted (deref (JSON.objects e) l) = false)
  /\ (snd (JSON.get id e) = None <-> ~ JSON.identifies_live e id)
  /\ JSON.records (fst (JSON.get id e)) = JSON.records e
  /\ JSON.indexes (fst (JSON.get id e)) = JSON.indexes e
  /\ JSON.consistent (fst (JSON.get id e))
  /\ snd (JSON.get id (fst (JSON.get id e))) = snd (JSON.get id e).
Proof.
  intros Hcons.
  assert (Hfwd : forall l, snd (JSON.get id e) = Some l ->
                           In l (JSON.data e) /\ JSON.has_id (JSON.objects e) id l = true
                           /\ deleted (deref (JSON.objects e) l) = false).
  { intros l Hl. destruct (JSON.get id e) as [e0 r] eqn:Hg. simpl in Hl. subst r.
    destruct (get_hit _ _ _ _ Hcons Hg) as (H1 & H2 & H3 & _). auto. }
  split; [|split; [|split; [|split; [|split]]]].
  - intros l. split; [apply Hfwd|]. intros (Hin & Hid & Hlive).
    destruct (json_get_some e id) as [l' Hl']; [exists l; auto|].
    destruct (Hfwd l' Hl') as (Hin' & Hid' & _).
    now rewrite (unique_loc e id l l' Hcons Hin Hid Hin' Hid').
  - split.
    + intros Hn Hex. destruct (json_get_some e id Hex) as [l Hl]. congruence.
    + intros Hno. destruct (snd (JSON.get id e)) as [l|] eqn:Hl; [|reflexivity].
      exfalso. apply Hno. exists l. now apply Hfwd.
  - pose proof (json_get_data id e) as (Ho & Hd & _). unfold JSON.records.
    now rewrite Ho, Hd.
  - apply json_get_data.
  - now apply get_consistent.
  - now apply json_get_again.
Qed.

Lemma get_returns_witness :
  snd (JSON.get (VStr "a") (fst Scenario.one_record)) = Some 0%nat.
Proof.
  apply (proj1 (get_returns_the_live_record (fst Scenario.one_record) (VStr "a")
                  one_record_consistent)).
  split; [now left|split; reflexivity].
Defined.

Lemma memory_get_again (e : Memory.engine) (id : value) :
  Memory.consistent e ->
  snd (Memory.get id (fst (Memory.get id e))) = snd (Memory.get id e).
Proof.
  intros Hcons. destruct (Memory.get id e) as [e0 [l|]] eqn:Hg; cbn [fst snd].
  - destruct (memory_get_hit _ _ _ _ Hcons Hg) as (Hm & _).
    pose proof (map_get_some_primitive _ _ _ Hm) as Hp.
    assert (Hc : map_get (Memory.cache e0) id = Some l).
    { unfold Memory.get, getFromCache in Hg.
      destruct (map_get (Memory.cache e) id) as [l'|].
      - injection Hg as <- <-. simpl. now apply map_get_set_same.
      - destruct (map_get (Memory.data e) id); [|discriminate].
        destruct (negb _); [|discriminate]. injection Hg as <- <-. simpl.
        unfold setToCache. now apply map_get_set_same. }
    unfold Memory.get, getFromCache. now rewrite Hc.
  - pose proof (memory_get_none _ _ _ Hg) as He. subst e0. now rewrite Hg.
Qed.

(** X30: what [get] returns on the in-memory engine, with a coherent
    cache. [get(id)] returns a record exactly when [data] holds a record
    under the id that is not deleted, and then it returns that record;
    otherwise it returns [null]. It changes the cache only: [data], the
    records and the indexes are as before, the cache is still coherent,
    and the same [get] asked again gives the same answer. *)
Theorem memory_get_returns_the_live_record (e : Memory.engine) (id : value) :
  Memory.consistent e ->
  (forall l, snd (Memory.get id e) = Some l
             <-> map_get (Memory.data e) id = Some l
                 /\ deleted (deref (Memory.objects e) l) = false)
  /\ Memory.data (fst (Memory.get id e)) = Memory.data e
  /\ Memory.objects (fst (Memory.get id e)) = Memory.objects e
  /\ Memory.indexes (fst (Memory.get id e)) = Memory.indexes e
  /\ Memory.consistent (fst (Memory.get id e))
  /\ snd (Memory.get id (fst (Memory.get id e))) = snd (Memory.get id e).
Proof.
  intros Hcons. split; [|split; [|split; [|split; [|split]]]].
  - intros l. split.
    + intros Hl. destruct (Memory.get id e) as [e0 r] eqn:Hg. simpl in Hl. subst r.
      destruct (memory_get_hit _ _ _ _ Hcons Hg) as (H1 & H2 & _). auto.
    + intros [Hm Hlive]. destruct Hcons as (_ & Hc & _).
      unfold Memory.get, getFromCache.
      destruct (map_get (Memory.cache e) id) as [l'|] eqn:Hca.
      * destruct (Hc _ _ Hca) as [Hm' _]. simpl. congruence.
      * rewrite Hm, Hlive. reflexivity.
  - apply memory_get_data.
  - apply memory_get_data.
  - apply memory_get_data.
  - now apply memory_get_consistent.
  - now apply memory_get_again.
Qed.

Lemma memory_get_returns_witness :
  snd (Memory.get (VStr "a") Scenario.memory_one) = Some 0%nat.
Proof.
  apply (proj1 (memory_get_returns_the_live_record Scenario.memory_one (VStr "a")
                  memory_one_consistent)).
  split; reflexivity.
Defined.
